(** * Name resolution and module linking of the Quint/TNT front end

    A shallow embedding of four passes of the compiler front end:
    - [Flattening]: [flatten] of [quint/src/flattening.ts];
    - [DefinitionsCollector]: the visitor behind [collectDefinitions];
    - [TypeAliasInliner]: [inlineTypeAliases] and [resolveAlias];
    - [ImportResolver]: [resolveImports];

    and of three neighbours of theirs:
    - [Substitutions]: the effect substitutions of
      [tntc/src/effects/substitutions.ts];
    - [NameCollector]: the collector into one table, an earlier
      [definitionsCollector.ts];
    - [EvaluatorContext]: the frames of constants and namespaces of the
      evaluator's [Context].

    JavaScript [bigint]s are [Z]; an optional field is an [option]; a
    JavaScript [Map] is an association list in insertion order, which is the
    order [entries()], [values()] and [forEach] visit it in. *)

From Stdlib Require Import ZArith List String Ascii Bool Lia.
Import ListNotations.
Open Scope string_scope.
Open Scope Z_scope.
Set Warnings "-register-all".

(** ** JavaScript containers *)

Module Js.

(** [Map.prototype.get]: keys are unique in a [Map], the first match is the
    only one. *)
Fixpoint Map_get {K V : Type} (eqb : K -> K -> bool) (m : list (K * V)) (k : K) : option V :=
  match m with
  | [] => None
  | (k', v) :: rest => if eqb k' k then Some v else Map_get eqb rest k
  end.

Definition Map_has {K V : Type} (eqb : K -> K -> bool) (m : list (K * V)) (k : K) : bool :=
  match Map_get eqb m k with Some _ => true | None => false end.

(** [Map.prototype.set]: an existing key keeps its position, a new key goes
    last. *)
Fixpoint Map_set {K V : Type} (eqb : K -> K -> bool) (m : list (K * V)) (k : K) (v : V) : list (K * V) :=
  match m with
  | [] => [(k, v)]
  | (k', v') :: rest =>
      if eqb k' k then (k', v) :: rest else (k', v') :: Map_set eqb rest k v
  end.

Definition Map_values {K V : Type} (m : list (K * V)) : list V := map snd m.
Definition Map_keys {K V : Type} (m : list (K * V)) : list K := map fst m.

(** [new Map(entries)]: later entries overwrite earlier ones with the same key. *)
Definition Map_of {K V : Type} (eqb : K -> K -> bool) (entries : list (K * V)) : list (K * V) :=
  fold_left (fun m kv => Map_set eqb m (fst kv) (snd kv)) entries [].

(** [new Map(m.entries())] for a [Map] [m]: a new object with the same
    entries in the same order; the values are shared, not copied. *)
Definition Map_copy {K V : Type} (m : list (K * V)) : list (K * V) := m.

(** [array[i]] for an integer [i]: a negative index names no element of an
    array, the read gives [undefined]. *)
Definition index {A : Type} (l : list A) (i : Z) : option A :=
  if i <? 0 then None else nth_error l (Z.to_nat i).

(** [Array.prototype.sort(compare)], a stable insertion sort: [a] goes
    before [b] when [compare a b] is negative. *)
Fixpoint sort_insert {A : Type} (compare : A -> A -> Z) (x : A) (sorted : list A) : list A :=
  match sorted with
  | [] => [x]
  | y :: rest =>
      if compare x y <? 0 then x :: y :: rest else y :: sort_insert compare x rest
  end.

Definition sort {A : Type} (compare : A -> A -> Z) (l : list A) : list A :=
  fold_left (fun sorted x => sort_insert compare x sorted) (rev l) [].

End Js.

(** ** Types ([quintTypes.ts]) *)

Inductive QuintType : Type :=
| TBool (id : option Z)
| TInt (id : option Z)
| TStr (id : option Z)
| TVar (name : string) (id : option Z)
| TConst (name : string) (id : option Z)
| TSet (elem : QuintType) (id : option Z)
| TList (elem : QuintType) (id : option Z)
| TFun (arg res : QuintType) (id : option Z)
| TOper (args : list QuintType) (res : QuintType) (id : option Z)
| TTup (fields : Row) (id : option Z)
| TRec (fields : Row) (id : option Z)
| TUnion (tag : string) (records : list (string * Row)) (id : option Z)
with Row : Type :=
| RowFields (fields : list (string * QuintType)) (other : Row)
| RowVar (name : string)
| RowEmpty.

Definition type_id (t : QuintType) : option Z :=
  match t with
  | TBool i | TInt i | TStr i | TVar _ i | TConst _ i | TSet _ i | TList _ i
  | TFun _ _ i | TOper _ _ i | TTup _ i | TRec _ i | TUnion _ _ i => i
  end.

(** ** Expressions and declarations ([quintIr.ts]) *)

(** The qualifier of an operator is one of a few strings, ['pureval'] among
    them. *)
Definition OpQualifier : Type := string.

Record QuintLambdaParameter : Type := mkParam { param_id : Z; param_name : string }.

Inductive QuintEx : Type :=
| EName (name : string) (id : Z)
| EBool (value : bool) (id : Z)
| EInt (value : Z) (id : Z)
| EStr (value : string) (id : Z)
| EApp (opcode : string) (args : list QuintEx) (id : Z)
| ELambda (params : list QuintLambdaParameter) (qualifier : OpQualifier) (expr : QuintEx) (id : Z)
| ELet (opdef : QuintOpDef) (expr : QuintEx) (id : Z)
with QuintOpDef : Type :=
| OpDef (name : string) (qualifier : OpQualifier) (expr : QuintEx)
        (typeAnnotation : option QuintType) (id : Z).

Inductive QuintDef : Type :=
| DOp (opdef : QuintOpDef)
| DConst (name : string) (typeAnnotation : QuintType) (id : Z)
| DVar (name : string) (typeAnnotation : QuintType) (id : Z)
| DAssume (name : string) (assumption : QuintEx) (id : Z)
| DTypeDef (name : string) (type : option QuintType) (id : Z)
| DImport (name : string) (path : string) (id : Z)
| DInstance (name : string) (protoName : string)
            (overrides : list (QuintLambdaParameter * QuintEx)) (id : Z).

Record QuintModule : Type := mkModule {
  module_name : string;
  module_defs : list QuintDef;
  module_id : Z
}.

Definition opdef_name (d : QuintOpDef) : string := match d with OpDef n _ _ _ _ => n end.
Definition opdef_id (d : QuintOpDef) : Z := match d with OpDef _ _ _ _ i => i end.

Definition def_name (d : QuintDef) : string :=
  match d with
  | DOp o => opdef_name o
  | DConst n _ _ | DVar n _ _ | DAssume n _ _ | DTypeDef n _ _
  | DImport n _ _ | DInstance n _ _ _ => n
  end.

Definition def_id (d : QuintDef) : Z :=
  match d with
  | DOp o => opdef_id o
  | DConst _ _ i | DVar _ _ i | DAssume _ _ i | DTypeDef _ _ i
  | DImport _ _ i | DInstance _ _ _ i => i
  end.

Definition is_instance (d : QuintDef) : bool :=
  match d with DInstance _ _ _ _ => true | _ => false end.

Definition is_import (d : QuintDef) : bool :=
  match d with DImport _ _ _ => true | _ => false end.

(** [isAnnotatedDef]: [def.typeAnnotation !== undefined]. *)
Definition isAnnotatedDef (d : QuintDef) : option QuintType :=
  match d with
  | DOp (OpDef _ _ _ ann _) => ann
  | DConst _ ann _ | DVar _ ann _ => Some ann
  | _ => None
  end.

(** [{ ...def, typeAnnotation: type }] *)
Definition withTypeAnnotation (d : QuintDef) (ty : QuintType) : QuintDef :=
  match d with
  | DOp (OpDef n q e _ i) => DOp (OpDef n q e (Some ty) i)
  | DConst n _ i => DConst n ty i
  | DVar n _ i => DVar n ty i
  | other => other
  end.

(** ** The resolved lookup table ([lookupTable.ts])

    The table of the flattener and of the alias inliner maps the id of a
    reference to its definition; the passes read the definition's [kind] and
    [typeAnnotation] and copy the rest along. *)
Record LookupDef : Type := mkLookupDef {
  kind : string;
  typeAnnotation : option QuintType
}.

Definition LookupTable : Type := list (Z * LookupDef).
Definition table_get (table : LookupTable) (id : Z) : option LookupDef :=
  Js.Map_get Z.eqb table id.

(** ** Flattening ([quint/src/flattening.ts]) *)

Module Flattening.

Definition Modules : Type := list (string * QuintModule).
Definition modules_get (modules : Modules) (name : string) : option QuintModule :=
  Js.Map_get String.eqb modules name.

(** Modelled from the spec: [idGenerator.ts] is not among the sources. The
    spec calls it a monotonic generator, a counter owned by one flattening
    run; [newIdGenerator(initialId = 0n)] keeps the last id handed out and
    [nextId()] returns [++lastId]. An [undefined] argument selects the
    default [0n]. *)
Definition IdGenerator : Type := Z.
Definition newIdGenerator (initialId : option Z) : IdGenerator :=
  match initialId with Some i => i | None => 0 end.
Definition nextId (g : IdGenerator) : Z * IdGenerator := (g + 1, g + 1).

(** What a run of the flattener can throw. [TypeError] is the exception of
    the JavaScript runtime for a property read on [undefined], which is
    what a failed [!] assertion leads to. *)
Inductive Error : Type :=
| CouldNotFindDef (id : Z) (name : string)
| InstanceNotFlattened (def : QuintDef)
| ImpossibleKind
| TypeError (property : string).

(** State of the id generator threaded through the run; a throw aborts it. *)
Inductive Result (A : Type) : Type :=
| Ok (a : A) (g : IdGenerator)
| Throw (e : Error).
Arguments Ok {A} a g.
Arguments Throw {A} e.

Definition M (A : Type) : Type := IdGenerator -> Result A.
Definition ret {A : Type} (a : A) : M A := fun g => Ok a g.
Definition throw {A : Type} (e : Error) : M A := fun _ => Throw e.
Definition bind {A B : Type} (m : M A) (k : A -> M B) : M B :=
  fun g => match m g with Ok a g' => k a g' | Throw e => Throw e end.
Definition fresh : M Z := fun g => let (id, g') := nextId g in Ok id g'.
Definition lift {A : Type} (f : IdGenerator -> A * IdGenerator) : M A :=
  fun g => let (a, g') := f g in Ok a g'.

Notation "x <- m ;; k" := (bind m (fun x => k))
  (at level 61, m at next level, right associativity).

(** [array.map(f)] and [array.forEach(f)] for an effectful [f], left to right. *)
Fixpoint mapM {A B : Type} (f : A -> M B) (l : list A) : M (list B) :=
  match l with
  | [] => ret []
  | a :: rest => b <- f a ;; bs <- mapM f rest ;; ret (b :: bs)
  end.

Fixpoint foldM {A B : Type} (f : B -> A -> M B) (l : list A) (acc : B) : M B :=
  match l with
  | [] => ret acc
  | a :: rest => acc' <- f acc a ;; foldM f rest acc'
  end.

(** *** [addNamespaceToType] and [addNamespaceToRow]

    They never throw; the id of the node is drawn before its children are
    visited. *)
Fixpoint addNamespaceToType (name : string) (type : QuintType) (g : IdGenerator)
  {struct type} : QuintType * IdGenerator :=
  let (id, g) := nextId g in
  match type with
  | TBool _ => (TBool (Some id), g)
  | TInt _ => (TInt (Some id), g)
  | TStr _ => (TStr (Some id), g)
  | TVar n _ => (TVar n (Some id), g)
  | TConst n _ => (TConst (name ++ "::" ++ n) (Some id), g)
  | TSet elem _ =>
      let (elem', g) := addNamespaceToType name elem g in (TSet elem' (Some id), g)
  | TList elem _ =>
      let (elem', g) := addNamespaceToType name elem g in (TList elem' (Some id), g)
  | TFun arg res _ =>
      let (arg', g) := addNamespaceToType name arg g in
      let (res', g) := addNamespaceToType name res g in
      (TFun arg' res' (Some id), g)
  | TOper args res _ =>
      let (args', g) :=
        (fix map_args (l : list QuintType) (g : IdGenerator) : list QuintType * IdGenerator :=
           match l with
           | [] => ([], g)
           | a :: rest =>
               let (a', g) := addNamespaceToType name a g in
               let (rest', g) := map_args rest g in
               (a' :: rest', g)
           end) args g in
      let (res', g) := addNamespaceToType name res g in
      (TOper args' res' (Some id), g)
  | TTup fields _ =>
      let (fields', g) := addNamespaceToRow name fields g in (TTup fields' (Some id), g)
  | TRec fields _ =>
      let (fields', g) := addNamespaceToRow name fields g in (TRec fields' (Some id), g)
  | TUnion tag records _ =>
      let (records', g) :=
        (fix map_records (l : list (string * Row)) (g : IdGenerator)
           : list (string * Row) * IdGenerator :=
           match l with
           | [] => ([], g)
           | (tagValue, fields) :: rest =>
               let (fields', g) := addNamespaceToRow name fields g in
               let (rest', g) := map_records rest g in
               ((tagValue, fields') :: rest', g)
           end) records g in
      (TUnion tag records' (Some id), g)
  end
with addNamespaceToRow (name : string) (row : Row) (g : IdGenerator)
  {struct row} : Row * IdGenerator :=
  match row with
  | RowFields fields other =>
      let (fields', g) :=
        (fix map_fields (l : list (string * QuintType)) (g : IdGenerator)
           : list (string * QuintType) * IdGenerator :=
           match l with
           | [] => ([], g)
           | (fieldName, fieldType) :: rest =>
               let (fieldType', g) := addNamespaceToType name fieldType g in
               let (rest', g) := map_fields rest g in
               ((fieldName, fieldType') :: rest', g)
           end) fields g in
      (RowFields fields' other, g)
  | RowVar _ | RowEmpty => (row, g)
  end.

Section WithBuiltins.

(** [defaultValueDefinitions().map(d => d.identifier)]: the identifiers of
    the builtin registry, which [flatten] collects into [builtinNames]. The
    registry of this version is not among the sources, so the flattener is
    read for an arbitrary one. *)
Variable builtinNames : list string.

Record FlatteningContext : Type := mkContext { table : LookupTable }.

Definition builtin_has (name : string) : bool :=
  existsb (String.eqb name) builtinNames.

(** *** [shouldAddNamespace] *)
Definition shouldAddNamespace (ctx : FlatteningContext) (name : string) (id : Z) : M bool :=
  if builtin_has name then ret false
  else
    match table_get (table ctx) id with
    | None => throw (CouldNotFindDef id name)
    | Some def => if String.eqb (kind def) "param" then ret false else ret true
    end.

(** *** [addNamespaceToExpr] and [addNamespaceToOpDef] *)
Fixpoint addNamespaceToExpr (ctx : FlatteningContext) (name : string) (expr : QuintEx)
  {struct expr} : M QuintEx :=
  id <- fresh ;;
  match expr with
  | EName n eid =>
      add <- shouldAddNamespace ctx n eid ;;
      if add : bool then ret (EName (name ++ "::" ++ n) id) else ret (EName n id)
  | EBool v _ => ret (EBool v id)
  | EInt v _ => ret (EInt v id)
  | EStr v _ => ret (EStr v id)
  | EApp opcode args eid =>
      add <- shouldAddNamespace ctx opcode eid ;;
      args' <- (fix map_args (l : list QuintEx) : M (list QuintEx) :=
                  match l with
                  | [] => ret []
                  | a :: rest =>
                      a' <- addNamespaceToExpr ctx name a ;;
                      rest' <- map_args rest ;;
                      ret (a' :: rest')
                  end) args ;;
      if add : bool then ret (EApp (name ++ "::" ++ opcode) args' id)
      else ret (EApp opcode args' id)
  | ELambda params qualifier body _ =>
      params' <- mapM (fun param => pid <- fresh ;; ret (mkParam pid (param_name param))) params ;;
      body' <- addNamespaceToExpr ctx name body ;;
      ret (ELambda params' qualifier body' id)
  | ELet opdef body _ =>
      opdef' <- addNamespaceToOpDef ctx name opdef ;;
      body' <- addNamespaceToExpr ctx name body ;;
      ret (ELet opdef' body' id)
  end
with addNamespaceToOpDef (ctx : FlatteningContext) (name : string) (opdef : QuintOpDef)
  {struct opdef} : M QuintOpDef :=
  match opdef with
  | OpDef n qualifier expr ann _ =>
      expr' <- addNamespaceToExpr ctx name expr ;;
      id <- fresh ;;
      ret (OpDef (name ++ "::" ++ n) qualifier expr' ann id)
  end.

(** *** [addNamespaceToDef] *)
Definition addNamespaceToDef (ctx : FlatteningContext) (name : string) (def : QuintDef)
  : M QuintDef :=
  match def with
  | DOp opdef => opdef' <- addNamespaceToOpDef ctx name opdef ;; ret (DOp opdef')
  | DAssume n assumption _ =>
      assumption' <- addNamespaceToExpr ctx name assumption ;;
      id <- fresh ;;
      ret (DAssume (name ++ "::" ++ n) assumption' id)
  | DConst n ann _ => id <- fresh ;; ret (DConst (name ++ "::" ++ n) ann id)
  | DVar n ann _ => id <- fresh ;; ret (DVar (name ++ "::" ++ n) ann id)
  | DTypeDef n type _ =>
      type' <- match type with
               | Some t => t' <- lift (addNamespaceToType name t) ;; ret (Some t')
               | None => ret None
               end ;;
      id <- fresh ;;
      ret (DTypeDef (name ++ "::" ++ n) type' id)
  | DInstance _ _ _ _ => throw (InstanceNotFlattened def)
  | DImport _ _ _ => ret def
  end.

(** *** [flatten] *)

(** [[...modules.values()].map(m => m.id).sort((a, b) => Number(a - b))[-1]] *)
Definition lastId (modules : Modules) : option Z :=
  Js.index (Js.sort (fun a b => a - b) (map module_id (Js.Map_values modules))) (-1).

(** The body of [def.overrides.forEach]. *)
Definition pushOverride (ctx : FlatteningContext) (instanceName : string)
  (acc : list QuintDef) (override : QuintLambdaParameter * QuintEx) : M (list QuintDef) :=
  let (param, expr) := override in
  match table_get (table ctx) (param_id param) with
  | None => throw (TypeError "typeAnnotation")
  | Some constDef =>
      let name := instanceName ++ "::" ++ param_name param in
      ann <- match typeAnnotation constDef with
             | Some t => t' <- lift (addNamespaceToType instanceName t) ;; ret (Some t')
             | None => ret None
             end ;;
      id <- fresh ;;
      ret (acc ++ [DOp (OpDef name "pureval" expr ann id)])%list
  end.

(** The body of [protoModule.defs.forEach]. *)
Definition pushProtoDef (ctx : FlatteningContext) (instanceName : string)
  (acc : list QuintDef) (protoDef : QuintDef) : M (list QuintDef) :=
  if existsb (fun d => String.eqb (def_name d) (instanceName ++ "::" ++ def_name protoDef)) acc
  then ret acc
  else
    match isAnnotatedDef protoDef with
    | Some ann =>
        type <- lift (addNamespaceToType instanceName ann) ;;
        newDef <- addNamespaceToDef ctx instanceName protoDef ;;
        match isAnnotatedDef newDef with
        | None => throw ImpossibleKind
        | Some _ => ret (acc ++ [withTypeAnnotation newDef type])%list
        end
    | None =>
        newDef <- addNamespaceToDef ctx instanceName protoDef ;;
        ret (acc ++ [newDef])%list
    end.

(** The callback of [module.defs.reduce]. *)
Definition flattenDef (ctx : FlatteningContext) (modules : Modules)
  (acc : list QuintDef) (def : QuintDef) : M (list QuintDef) :=
  match def with
  | DInstance name protoName overrides _ =>
      acc <- foldM (pushOverride ctx name) overrides acc ;;
      match modules_get modules protoName with
      | None => throw (TypeError "defs")
      | Some protoModule => foldM (pushProtoDef ctx name) (module_defs protoModule) acc
      end
  | _ => ret (acc ++ [def])%list
  end.

(** The run of [flatten] with the final state of its id generator. *)
Definition flattenDefs (module : QuintModule) (table : LookupTable) (modules : Modules)
  : Result (list QuintDef) :=
  let idGenerator := newIdGenerator (lastId modules) in
  let context := mkContext table in
  foldM (flattenDef context modules) (module_defs module) [] idGenerator.

Definition flatten (module : QuintModule) (table : LookupTable) (modules : Modules)
  : Error + QuintModule :=
  match flattenDefs module table modules with
  | Ok newDefs _ => inr (mkModule (module_name module) newDefs (module_id module))
  | Throw e => inl e
  end.

End WithBuiltins.

End Flattening.

(** ** Definition collection ([definitionsCollector.ts]) *)

Module DefinitionsCollector.

(** *** The IR the collector walks ([tntIr.ts])

    Modelled from the spec: [tntIr.ts] and [tntTypes.ts] are not among the
    sources. The declarations are those the spec lists ([const], [var],
    [def], [typedef], [assume], [import], [instance], nested [module]) with
    the fields the visitor reads: a lambda's parameters are names, a module
    declaration wraps a module. The collector stores a declared type without
    looking into it. *)
Definition TntType : Type := QuintType.

Inductive TntEx : Type :=
| TntName (name : string) (id : Z)
| TntBool (value : bool) (id : Z)
| TntInt (value : Z) (id : Z)
| TntStr (value : string) (id : Z)
| TntApp (opcode : string) (args : list TntEx) (id : Z)
| TntLambda (params : list string) (qualifier : OpQualifier) (expr : TntEx) (id : Z)
| TntLet (opdef : TntOpDef) (expr : TntEx) (id : Z)
with TntOpDef : Type :=
| TntOp (name : string) (qualifier : OpQualifier) (expr : TntEx) (id : Z).

Inductive TntDef : Type :=
| TntDefOp (opdef : TntOpDef)
| TntConst (name : string) (type : TntType) (id : Z)
| TntVar (name : string) (type : TntType) (id : Z)
| TntAssume (name : string) (assumption : TntEx) (id : Z)
| TntTypeDef (name : string) (type : option TntType) (id : Z)
| TntImport (name : string) (path : string) (id : Z)
| TntInstance (name : string) (protoName : string) (overrides : list (string * TntEx)) (id : Z)
| TntModuleDef (module : TntModule) (id : Z)
with TntModule : Type :=
| TntMod (name : string) (defs : list TntDef) (id : Z).

Definition tnt_module_name (m : TntModule) : string := match m with TntMod n _ _ => n end.
Definition tnt_module_defs (m : TntModule) : list TntDef := match m with TntMod _ d _ => d end.
Definition tnt_module_id (m : TntModule) : Z := match m with TntMod _ _ i => i end.

(** *** Tables *)

Record ValueDefinition : Type := mkValueDefinition {
  kind : string;
  identifier : string;
  reference : option Z;
  scope : option Z
}.

Record TypeDefinition : Type := mkTypeDefinition {
  type_identifier : string;
  type : option TntType;
  type_reference : option Z
}.

Record DefinitionTable : Type := mkDefinitionTable {
  valueDefinitions : list ValueDefinition;
  typeDefinitions : list TypeDefinition
}.

Definition emptyTable : DefinitionTable := mkDefinitionTable [] [].

(** A [LookupTable] is a [Map] from identifier to a [DefinitionTable]
    object. The objects are mutated in place ([push]) and one object can sit
    in several maps, so a map holds the address of each of its cells in a
    store of [DefinitionTable]s, and the maps themselves live in a store of
    [Map] objects. *)
Definition CellRef : Type := nat.
Definition MapRef : Type := nat.
Definition LookupTable : Type := list (string * CellRef).

(** The identifiers of the builtin registry, in the order of
    [defaultDefinitions]. *)
Definition builtinIdentifiers : list string :=
  ["not"; "and"; "or"; "iff"; "implies"; "exists"; "guess"; "forall"; "in";
   "notin"; "union"; "contains"; "fold"; "intersect"; "exclude"; "subseteq";
   "map"; "applyTo"; "filter"; "powerset"; "flatten"; "allLists";
   "chooseSome"; "isFinite"; "size"; "get"; "put"; "keys"; "mapBy";
   "setToMap"; "setOfMaps"; "update"; "updateAs"; "fields"; "with"; "tuples";
   "append"; "concat"; "head"; "tail"; "length"; "nth"; "indices";
   "replaceAt"; "slice"; "select"; "foldl"; "foldr"; "to"; "always";
   "eventually"; "next"; "shift"; "stutter"; "nostutter"; "enabled";
   "weakFair"; "strongFair"; "guarantees"; "existsConst"; "forallConst";
   "chooseConst"; "Bool"; "Int"; "Nat"; "set"; "mapOf"; "list"; "range";
   "tup"; "rec"; "igt"; "ilt"; "igte"; "ilte"; "iadd"; "isub"; "iuminus";
   "imul"; "idiv"; "imod"; "ipow"; "actionAll"; "actionAny"; "field";
   "fieldNames"; "item"; "match"; "assign"; "of"; "eq"; "neq"; "ite";
   "cross"; "difference"].

Definition builtinDefinition (identifier : string) : ValueDefinition :=
  mkValueDefinition "def" identifier None None.

(** *** The visitor [DefinitionsCollectorVisitor] *)

Record Visitor : Type := mkVisitor {
  cells : list DefinitionTable;
  maps : list LookupTable;
  tables : list (string * MapRef);
  currentModuleName : string;
  currentTable : MapRef;
  moduleStack : list string;
  scopeStack : list Z;
  defaultDefinitions : MapRef
}.

Definition cell_at (s : Visitor) (c : CellRef) : DefinitionTable := nth c (cells s) emptyTable.
Definition map_at (s : Visitor) (m : MapRef) : LookupTable := nth m (maps s) [].

(** In-place update of the object at an address. *)
Fixpoint store_update {A : Type} (store : list A) (addr : nat) (f : A -> A) : list A :=
  match store, addr with
  | [], _ => []
  | x :: rest, O => f x :: rest
  | x :: rest, S n => x :: store_update rest n f
  end.

(** [defaultDefinitions()] builds one cell per builtin and a map to them;
    the constructor of the visitor stores that map, and [currentTable]
    starts as an empty map of its own. *)
Definition newVisitor : Visitor :=
  {| cells := map (fun i => mkDefinitionTable [builtinDefinition i] []) builtinIdentifiers;
     maps := [ Js.Map_of String.eqb (combine builtinIdentifiers (seq 0 (List.length builtinIdentifiers)));
               [] ];
     tables := [];
     currentModuleName := "";
     currentTable := 1%nat;
     moduleStack := [];
     scopeStack := [];
     defaultDefinitions := 0%nat |}.

(** JavaScript arrays used as stacks: [push] appends, the top is the last
    element, [pop] on an empty array does nothing. *)
Definition stack_top {A : Type} (stack : list A) : option A :=
  match stack with [] => None | x :: rest => Some (last rest x) end.

(** [!d.scope]: [undefined] and [0n] are the falsy values of an optional
    [bigint]. *)
Definition no_scope (d : ValueDefinition) : bool :=
  match scope d with None => true | Some i => i =? 0 end.

(** [this.currentTable.has(identifier)] or else [set(identifier, emptyTable())] *)
Definition ensureCell (s : Visitor) (identifier : string) : Visitor :=
  if Js.Map_has String.eqb (map_at s (currentTable s)) identifier then s
  else
    {| cells := (cells s ++ [emptyTable])%list;
       maps := store_update (maps s) (currentTable s)
                 (fun m => Js.Map_set String.eqb m identifier (List.length (cells s)));
       tables := tables s;
       currentModuleName := currentModuleName s;
       currentTable := currentTable s;
       moduleStack := moduleStack s;
       scopeStack := scopeStack s;
       defaultDefinitions := defaultDefinitions s |}.

(** [this.currentTable.get(identifier)!.<list>.push(...)] *)
Definition updateCell (s : Visitor) (identifier : string)
  (f : DefinitionTable -> DefinitionTable) : Visitor :=
  match Js.Map_get String.eqb (map_at s (currentTable s)) identifier with
  | None => s
  | Some c =>
      {| cells := store_update (cells s) c f;
         maps := maps s;
         tables := tables s;
         currentModuleName := currentModuleName s;
         currentTable := currentTable s;
         moduleStack := moduleStack s;
         scopeStack := scopeStack s;
         defaultDefinitions := defaultDefinitions s |}
  end.

Definition collectValueDefinition (s : Visitor) (kind identifier : string)
  (reference scope : option Z) : Visitor :=
  if String.eqb identifier "_" then s
  else
    updateCell (ensureCell s identifier) identifier
      (fun cell =>
         mkDefinitionTable
           (valueDefinitions cell ++ [mkValueDefinition kind identifier reference scope])%list
           (typeDefinitions cell)).

Definition collectTypeDefinition (s : Visitor) (identifier : string)
  (type : option TntType) (reference : option Z) : Visitor :=
  updateCell (ensureCell s identifier) identifier
    (fun cell =>
       mkDefinitionTable
         (valueDefinitions cell)
         (typeDefinitions cell ++ [mkTypeDefinition identifier type reference])%list).

Definition updateCurrentModule (s : Visitor) : Visitor :=
  match stack_top (moduleStack s) with
  | None => s
  | Some name =>
      match Js.Map_get String.eqb (tables s) name with
      | Some moduleTable =>
          {| cells := cells s;
             maps := maps s;
             tables := tables s;
             currentModuleName := name;
             currentTable := moduleTable;
             moduleStack := moduleStack s;
             scopeStack := scopeStack s;
             defaultDefinitions := defaultDefinitions s |}
      | None =>
          {| cells := cells s;
             maps := (maps s ++ [Js.Map_copy (map_at s (defaultDefinitions s))])%list;
             tables := Js.Map_set String.eqb (tables s) name (List.length (maps s));
             currentModuleName := name;
             currentTable := List.length (maps s);
             moduleStack := moduleStack s;
             scopeStack := scopeStack s;
             defaultDefinitions := defaultDefinitions s |}
      end
  end.

Definition withModuleStack (s : Visitor) (stack : list string) : Visitor :=
  {| cells := cells s;
     maps := maps s;
     tables := tables s;
     currentModuleName := currentModuleName s;
     currentTable := currentTable s;
     moduleStack := stack;
     scopeStack := scopeStack s;
     defaultDefinitions := defaultDefinitions s |}.

Definition withScopeStack (s : Visitor) (stack : list Z) : Visitor :=
  {| cells := cells s;
     maps := maps s;
     tables := tables s;
     currentModuleName := currentModuleName s;
     currentTable := currentTable s;
     moduleStack := moduleStack s;
     scopeStack := stack;
     defaultDefinitions := defaultDefinitions s |}.

Definition enterModuleDef (s : Visitor) (name : string) : Visitor :=
  updateCurrentModule (withModuleStack s (moduleStack s ++ [name])%list).

(** One turn of [innerModuleTable.forEach]: the unscoped value definitions
    the cell holds at that moment are collected under the module's name. *)
Definition exportCell (name : string) (s : Visitor) (entry : string * CellRef) : Visitor :=
  fold_left
    (fun s d => collectValueDefinition s (kind d) (name ++ "::" ++ identifier d) (reference d) None)
    (filter no_scope (valueDefinitions (cell_at s (snd entry))))
    s.

Definition exitModuleDef (s : Visitor) (name : string) (id : Z) : Visitor :=
  let innerModuleTable := Js.Map_copy (map_at s (currentTable s)) in
  let s := updateCurrentModule (withModuleStack s (removelast (moduleStack s))) in
  match moduleStack s with
  | [] => s
  | _ :: _ =>
      let s := fold_left (exportCell name) innerModuleTable s in
      collectValueDefinition s "module" name (Some id) None
  end.

Definition enterVar (s : Visitor) (name : string) (id : Z) : Visitor :=
  collectValueDefinition s "var" name (Some id) None.

Definition enterConst (s : Visitor) (name : string) (id : Z) : Visitor :=
  collectValueDefinition s "const" name (Some id) None.

Definition enterOpDef (s : Visitor) (name : string) (id : Z) : Visitor :=
  match stack_top (scopeStack s) with
  | Some scope => collectValueDefinition s "def" name (Some id) (Some scope)
  | None => collectValueDefinition s "def" name (Some id) None
  end.

Definition enterTypeDef (s : Visitor) (name : string) (type : option TntType) (id : Z) : Visitor :=
  collectTypeDefinition s name type (Some id).

Definition enterAssume (s : Visitor) (name : string) (id : Z) : Visitor :=
  collectValueDefinition s "assumption" name (Some id) None.

Definition enterLambda (s : Visitor) (params : list string) (id : Z) : Visitor :=
  fold_left (fun s p => collectValueDefinition s "param" p (Some id) (Some id)) params s.

Definition enterLet (s : Visitor) (id : Z) : Visitor :=
  withScopeStack s (scopeStack s ++ [id])%list.

Definition exitLet (s : Visitor) : Visitor :=
  withScopeStack s (removelast (scopeStack s)).

(** *** The walk ([IRVisitor.ts])

    Modelled from the spec: [IRVisitor.ts] is not among the sources. The walk
    visits declarations in document order and calls the visitor on entering
    and on leaving a construct; a module, the outermost one too, is entered,
    its declarations are walked, and it is left. The walk is given as the
    sequence of calls it makes to the methods the collector implements. *)
Inductive Callback : Type :=
| EnterModuleDef (name : string) (id : Z)
| ExitModuleDef (name : string) (id : Z)
| EnterVar (name : string) (id : Z)
| EnterConst (name : string) (id : Z)
| EnterOpDef (name : string) (id : Z)
| EnterTypeDef (name : string) (type : option TntType) (id : Z)
| EnterAssume (name : string) (id : Z)
| EnterLambda (params : list string) (id : Z)
| EnterLet (id : Z)
| ExitLet (id : Z).

Definition visit (s : Visitor) (c : Callback) : Visitor :=
  match c with
  | EnterModuleDef name _ => enterModuleDef s name
  | ExitModuleDef name id => exitModuleDef s name id
  | EnterVar name id => enterVar s name id
  | EnterConst name id => enterConst s name id
  | EnterOpDef name id => enterOpDef s name id
  | EnterTypeDef name type id => enterTypeDef s name type id
  | EnterAssume name id => enterAssume s name id
  | EnterLambda params id => enterLambda s params id
  | EnterLet id => enterLet s id
  | ExitLet _ => exitLet s
  end.

Fixpoint walkExpression (expr : TntEx) : list Callback :=
  match expr with
  | TntName _ _ | TntBool _ _ | TntInt _ _ | TntStr _ _ => []
  | TntApp _ args _ =>
      (fix walk_args (l : list TntEx) : list Callback :=
         match l with
         | [] => []
         | a :: rest => (walkExpression a ++ walk_args rest)%list
         end) args
  | TntLambda params _ body id => (EnterLambda params id :: walkExpression body)%list
  | TntLet opdef body id =>
      (EnterLet id :: walkOpDef opdef ++ walkExpression body ++ [ExitLet id])%list
  end
with walkOpDef (opdef : TntOpDef) : list Callback :=
  match opdef with
  | TntOp name _ expr id => (EnterOpDef name id :: walkExpression expr)%list
  end.

Fixpoint walkDefinition (def : TntDef) : list Callback :=
  match def with
  | TntDefOp opdef => walkOpDef opdef
  | TntConst name _ id => [EnterConst name id]
  | TntVar name _ id => [EnterVar name id]
  | TntAssume name assumption id => (EnterAssume name id :: walkExpression assumption)%list
  | TntTypeDef name type id => [EnterTypeDef name type id]
  | TntImport _ _ _ => []
  | TntInstance _ _ overrides _ => flat_map (fun o => walkExpression (snd o)) overrides
  | TntModuleDef module id => walkModuleDef module id
  end
with walkModuleDef (module : TntModule) (id : Z) : list Callback :=
  match module with
  | TntMod name defs _ =>
      (EnterModuleDef name id
       :: (fix walk_defs (l : list TntDef) : list Callback :=
             match l with
             | [] => []
             | d :: rest => (walkDefinition d ++ walk_defs rest)%list
             end) defs
       ++ [ExitModuleDef name id])%list
  end.

Definition walkModule (module : TntModule) : list Callback :=
  walkModuleDef module (tnt_module_id module).

Definition run (callbacks : list Callback) (s : Visitor) : Visitor :=
  fold_left visit callbacks s.

(** *** [collectDefinitions]

    The function returns [visitor.tables]; what a caller then reads through
    those references is the content of the stores at that time. *)
Definition tableContent (s : Visitor) (m : MapRef) : list (string * DefinitionTable) :=
  map (fun entry => (fst entry, cell_at s (snd entry))) (map_at s m).

Definition tablesContent (s : Visitor) : list (string * list (string * DefinitionTable)) :=
  map (fun entry => (fst entry, tableContent s (snd entry))) (tables s).

Definition collectDefinitions (tntModule : TntModule)
  : list (string * list (string * DefinitionTable)) :=
  tablesContent (run (walkModule tntModule) newVisitor).

End DefinitionsCollector.

(** ** Type-alias inlining ([types/aliasInliner.ts]) *)

Module TypeAliasInliner.

(** *** [resolveAlias]

    The recursion follows the table, not the type, so it is counted by
    [fuel]: [None] is a run that has not returned within it. A [const] type
    with a truthy id (present and not [0n]) whose definition has a
    [typeAnnotation] is an alias. *)
Fixpoint resolveAlias (fuel : nat) (lookupTable : LookupTable) (type : QuintType)
  {struct fuel} : option QuintType :=
  match type with
  | TConst _ (Some id) =>
      if id =? 0 then Some type
      else
        match table_get lookupTable id with
        | Some aliasValue =>
            match typeAnnotation aliasValue with
            | Some annotation =>
                match fuel with
                | O => None
                | S fuel' => resolveAlias fuel' lookupTable annotation
                end
            | None => Some type
            end
        | None => Some type
        end
  | _ => Some type
  end.

(** [AliasInliner.enterType] *)
Definition enterType (fuel : nat) (lookupTable : LookupTable) (type : QuintType)
  : option QuintType :=
  resolveAlias fuel lookupTable type.

Fixpoint mapO {A B : Type} (f : A -> option B) (l : list A) : option (list B) :=
  match l with
  | [] => Some []
  | a :: rest =>
      match f a with
      | None => None
      | Some b => match mapO f rest with None => None | Some bs => Some (b :: bs) end
      end
  end.

(** *** The transformer's traversal ([IRTransformer.ts])

    Modelled from the spec: [IRTransformer.ts] is not among the sources. It is
    the generic rewrite of the spec: [transformType] hands a type to the
    transformer's [enterType] and then rewrites the components of what
    [enterType] returned; [transformDefinition] rewrites the type of a type
    alias and the annotation of an annotated definition and goes through
    expressions for the operators bound by [let]; a type declaration without
    a type has nothing to rewrite. *)
Fixpoint transformType (fuel : nat) (lookupTable : LookupTable) (type : QuintType)
  {struct fuel} : option QuintType :=
  match fuel with
  | O => None
  | S fuel' =>
      match enterType fuel' lookupTable type with
      | None => None
      | Some newType =>
          match newType with
          | TBool _ | TInt _ | TStr _ | TVar _ _ | TConst _ _ => Some newType
          | TSet elem id =>
              option_map (fun elem' => TSet elem' id) (transformType fuel' lookupTable elem)
          | TList elem id =>
              option_map (fun elem' => TList elem' id) (transformType fuel' lookupTable elem)
          | TFun arg res id =>
              match transformType fuel' lookupTable arg, transformType fuel' lookupTable res with
              | Some arg', Some res' => Some (TFun arg' res' id)
              | _, _ => None
              end
          | TOper args res id =>
              match mapO (transformType fuel' lookupTable) args,
                    transformType fuel' lookupTable res with
              | Some args', Some res' => Some (TOper args' res' id)
              | _, _ => None
              end
          | TTup fields id =>
              option_map (fun fields' => TTup fields' id) (transformRow fuel' lookupTable fields)
          | TRec fields id =>
              option_map (fun fields' => TRec fields' id) (transformRow fuel' lookupTable fields)
          | TUnion tag records id =>
              option_map (fun records' => TUnion tag records' id)
                (mapO (fun record =>
                         option_map (fun fields' => (fst record, fields'))
                           (transformRow fuel' lookupTable (snd record)))
                      records)
          end
      end
  end
with transformRow (fuel : nat) (lookupTable : LookupTable) (row : Row)
  {struct fuel} : option Row :=
  match fuel with
  | O => None
  | S fuel' =>
      match row with
      | RowFields fields other =>
          match mapO (fun field =>
                        option_map (fun fieldType' => (fst field, fieldType'))
                          (transformType fuel' lookupTable (snd field)))
                     fields,
                transformRow fuel' lookupTable other with
          | Some fields', Some other' => Some (RowFields fields' other')
          | _, _ => None
          end
      | RowVar _ | RowEmpty => Some row
      end
  end.

Definition transformOptType (fuel : nat) (lookupTable : LookupTable)
  (type : option QuintType) : option (option QuintType) :=
  match type with
  | None => Some None
  | Some t => option_map Some (transformType fuel lookupTable t)
  end.

Fixpoint transformExpression (fuel : nat) (lookupTable : LookupTable) (expr : QuintEx)
  {struct expr} : option QuintEx :=
  match expr with
  | EName _ _ | EBool _ _ | EInt _ _ | EStr _ _ => Some expr
  | EApp opcode args id =>
      option_map (fun args' => EApp opcode args' id)
        ((fix map_args (l : list QuintEx) : option (list QuintEx) :=
            match l with
            | [] => Some []
            | a :: rest =>
                match transformExpression fuel lookupTable a, map_args rest with
                | Some a', Some rest' => Some (a' :: rest')
                | _, _ => None
                end
            end) args)
  | ELambda params qualifier body id =>
      option_map (fun body' => ELambda params qualifier body' id)
        (transformExpression fuel lookupTable body)
  | ELet opdef body id =>
      match transformOpDef fuel lookupTable opdef, transformExpression fuel lookupTable body with
      | Some opdef', Some body' => Some (ELet opdef' body' id)
      | _, _ => None
      end
  end
with transformOpDef (fuel : nat) (lookupTable : LookupTable) (opdef : QuintOpDef)
  {struct opdef} : option QuintOpDef :=
  match opdef with
  | OpDef name qualifier expr annotation id =>
      match transformOptType fuel lookupTable annotation,
            transformExpression fuel lookupTable expr with
      | Some annotation', Some expr' => Some (OpDef name qualifier expr' annotation' id)
      | _, _ => None
      end
  end.

Definition transformDefinition (fuel : nat) (lookupTable : LookupTable) (def : QuintDef)
  : option QuintDef :=
  match def with
  | DOp opdef => option_map DOp (transformOpDef fuel lookupTable opdef)
  | DConst name annotation id =>
      option_map (fun annotation' => DConst name annotation' id)
        (transformType fuel lookupTable annotation)
  | DVar name annotation id =>
      option_map (fun annotation' => DVar name annotation' id)
        (transformType fuel lookupTable annotation)
  | DAssume name assumption id =>
      option_map (fun assumption' => DAssume name assumption' id)
        (transformExpression fuel lookupTable assumption)
  | DTypeDef name type id =>
      option_map (fun type' => DTypeDef name type' id) (transformOptType fuel lookupTable type)
  | DImport _ _ _ => Some def
  | DInstance name protoName overrides id =>
      option_map (fun overrides' => DInstance name protoName overrides' id)
        (mapO (fun override =>
                 option_map (fun expr' => (fst override, expr'))
                   (transformExpression fuel lookupTable (snd override)))
              overrides)
  end.

Definition transformModule (fuel : nat) (lookupTable : LookupTable) (quintModule : QuintModule)
  : option QuintModule :=
  option_map (fun defs' => mkModule (module_name quintModule) defs' (module_id quintModule))
    (mapO (transformDefinition fuel lookupTable) (module_defs quintModule)).

(** *** The inliner *)


Definition inlineAliasesInModule (fuel : nat) (quintModule : QuintModule)
  (lookupTable : LookupTable) : option QuintModule :=
  transformModule fuel lookupTable quintModule.

Definition inlineAliasesInType (fuel : nat) (type : QuintType) (lookupTable : LookupTable)
  : option QuintType :=
  transformType fuel lookupTable type.

(** The callback of [[...table.entries()].map] in [inlineTypeAliases]. *)
Definition inlineEntry (fuel : nat) (table : LookupTable) (entry : Z * LookupDef)
  : option (Z * LookupDef) :=
  match typeAnnotation (snd entry) with
  | None => Some entry
  | Some annotation =>
      option_map (fun inlinedType => (fst entry, mkLookupDef (kind (snd entry)) (Some inlinedType)))
        (inlineAliasesInType fuel annotation table)
  end.

Definition inlineTypeAliases (fuel : nat) (modules : list QuintModule) (table : LookupTable)
  : option (list QuintModule * LookupTable) :=
  match mapO (fun m => inlineAliasesInModule fuel m table) modules,
        mapO (inlineEntry fuel table) table with
  | Some modulesWithInlinedAliases, Some entries =>
      Some (modulesWithInlinedAliases, Js.Map_of Z.eqb entries)
  | _, _ => None
  end.

End TypeAliasInliner.

(** ** Import and instantiation resolution ([importResolver.ts]) *)

Module ImportResolver.

Import DefinitionsCollector.

(** The tables the resolver reads and returns, by value. *)
Definition LookupTable : Type := list (string * DefinitionTable).
Definition LookupTableByModule : Type := list (string * LookupTable).

Definition table_get (table : LookupTable) (identifier : string) : option DefinitionTable :=
  Js.Map_get String.eqb table identifier.
Definition tables_get (tables : LookupTableByModule) (name : string) : option LookupTable :=
  Js.Map_get String.eqb tables name.

(** An entry of the error list: the unresolved module, or the unresolved
    definition with the module it was looked up in, and the id of the
    declaration. *)
Record ImportError : Type := mkImportError {
  moduleName : option string;
  defName : option string;
  location : Z
}.

Inductive ImportResolutionResult : Type :=
| ResolutionOk (definitions : LookupTableByModule)
| ResolutionError (errors : list ImportError).

Definition tnt_expr_id (expr : TntEx) : Z :=
  match expr with
  | TntName _ i | TntBool _ i | TntInt _ i | TntStr _ i | TntApp _ _ i
  | TntLambda _ _ _ i | TntLet _ _ i => i
  end.

(** An identifier is exported when all of its definitions are unscoped. *)
Definition unscoped (cell : DefinitionTable) : bool :=
  forallb (fun d => match scope d with None => true | Some _ => false end)
    (valueDefinitions cell).

Definition importable (table : LookupTable) : LookupTable :=
  filter (fun entry => unscoped (snd entry)) table.

Definition renameValue (prefix : string) (d : ValueDefinition) : ValueDefinition :=
  mkValueDefinition (kind d) (prefix ++ "::" ++ identifier d) (reference d) (scope d).

Definition renameType (prefix : string) (d : TypeDefinition) : TypeDefinition :=
  mkTypeDefinition (prefix ++ "::" ++ type_identifier d) (type d) (type_reference d).

Definition namespaced (prefix : string) (table : LookupTable) : LookupTable :=
  map (fun entry =>
         (prefix ++ "::" ++ fst entry,
          mkDefinitionTable (map (renameValue prefix) (valueDefinitions (snd entry)))
                            (map (renameType prefix) (typeDefinitions (snd entry)))))
      table.

(** Last write wins. *)
Definition merge (into from : LookupTable) : LookupTable :=
  fold_left (fun t entry => Js.Map_set String.eqb t (fst entry) (snd entry)) from into.

Definition isModuleEntry (cell : DefinitionTable) : bool :=
  existsb (fun d => String.eqb (kind d) "module") (valueDefinitions cell).

(** Modelled from the spec: [importResolver.ts] is not among the sources, only
    its test. An import looks up the module it names and reports
    [{ moduleName }] when there is none; a wildcard copies every exported
    identifier; a named import reports [{ defName }] (with the module it was
    looked up in) when the name is absent, imports the definitions of a
    nested module under its prefix when the name is a [module] entry, and
    copies the entry as it is otherwise. The test pins the nested case down:
    the nested module's definitions come from its own table, and a [module]
    entry without one is reported by [defName]. *)
Definition resolveImport (tables : LookupTableByModule) (name path : string) (id : Z)
  (importer : LookupTable) : list ImportError * LookupTable :=
  match tables_get tables path with
  | None => ([mkImportError (Some path) None id], importer)
  | Some moduleTable =>
      if String.eqb name "*" then ([], merge importer (importable moduleTable))
      else
        match table_get moduleTable name with
        | None => ([mkImportError (Some path) (Some name) id], importer)
        | Some cell =>
            if isModuleEntry cell then
              match tables_get tables name with
              | None => ([mkImportError (Some path) (Some name) id], importer)
              | Some nested => ([], merge importer (namespaced name (importable nested)))
              end
            else ([], Js.Map_set String.eqb importer name cell)
        end
  end.

(** Modelled from the spec: an instantiation looks up its prototype and
    reports [{ moduleName }] when there is none; an override whose parameter
    is not an identifier of the prototype is reported by [defName]; every
    exported identifier of the prototype is copied under the instance's
    prefix, an overridden one bound to the override expression. *)
Definition overrideErrors (protoName : string) (protoTable : LookupTable) (id : Z)
  (overrides : list (string * TntEx)) : list ImportError :=
  flat_map (fun override =>
              if Js.Map_has String.eqb protoTable (fst override) then []
              else [mkImportError (Some protoName) (Some (fst override)) id])
           overrides.

Definition bindOverride (overrides : list (string * TntEx)) (entry : string * DefinitionTable)
  : string * DefinitionTable :=
  match Js.Map_get String.eqb overrides (fst entry) with
  | None => entry
  | Some expr =>
      (fst entry,
       mkDefinitionTable
         (map (fun d => mkValueDefinition (kind d) (identifier d) (Some (tnt_expr_id expr)) (scope d))
              (valueDefinitions (snd entry)))
         (typeDefinitions (snd entry)))
  end.

Definition resolveInstance (tables : LookupTableByModule) (name protoName : string)
  (overrides : list (string * TntEx)) (id : Z) (importer : LookupTable)
  : list ImportError * LookupTable :=
  match tables_get tables protoName with
  | None => ([mkImportError (Some protoName) None id], importer)
  | Some protoTable =>
      (overrideErrors protoName protoTable id overrides,
       merge importer (namespaced name (map (bindOverride overrides) (importable protoTable))))
  end.

(** One declaration of the importing module. *)
Definition resolveDef (tables : LookupTableByModule) (def : TntDef) (importer : LookupTable)
  : list ImportError * LookupTable :=
  match def with
  | TntImport name path id => resolveImport tables name path id importer
  | TntInstance name protoName overrides id =>
      resolveInstance tables name protoName overrides id importer
  | _ => ([], importer)
  end.

Definition resolveDefs (tables : LookupTableByModule) (defs : list TntDef) (importer : LookupTable)
  : list ImportError * LookupTable :=
  fold_left
    (fun acc def =>
       let (errors, table) := resolveDef tables def (snd acc) in
       ((fst acc ++ errors)%list, table))
    defs ([], importer).

(** Modelled from the spec: the declarations are processed one by one, the
    errors accumulate, and the result is the extended tables when there is
    no error and the error list otherwise. *)
Definition resolveImports (tntModule : TntModule) (tables : LookupTableByModule)
  : ImportResolutionResult :=
  let importer :=
    match tables_get tables (tnt_module_name tntModule) with
    | Some table => table
    | None => []
    end in
  match resolveDefs tables (tnt_module_defs tntModule) importer with
  | ([], table) =>
      ResolutionOk (Js.Map_set String.eqb tables (tnt_module_name tntModule) table)
  | (errors, _) => ResolutionError errors
  end.

End ImportResolver.

(** ** Effect substitutions ([tntc/src/effects/substitutions.ts]) *)

Module Substitutions.

(** The entities of [effects/base.ts], which is not among the sources, with
    the kinds and fields [substitutions.ts] reads: variables are a concrete
    list of names, a quantified name or a union; an effect is a pair of
    variables read and updated, an arrow from effects to an effect, or a
    quantified name. *)
Inductive Variables : Type :=
| VConcrete (vars : list string)
| VQuantified (name : string)
| VUnion (variables : list Variables).

Inductive Effect : Type :=
| EffConcrete (read update : Variables)
| EffArrow (params : list Effect) (result : Effect)
| EffQuantified (name : string).

Inductive Substitution : Type :=
| SubVariable (name : string) (value : Variables)
| SubEffect (name : string) (value : Effect).

Definition Substitutions : Type := list Substitution.

Definition sub_name (s : Substitution) : string :=
  match s with SubVariable n _ | SubEffect n _ => n end.

(** [subs.find(s => s.name === name)]: the first entry of that name, of
    either kind. *)
Definition find_sub (subs : Substitutions) (name : string) : option Substitution :=
  find (fun s => String.eqb (sub_name s) name) subs.

(** *** [applySubstitutionToVariables] *)
Fixpoint applySubstitutionToVariables (subs : Substitutions) (variables : Variables)
  {struct variables} : Variables :=
  match variables with
  | VQuantified name =>
      match find_sub subs name with
      | Some (SubVariable _ value) => value
      | _ => variables
      end
  | VUnion vs => VUnion (map (applySubstitutionToVariables subs) vs)
  | VConcrete _ => variables
  end.

(** [Either] of the library sweet-monads: [inl] is [left], an error, and
    [inr] is [right]. [mergeInMany] gives all the lefts of an array when
    there is one, and all the rights otherwise. *)
Definition mergeInMany {L R : Type} (values : list (L + R)) : list L + list R :=
  fold_left
    (fun res v =>
       match res, v with
       | inl errors, inl e => inl (errors ++ [e])%list
       | inl errors, inr _ => inl errors
       | inr _, inl e => inl [e]
       | inr rights, inr x => inr (rights ++ [x])%list
       end)
    values (inr []).

Section WithSimplification.

(** What [substitutions.ts] imports from modules that are not among the
    sources: the error tree and its builder, which takes one tree or an
    array of them, the printers, and the simplification of a concrete
    effect, which can fail. *)
Variable ErrorTree : Type.
Variable buildErrorTree : string -> ErrorTree + list ErrorTree -> ErrorTree.
Variable effectToString : Effect -> string.
Variable substitutionsToString : Substitutions -> string.
Variable simplifyConcreteEffect : Effect -> ErrorTree + Effect.

(** *** [applySubstitution] *)
Fixpoint applySubstitution (subs : Substitutions) (e : Effect) {struct e}
  : ErrorTree + Effect :=
  let result : ErrorTree + Effect :=
    match e with
    | EffQuantified name =>
        match find_sub subs name with
        | Some (SubEffect _ value) => inr value
        | _ => inr e
        end
    | EffArrow params result =>
        let arrowParams := mergeInMany (map (applySubstitution subs) params) in
        match
          match arrowParams with
          | inl errors => inl (inr errors)
          | inr ps =>
              match applySubstitution subs result with
              | inl error => inl (inl error)
              | inr r => inr (EffArrow ps r)
              end
          end
        with
        | inl error =>
            inl (buildErrorTree
                   ("Applying substitution to arrow effect " ++ effectToString e) error)
        | inr arrow => inr arrow
        end
    | EffConcrete read update =>
        inr (EffConcrete (applySubstitutionToVariables subs read)
                         (applySubstitutionToVariables subs update))
    end in
  match result with
  | inl error => inl error
  | inr e' =>
      match e' with
      | EffConcrete _ _ => simplifyConcreteEffect e'
      | _ => inr e'
      end
  end.

(** *** [applySubstitutionsToSubstitutions] and [compose] *)
Definition applySubstitutionsToSubstitutions (s1 s2 : Substitutions)
  : list ErrorTree + Substitutions :=
  mergeInMany
    (map (fun s =>
            match s with
            | SubEffect name value =>
                match applySubstitution s1 value with
                | inl error => inl error
                | inr v => inr (SubEffect name v)
                end
            | SubVariable name value =>
                inr (SubVariable name (applySubstitutionToVariables s1 value))
            end)
         s2).

Definition compose (s1 s2 : Substitutions) : ErrorTree + Substitutions :=
  match applySubstitutionsToSubstitutions s1 s2 with
  | inr s => inr (s1 ++ s)%list
  | inl error =>
      inl (buildErrorTree
             ("Composing substitutions " ++ substitutionsToString s1 ++ " and "
              ++ substitutionsToString s2)
             (inr error))
  end.

End WithSimplification.

End Substitutions.

(** ** Name collection into one table (an earlier [definitionsCollector.ts]) *)

Module NameCollector.

Import DefinitionsCollector.

(** *** The IR this collector walks

    Modelled from the spec: the IR is that of [DefinitionsCollector], read
    through the fields this collector uses. The body of an operator and of
    an assumption are tested before they are walked, so they may be absent;
    of a nested module the name alone is read, and of an override the
    expression. *)
Inductive Def : Type :=
| DefConst (name : string)
| DefVar (name : string)
| DefOp (name : string) (expr : option TntEx)
| DefInstance (name : string) (overrides : list (string * TntEx))
| DefModule (module : Module)
| DefTypeDef (name : string) (type : TntType)
| DefAssume (name : string) (assumption : option TntEx)
| DefImport
with Module : Type :=
| Mod (name : string) (defs : list Def).

Definition module_name (m : Module) : string := match m with Mod n _ => n end.
Definition module_defs (m : Module) : list Def := match m with Mod _ d => d end.

(** *** Tables *)

Record NameDefinition : Type := mkNameDefinition {
  kind : string;
  identifier : string;
  scope : option Z
}.

Record TypeDefinition : Type := mkTypeDefinition {
  type_identifier : string;
  type : TntType
}.

(** An array object of name definitions. The program has one, the module
    constant [defaultDefinitions]: the table [collectDefinitions] starts from
    holds that array itself, not a copy, and [push] writes into it. The
    content of the array is the state the function works on. *)
Inductive NameArray : Type := defaultDefinitions.

Definition Store : Type := list NameDefinition.

Definition read (store : Store) (array : NameArray) : list NameDefinition :=
  match array with defaultDefinitions => store end.

Record DefinitionTable : Type := mkDefinitionTable {
  nameDefinitions : NameArray;
  typeDefinitions : list TypeDefinition
}.

(** The identifiers [defaultDefinitions] is initialised with. *)
Definition builtinIdentifiers : list string :=
  ["not"; "and"; "or"; "iff"; "implies"; "exists"; "guess"; "forall"; "in";
   "notin"; "union"; "contains"; "fold"; "intersect"; "exclude"; "subseteq";
   "map"; "applyTo"; "filter"; "powerset"; "flatten"; "seqs"; "choose_some";
   "isFinite"; "cardinality"; "get"; "put"; "keys"; "mapOf"; "setOfMaps";
   "update"; "updateAs"; "fields"; "with"; "tuples"; "append"; "concat";
   "head"; "tail"; "length"; "nth"; "indices"; "replaceAt"; "slice"; "select";
   "foldl"; "foldr"; "to"; "always"; "eventually"; "next"; "stutter";
   "nostutter"; "enabled"; "weakFair"; "strongFair"; "guarantees";
   "exists_const"; "forall_const"; "choose_const"; "Bool"; "Int"; "Nat";
   "TRUE"; "FALSE"].

(** The content of [defaultDefinitions] when the program starts. *)
Definition initialStore : Store :=
  map (fun i => mkNameDefinition "def" i None) builtinIdentifiers.

(** *** [collectFromExpr] *)
Fixpoint collectFromExpr (expr : TntEx) : list NameDefinition :=
  match expr with
  | TntLambda params _ body id =>
      (map (fun p => mkNameDefinition "def" p (Some id)) params ++ collectFromExpr body)%list
  | TntApp _ args _ => flat_map collectFromExpr args
  | TntLet (TntOp name qualifier opexpr _) body id =>
      (([mkNameDefinition qualifier name (Some id)] ++ collectFromExpr opexpr)
       ++ collectFromExpr body)%list
  | _ => []
  end.

(** *** [collectDefinitions]

    The callback of [tntModule.defs.reduce]: the accumulator is the content
    of the name array and of the table's own array of type definitions. *)
Definition collectDef (table : Store * list TypeDefinition) (def : Def)
  : Store * list TypeDefinition :=
  let (names, types) := table in
  match def with
  | DefConst name => ((names ++ [mkNameDefinition "const" name None])%list, types)
  | DefVar name => ((names ++ [mkNameDefinition "var" name None])%list, types)
  | DefOp name expr =>
      let names := (names ++ [mkNameDefinition "def" name None])%list in
      match expr with
      | Some e => ((names ++ collectFromExpr e)%list, types)
      | None => (names, types)
      end
  | DefInstance name overrides =>
      let names := (names ++ [mkNameDefinition "namespace" name None])%list in
      ((names ++ flat_map (fun e => collectFromExpr (snd e)) overrides)%list, types)
  | DefModule module =>
      ((names ++ [mkNameDefinition "namespace" (module_name module) None])%list, types)
  | DefTypeDef name type => (names, (types ++ [mkTypeDefinition name type])%list)
  | DefAssume name assumption =>
      let names := (names ++ [mkNameDefinition "assumption" name None])%list in
      match assumption with
      | Some e => ((names ++ collectFromExpr e)%list, types)
      | None => (names, types)
      end
  | DefImport => (names, types)
  end.

(** A call returns its table and leaves the name array with the content the
    table reads. *)
Definition collectDefinitions (tntModule : Module) (store : Store) : DefinitionTable * Store :=
  let (names, types) := fold_left collectDef (module_defs tntModule) (store, []) in
  (mkDefinitionTable defaultDefinitions types, names).

End NameCollector.

(** ** The frames of the evaluation context ([Context.ts]) *)

Module EvaluatorContext.

Section WithValues.

(** [Either<QuintError, RuntimeValue>], what a constant is bound to: the
    values of the evaluator are not among the sources. *)
Variable Value : Type.

(** An Immutable.js [Map<bigint, Value>], read by key; [merge] sets the
    entries of its argument over those of the receiver. *)
Definition Consts : Type := list (Z * Value).

Definition merge (m other : Consts) : Consts :=
  fold_left (fun m kv => Js.Map_set Z.eqb m (fst kv) (snd kv)) other m.

(** The fields of [Context] that the frame methods read and write. A field
    holds [undefined] ([None]) once a history it is restored from was empty:
    the [!] of [pop()!] is not checked. The variable storage, the random
    source, the picks and the recorder are left out: these methods do not
    touch them. *)
Record Context : Type := mkContext {
  consts : option Consts;
  namespaces : option (list string);
  constHistory : list (option Consts);
  namespacesHistory : list (option (list string))
}.

(** [new Context(recorder, rand)] *)
Definition newContext : Context := mkContext (Some []) (Some []) [] [].

(** [Array.prototype.pop]: the last element and the array without it;
    [undefined] and the array as it is when it is empty. *)
Definition pop {A : Type} (array : list A) : option A * list A :=
  match array with
  | [] => (None, [])
  | x :: rest => (Some (last rest x), removelast array)
  end.

(** [history.pop()!]: the element popped, [undefined] when there was none. *)
Definition popped {A : Type} (array : list (option A)) : option A :=
  match fst (pop array) with
  | Some element => element
  | None => None
  end.

(** A call returns, or a read of a property of [undefined] throws a
    [TypeError]; either way the context is left in a state. *)
Inductive Outcome : Type :=
| Returned (ctx : Context)
| TypeError (ctx : Context).

(** *** [addConstants] and [removeConstants] *)
Definition addConstants (ctx : Context) (newConsts : Consts) : Outcome :=
  let pushed := (constHistory ctx ++ [consts ctx])%list in
  match consts ctx with
  | None => TypeError (mkContext (consts ctx) (namespaces ctx) pushed (namespacesHistory ctx))
  | Some current =>
      Returned (mkContext (Some (merge current newConsts)) (namespaces ctx) pushed
                  (namespacesHistory ctx))
  end.

Definition removeConstants (ctx : Context) : Outcome :=
  Returned (mkContext (popped (constHistory ctx)) (namespaces ctx)
              (snd (pop (constHistory ctx))) (namespacesHistory ctx)).

(** *** [addNamespaces] and [removeNamespaces]

    [is(this.namespaces.take(n), namespaces)] compares two lists element by
    element and is false when [namespaces] is [undefined]. *)
Definition is_list (taken : list string) (given : option (list string)) : bool :=
  match given with
  | Some l => if list_eq_dec string_dec taken l then true else false
  | None => false
  end.

Definition addNamespaces (ctx : Context) (given : option (list string)) : Outcome :=
  let pushed := (namespacesHistory ctx ++ [namespaces ctx])%list in
  match namespaces ctx with
  | None => TypeError (mkContext (consts ctx) (namespaces ctx) (constHistory ctx) pushed)
  | Some current =>
      let size := match given with Some l => List.length l | None => O end in
      if is_list (firstn size current) given
      then Returned (mkContext (consts ctx) (Some current) (constHistory ctx) pushed)
      else
        let added := match given with Some l => l | None => [] end in
        Returned (mkContext (consts ctx) (Some (current ++ added)%list) (constHistory ctx) pushed)
  end.

Definition removeNamespaces (ctx : Context) : Outcome :=
  Returned (mkContext (consts ctx) (popped (namespacesHistory ctx))
              (constHistory ctx) (snd (pop (namespacesHistory ctx)))).

(** *** Sequences of calls *)

Inductive Call : Type :=
| AddConstants (newConsts : Consts)
| RemoveConstants
| AddNamespaces (given : option (list string))
| RemoveNamespaces.

Definition call (ctx : Context) (c : Call) : Outcome :=
  match c with
  | AddConstants newConsts => addConstants ctx newConsts
  | RemoveConstants => removeConstants ctx
  | AddNamespaces given => addNamespaces ctx given
  | RemoveNamespaces => removeNamespaces ctx
  end.

(** The calls one after the other; an exception ends the sequence. *)
Fixpoint calls (sequence : list Call) (ctx : Context) : Outcome :=
  match sequence with
  | [] => Returned ctx
  | c :: rest =>
      match call ctx c with
      | Returned ctx' => calls rest ctx'
      | TypeError ctx' => TypeError ctx'
      end
  end.

End WithValues.

Arguments Returned {Value} ctx.
Arguments TypeError {Value} ctx.
Arguments AddConstants {Value} newConsts.
Arguments RemoveConstants {Value}.
Arguments AddNamespaces {Value} given.
Arguments RemoveNamespaces {Value}.

End EvaluatorContext.

(** * Properties of the flattener *)

Module FlatteningFacts.

Import Flattening.

(** ** Vocabulary of the statements *)

(** The references of an expression: every name and every applied operator,
    with the id of its occurrence. *)
Fixpoint references (expr : QuintEx) : list (string * Z) :=
  match expr with
  | EName n i => [(n, i)]
  | EBool _ _ | EInt _ _ | EStr _ _ => []
  | EApp opcode args i => (opcode, i) :: flat_map references args
  | ELambda _ _ body _ => references body
  | ELet opdef body _ => (opdef_references opdef ++ references body)%list
  end
with opdef_references (opdef : QuintOpDef) : list (string * Z) :=
  match opdef with OpDef _ _ expr _ _ => references expr end.

Definition def_references (def : QuintDef) : list (string * Z) :=
  match def with
  | DOp opdef => opdef_references opdef
  | DAssume _ assumption _ => references assumption
  | _ => []
  end.

(** The kind tag of a declaration. *)
Definition def_kind (d : QuintDef) : string :=
  match d with
  | DOp _ => "def"
  | DConst _ _ _ => "const"
  | DVar _ _ _ => "var"
  | DAssume _ _ _ => "assume"
  | DTypeDef _ _ _ => "typedef"
  | DImport _ _ _ => "import"
  | DInstance _ _ _ _ => "instance"
  end.

Definition named (name : string) (acc : list QuintDef) : bool :=
  existsb (fun d => String.eqb (def_name d) name) acc.

(** Induction on expressions through the arguments of an application and
    the operator of a [let]. *)
Section ExprInduction.
Variable P : QuintEx -> Prop.
Variable Q : QuintOpDef -> Prop.
Hypothesis Hname : forall n i, P (EName n i).
Hypothesis Hbool : forall v i, P (EBool v i).
Hypothesis Hint : forall v i, P (EInt v i).
Hypothesis Hstr : forall v i, P (EStr v i).
Hypothesis Happ : forall opcode args i, Forall P args -> P (EApp opcode args i).
Hypothesis Hlambda : forall params q body i, P body -> P (ELambda params q body i).
Hypothesis Hlet : forall opdef body i, Q opdef -> P body -> P (ELet opdef body i).
Hypothesis Hopdef : forall n q expr ann i, P expr -> Q (OpDef n q expr ann i).

Fixpoint expr_induction (e : QuintEx) : P e :=
  match e with
  | EName n i => Hname n i
  | EBool v i => Hbool v i
  | EInt v i => Hint v i
  | EStr v i => Hstr v i
  | EApp opcode args i =>
      Happ opcode args i
        ((fix all (l : list QuintEx) : Forall P l :=
            match l with
            | [] => Forall_nil P
            | a :: rest => Forall_cons a (expr_induction a) (all rest)
            end) args)
  | ELambda params q body i => Hlambda params q body i (expr_induction body)
  | ELet opdef body i => Hlet opdef body i (opdef_induction opdef) (expr_induction body)
  end
with opdef_induction (d : QuintOpDef) : Q d :=
  match d with
  | OpDef n q expr ann i => Hopdef n q expr ann i (expr_induction expr)
  end.
End ExprInduction.

(** ** The monad *)

Lemma bind_ok {A B : Type} (m : M A) (k : A -> M B) g a g' :
  m g = Ok a g' -> bind m k g = k a g'.
Proof. unfold bind. intros ->. reflexivity. Qed.

Lemma bind_throw {A B : Type} (m : M A) (k : A -> M B) g e :
  m g = Throw e -> bind m k g = Throw e.
Proof. unfold bind. intros ->. reflexivity. Qed.

Lemma bind_inv_ok {A B : Type} (m : M A) (k : A -> M B) g b g2 :
  bind m k g = Ok b g2 -> exists a g1, m g = Ok a g1 /\ k a g1 = Ok b g2.
Proof.
  unfold bind. destruct (m g) as [a g1|e]; [|discriminate].
  intros H. exists a, g1. split; [reflexivity|exact H].
Qed.

Lemma bind_inv_throw {A B : Type} (m : M A) (k : A -> M B) g e :
  bind m k g = Throw e ->
  m g = Throw e \/ exists a g1, m g = Ok a g1 /\ k a g1 = Throw e.
Proof.
  unfold bind. destruct (m g) as [a g1|e']; intros H.
  - right. exists a, g1. split; [reflexivity|exact H].
  - left. inversion H. reflexivity.
Qed.

Lemma lift_ok {A : Type} (f : IdGenerator -> A * IdGenerator) g :
  lift f g = Ok (fst (f g)) (snd (f g)).
Proof. unfold lift. destruct (f g). reflexivity. Qed.

Lemma fresh_ok g : fresh g = Ok (g + 1) (g + 1).
Proof. reflexivity. Qed.

(** ** A module without instances *)

Section WithBuiltins.

Variable builtinNames : list string.

Lemma foldM_flattenDef_no_instance ctx modules defs :
  (forall d, In d defs -> is_instance d = false) ->
  forall acc g,
    foldM (flattenDef builtinNames ctx modules) defs acc g = Ok (acc ++ defs)%list g.
Proof.
  induction defs as [|d defs IH]; intros Hno acc g; simpl.
  - rewrite app_nil_r. reflexivity.
  - assert (Hd : is_instance d = false) by (apply Hno; left; reflexivity).
    assert (Hstep : flattenDef builtinNames ctx modules acc d g = Ok (acc ++ [d])%list g).
    { destruct d; try reflexivity. discriminate Hd. }
    rewrite (bind_ok _ _ _ _ _ Hstep).
    rewrite IH by (intros d' Hin; apply Hno; right; exact Hin).
    rewrite <- app_assoc. reflexivity.
Qed.

(** C9. A module that holds no [instance] declaration is returned as it is:
    the same name and id, and the same declarations in the same order, none
    of them touched. *)
Theorem flatten_without_instances_is_identity (module : QuintModule) (table : LookupTable)
  (modules : Modules) :
  (forall d, In d (module_defs module) -> is_instance d = false) ->
  flatten builtinNames module table modules = inr module.
Proof.
  intros Hno. unfold flatten, flattenDefs.
  rewrite foldM_flattenDef_no_instance by exact Hno.
  destruct module; reflexivity.
Qed.

(** ** What a run can throw *)

Definition resolved (ctx : FlatteningContext) (r : string * Z) : Prop :=
  builtin_has builtinNames (fst r) = true \/ table_get (table ctx) (snd r) <> None.

(** The error of a failed lookup names a reference that is not a builtin and
    has no entry in the table. *)
Definition lookup_failure (ctx : FlatteningContext) (refs : list (string * Z)) (e : Error) : Prop :=
  exists id name,
    e = CouldNotFindDef id name /\ In (name, id) refs /\
    builtin_has builtinNames name = false /\ table_get (table ctx) id = None.

Definition expr_outcome {A : Type} (ctx : FlatteningContext) (refs : list (string * Z))
  (r : Result A) : Prop :=
  match r with
  | Ok _ _ => True
  | Throw e => lookup_failure ctx refs e
  end.

Lemma lookup_failure_incl ctx refs refs' e :
  incl refs refs' -> lookup_failure ctx refs e -> lookup_failure ctx refs' e.
Proof.
  intros Hincl (id & name & He & Hin & Hb & Ht).
  exists id, name. repeat split; auto.
Qed.

Lemma shouldAddNamespace_cases ctx name id g :
  (shouldAddNamespace builtinNames ctx name id g = Throw (CouldNotFindDef id name) /\
   builtin_has builtinNames name = false /\ table_get (table ctx) id = None)
  \/ (exists add, shouldAddNamespace builtinNames ctx name id g = Ok add g /\
                  resolved ctx (name, id)).
Proof.
  unfold shouldAddNamespace, resolved. simpl.
  destruct (builtin_has builtinNames name) eqn:Hb.
  - right. exists false. split; [reflexivity|left; reflexivity].
  - destruct (table_get (table ctx) id) as [def|] eqn:Ht.
    + right. destruct (String.eqb (kind def) "param");
        eexists; (split; [reflexivity|right; discriminate]).
    + left. repeat split; reflexivity.
Qed.

Lemma addNamespaceToExpr_outcome ctx name :
  forall expr g,
    expr_outcome ctx (references expr) (addNamespaceToExpr builtinNames ctx name expr g).
Proof.
  apply (expr_induction
           (fun expr => forall g,
                expr_outcome ctx (references expr)
                  (addNamespaceToExpr builtinNames ctx name expr g))
           (fun opdef => forall g,
                expr_outcome ctx (opdef_references opdef)
                  (addNamespaceToOpDef builtinNames ctx name opdef g))).
  - intros n i g. simpl. unfold bind at 1. rewrite fresh_ok.
    destruct (shouldAddNamespace_cases ctx n i (g + 1)) as [(Hs & Hb & Ht)|(add & Hs & _)].
    + rewrite (bind_throw _ _ _ _ Hs). exists i, n. simpl. auto.
    + rewrite (bind_ok _ _ _ _ _ Hs). destruct add; exact I.
  - intros v i g. exact I.
  - intros v i g. exact I.
  - intros v i g. exact I.
  - intros opcode args i IH g. simpl. unfold bind at 1. rewrite fresh_ok.
    destruct (shouldAddNamespace_cases ctx opcode i (g + 1)) as [(Hs & Hb & Ht)|(add & Hs & _)].
    + rewrite (bind_throw _ _ _ _ Hs). exists i, opcode. simpl. auto.
    + rewrite (bind_ok _ _ _ _ _ Hs).
      match goal with
      | |- expr_outcome _ _ (bind ?m _ _) =>
          assert (Hargs : forall g', expr_outcome ctx (flat_map references args) (m g'))
      end.
      { clear Hs. induction IH as [|a rest Ha _ IHrest]; intros g'.
        - exact I.
        - specialize (Ha g'). unfold bind at 1.
          destruct (addNamespaceToExpr builtinNames ctx name a g') as [a' g1|e].
          + specialize (IHrest g1). unfold bind at 1.
            match goal with
            | |- expr_outcome _ _ (match ?r with _ => _ end) => destruct r as [rest' g2|e]
            end.
            * exact I.
            * eapply lookup_failure_incl; [|exact IHrest].
              simpl. apply incl_appr, incl_refl.
          + eapply lookup_failure_incl; [|exact Ha].
            simpl. apply incl_appl, incl_refl. }
      specialize (Hargs (g + 1)). unfold bind at 1.
      match goal with
      | |- expr_outcome _ _ (match ?r with _ => _ end) => destruct r as [args' g2|e]
      end.
      * destruct add; exact I.
      * eapply lookup_failure_incl; [|exact Hargs]. apply incl_tl, incl_refl.
  - intros params q body i IH g. simpl. unfold bind at 1. rewrite fresh_ok.
    unfold bind at 1.
    match goal with
    | |- expr_outcome _ _ (match ?r with _ => _ end) =>
        assert (Hparams : exists ps g1, r = Ok ps g1)
    end.
    { generalize (g + 1). induction params as [|p ps IHps]; intros g0.
      - eexists _, _. reflexivity.
      - simpl. unfold bind at 1. unfold bind at 1. rewrite fresh_ok. unfold ret at 1.
        unfold bind at 1. destruct (IHps (g0 + 1)) as (ps' & g1 & ->).
        eexists _, _. reflexivity. }
    destruct Hparams as (ps & g1 & ->).
    specialize (IH g1). unfold bind at 1.
    destruct (addNamespaceToExpr builtinNames ctx name body g1); [exact I|exact IH].
  - intros opdef body i IHop IHbody g. simpl. unfold bind at 1. rewrite fresh_ok.
    specialize (IHop (g + 1)). unfold bind at 1.
    destruct (addNamespaceToOpDef builtinNames ctx name opdef (g + 1)) as [opdef' g1|e].
    + specialize (IHbody g1). unfold bind at 1.
      destruct (addNamespaceToExpr builtinNames ctx name body g1) as [body' g2|e].
      * exact I.
      * eapply lookup_failure_incl; [|exact IHbody]. apply incl_appr, incl_refl.
    + eapply lookup_failure_incl; [|exact IHop]. apply incl_appl, incl_refl.
  - intros n q expr ann i IH g. simpl. specialize (IH g). unfold bind at 1.
    destruct (addNamespaceToExpr builtinNames ctx name expr g) as [expr' g1|e].
    + exact I.
    + exact IH.
Qed.

(** ** The declarations [flatten] emits *)

(** The definition emitted for an override [param = expr] of instance [N]. *)
Definition override_def (N : string) (o : QuintLambdaParameter * QuintEx) (c : QuintDef) : Prop :=
  exists ann id, c = DOp (OpDef (N ++ "::" ++ param_name (fst o)) "pureval" (snd o) ann id).

(** The copy of a prototype declaration [d] for instance [N]: an import as
    it is, anything else under the name [N::d] with the kind of [d]. *)
Definition copy_of (N : string) (d c : QuintDef) : Prop :=
  if is_import d then c = d
  else def_name c = N ++ "::" ++ def_name d /\ def_kind c = def_kind d.

(** The copies emitted for the declarations of a prototype, given the
    declarations [acc] emitted so far: a declaration whose namespaced name
    is already taken is skipped. *)
Inductive Copies (N : string) : list QuintDef -> list QuintDef -> list QuintDef -> Prop :=
| Copies_nil acc : Copies N acc [] []
| Copies_skip acc d rest out :
    named (N ++ "::" ++ def_name d) acc = true ->
    Copies N acc rest out ->
    Copies N acc (d :: rest) out
| Copies_push acc d c rest out :
    named (N ++ "::" ++ def_name d) acc = false ->
    is_instance d = false ->
    copy_of N d c ->
    Copies N (acc ++ [c]) rest out ->
    Copies N acc (d :: rest) (c :: out).

(** What one declaration of the module turns into. *)
Inductive Expansion (modules : Modules) (acc : list QuintDef) : QuintDef -> list QuintDef -> Prop :=
| Expansion_keep d : is_instance d = false -> Expansion modules acc d [d]
| Expansion_instance N P overrides i protoModule overrideDefs copies :
    modules_get modules P = Some protoModule ->
    Forall2 (override_def N) overrides overrideDefs ->
    Copies N (acc ++ overrideDefs) (module_defs protoModule) copies ->
    Expansion modules acc (DInstance N P overrides i) (overrideDefs ++ copies).

Inductive Flattened (modules : Modules) : list QuintDef -> list QuintDef -> list QuintDef -> Prop :=
| Flattened_nil acc : Flattened modules acc [] []
| Flattened_cons acc d rest block out :
    Expansion modules acc d block ->
    Flattened modules (acc ++ block) rest out ->
    Flattened modules acc (d :: rest) (block ++ out).

(** The situations in which a run aborts. *)
Inductive Abort (ctx : FlatteningContext) (modules : Modules) (defs : list QuintDef) : Error -> Prop :=
| Abort_lookup N P overrides i protoModule d e :
    In (DInstance N P overrides i) defs ->
    modules_get modules P = Some protoModule ->
    In d (module_defs protoModule) ->
    lookup_failure ctx (def_references d) e ->
    Abort ctx modules defs e
| Abort_instance N P overrides i protoModule d :
    In (DInstance N P overrides i) defs ->
    modules_get modules P = Some protoModule ->
    In d (module_defs protoModule) ->
    is_instance d = true ->
    Abort ctx modules defs (InstanceNotFlattened d)
| Abort_prototype N P overrides i :
    In (DInstance N P overrides i) defs ->
    modules_get modules P = None ->
    Abort ctx modules defs (TypeError "defs")
| Abort_override N P overrides i o :
    In (DInstance N P overrides i) defs ->
    In o overrides ->
    table_get (table ctx) (param_id (fst o)) = None ->
    Abort ctx modules defs (TypeError "typeAnnotation").

Lemma is_instance_kind d : is_instance d = true <-> def_kind d = "instance".
Proof. destruct d; simpl; split; intros H; try discriminate; reflexivity. Qed.

Lemma copy_of_not_instance N d c : is_instance d = false -> copy_of N d c -> is_instance c = false.
Proof.
  unfold copy_of. intros Hd Hc. destruct (is_import d).
  - subst c. exact Hd.
  - destruct Hc as [_ Hk]. destruct (is_instance c) eqn:Hi; [|reflexivity].
    apply is_instance_kind in Hi. rewrite Hi in Hk. symmetry in Hk.
    apply is_instance_kind in Hk. congruence.
Qed.

Lemma addNamespaceToOpDef_name ctx name opdef g opdef' g' :
  addNamespaceToOpDef builtinNames ctx name opdef g = Ok opdef' g' ->
  opdef_name opdef' = name ++ "::" ++ opdef_name opdef /\
  isAnnotatedDef (DOp opdef') = isAnnotatedDef (DOp opdef).
Proof.
  destruct opdef as [n q expr ann i]. simpl. unfold bind at 1.
  destruct (addNamespaceToExpr builtinNames ctx name expr g) as [expr' g1|e]; [|discriminate].
  unfold bind at 1. rewrite fresh_ok. unfold ret. intros H. inversion H; subst.
  split; reflexivity.
Qed.

Lemma addNamespaceToOpDef_outcome ctx name opdef g :
  expr_outcome ctx (opdef_references opdef) (addNamespaceToOpDef builtinNames ctx name opdef g).
Proof.
  destruct opdef as [n q expr ann i]. simpl. unfold bind at 1.
  pose proof (addNamespaceToExpr_outcome ctx name expr g) as H.
  destruct (addNamespaceToExpr builtinNames ctx name expr g) as [expr' g1|e]; [exact I|exact H].
Qed.

(** [addNamespaceToDef] returns a copy that keeps the annotation, or throws
    for an instance or a failed lookup. *)
Lemma addNamespaceToDef_cases ctx name def g :
  match addNamespaceToDef builtinNames ctx name def g with
  | Ok c _ => is_instance def = false /\ copy_of name def c /\
              isAnnotatedDef c = isAnnotatedDef def
  | Throw e => (is_instance def = true /\ e = InstanceNotFlattened def)
               \/ lookup_failure ctx (def_references def) e
  end.
Proof.
  destruct def as [opdef|n ann i|n ann i|n assumption i|n ty i|n path i|n P ovs i];
    unfold addNamespaceToDef.
  - unfold bind at 1.
    pose proof (addNamespaceToOpDef_outcome ctx name opdef g) as Hout.
    pose proof (addNamespaceToOpDef_name ctx name opdef g) as Hname.
    destruct (addNamespaceToOpDef builtinNames ctx name opdef g) as [opdef' g1|e].
    + destruct (Hname _ _ eq_refl) as [Hn Ha]. unfold ret.
      split; [reflexivity|]. split; [|exact Ha].
      unfold copy_of. simpl. split; [exact Hn|reflexivity].
    + right. exact Hout.
  - unfold bind at 1. rewrite fresh_ok. unfold ret, copy_of. simpl. auto.
  - unfold bind at 1. rewrite fresh_ok. unfold ret, copy_of. simpl. auto.
  - unfold bind at 1.
    pose proof (addNamespaceToExpr_outcome ctx name assumption g) as Hout.
    destruct (addNamespaceToExpr builtinNames ctx name assumption g) as [a' g1|e].
    + unfold bind at 1. rewrite fresh_ok. unfold ret, copy_of. simpl. auto.
    + right. exact Hout.
  - destruct ty as [t|].
    + unfold bind at 1. unfold bind at 1. rewrite lift_ok. unfold ret at 1.
      unfold bind at 1. rewrite fresh_ok. unfold ret, copy_of. simpl. auto.
    + unfold bind at 1. unfold ret at 1. unfold bind at 1. rewrite fresh_ok.
      unfold ret, copy_of. simpl. auto.
  - unfold ret, copy_of. simpl. auto.
  - unfold throw. left. split; reflexivity.
Qed.

Lemma withTypeAnnotation_name d ty : def_name (withTypeAnnotation d ty) = def_name d.
Proof. destruct d as [[]| | | | | |]; reflexivity. Qed.

Lemma withTypeAnnotation_kind d ty : def_kind (withTypeAnnotation d ty) = def_kind d.
Proof. destruct d as [[]| | | | | |]; reflexivity. Qed.

Lemma annotated_not_import d ann : isAnnotatedDef d = Some ann -> is_import d = false.
Proof. destruct d as [[]| | | | | |]; simpl; intros H; try discriminate; reflexivity. Qed.

(** One turn of [protoModule.defs.forEach]. *)
Lemma pushProtoDef_cases ctx N acc d g :
  match pushProtoDef builtinNames ctx N acc d g with
  | Ok acc' _ =>
      (named (N ++ "::" ++ def_name d) acc = true /\ acc' = acc)
      \/ (named (N ++ "::" ++ def_name d) acc = false /\ is_instance d = false /\
          exists c, acc' = (acc ++ [c])%list /\ copy_of N d c)
  | Throw e => (is_instance d = true /\ e = InstanceNotFlattened d)
               \/ lookup_failure ctx (def_references d) e
  end.
Proof.
  unfold pushProtoDef. fold (named (N ++ "::" ++ def_name d) acc).
  destruct (named (N ++ "::" ++ def_name d) acc) eqn:Hnamed.
  - unfold ret. left. auto.
  - destruct (isAnnotatedDef d) as [ann|] eqn:Hann.
    + unfold bind at 1. rewrite lift_ok. unfold bind at 1.
      pose proof (addNamespaceToDef_cases ctx N d (snd (addNamespaceToType N ann g))) as Hc.
      destruct (addNamespaceToDef builtinNames ctx N d (snd (addNamespaceToType N ann g)))
        as [c g1|e].
      * destruct Hc as (Hi & Hcopy & Hsame). rewrite Hsame, Hann. unfold ret.
        right. split; [reflexivity|]. split; [exact Hi|].
        eexists. split; [reflexivity|].
        unfold copy_of in *. rewrite (annotated_not_import _ _ Hann) in *.
        rewrite withTypeAnnotation_name, withTypeAnnotation_kind. exact Hcopy.
      * exact Hc.
    + unfold bind at 1.
      pose proof (addNamespaceToDef_cases ctx N d g) as Hc.
      destruct (addNamespaceToDef builtinNames ctx N d g) as [c g1|e].
      * destruct Hc as (Hi & Hcopy & _). unfold ret.
        right. split; [reflexivity|]. split; [exact Hi|].
        eexists. split; [reflexivity|exact Hcopy].
      * exact Hc.
Qed.

Lemma foldM_pushProtoDef_cases ctx N defs :
  forall acc g,
    match foldM (pushProtoDef builtinNames ctx N) defs acc g with
    | Ok acc' _ => exists out, acc' = (acc ++ out)%list /\ Copies N acc defs out
    | Throw e =>
        exists d, In d defs /\
                  ((is_instance d = true /\ e = InstanceNotFlattened d)
                   \/ lookup_failure ctx (def_references d) e)
    end.
Proof.
  induction defs as [|d defs IH]; intros acc g; simpl.
  - unfold ret. exists []. split; [symmetry; apply app_nil_r|constructor].
  - unfold bind at 1.
    pose proof (pushProtoDef_cases ctx N acc d g) as Hd.
    destruct (pushProtoDef builtinNames ctx N acc d g) as [acc1 g1|e].
    + specialize (IH acc1 g1).
      destruct (foldM (pushProtoDef builtinNames ctx N) defs acc1 g1) as [acc2 g2|e].
      * destruct IH as (out & -> & Hout).
        destruct Hd as [(Hn & ->)|(Hn & Hi & c & -> & Hc)].
        -- exists out. split; [reflexivity|]. apply Copies_skip; assumption.
        -- exists (c :: out). split; [rewrite <- app_assoc; reflexivity|].
           apply Copies_push; assumption.
      * destruct IH as (d' & Hin & H). exists d'. split; [right; exact Hin|exact H].
    + exists d. split; [left; reflexivity|exact Hd].
Qed.

(** [def.overrides.forEach] *)
Lemma foldM_pushOverride_cases ctx N overrides :
  forall acc g,
    match foldM (pushOverride ctx N) overrides acc g with
    | Ok acc' _ => exists out, acc' = (acc ++ out)%list /\ Forall2 (override_def N) overrides out
    | Throw e =>
        e = TypeError "typeAnnotation" /\
        exists o, In o overrides /\ table_get (table ctx) (param_id (fst o)) = None
    end.
Proof.
  induction overrides as [|o overrides IH]; intros acc g; simpl.
  - unfold ret. exists []. split; [symmetry; apply app_nil_r|constructor].
  - unfold bind at 1.
    assert (Hstep :
             (table_get (table ctx) (param_id (fst o)) = None /\
              pushOverride ctx N acc o g = Throw (TypeError "typeAnnotation"))
             \/ exists c g1, pushOverride ctx N acc o g = Ok (acc ++ [c])%list g1 /\
                             override_def N o c).
    { unfold pushOverride. destruct o as [param expr]. simpl.
      destruct (table_get (table ctx) (param_id param)) as [constDef|].
      - right. destruct (typeAnnotation constDef) as [t|].
        + unfold bind at 1. unfold bind at 1. rewrite lift_ok. unfold ret at 1.
          unfold bind at 1. rewrite fresh_ok. unfold ret.
          eexists _, _. split; [reflexivity|]. eexists _, _. reflexivity.
        + unfold bind at 1. unfold ret at 1. unfold bind at 1. rewrite fresh_ok. unfold ret.
          eexists _, _. split; [reflexivity|]. eexists _, _. reflexivity.
      - left. split; reflexivity. }
    destruct Hstep as [(Hnone & ->)|(c & g1 & -> & Hc)].
    + split; [reflexivity|]. exists o. split; [left; reflexivity|exact Hnone].
    + specialize (IH (acc ++ [c])%list g1).
      destruct (foldM (pushOverride ctx N) overrides (acc ++ [c])%list g1) as [acc2 g2|e].
      * destruct IH as (out & -> & Hout). exists (c :: out).
        split; [rewrite <- app_assoc; reflexivity|constructor; assumption].
      * destruct IH as (-> & o' & Hin & Hnone). split; [reflexivity|].
        exists o'. split; [right; exact Hin|exact Hnone].
Qed.

(** The callback of [module.defs.reduce] and the fold itself. *)
Lemma flattenDef_cases ctx modules acc d g :
  match flattenDef builtinNames ctx modules acc d g with
  | Ok acc' _ => exists block, acc' = (acc ++ block)%list /\ Expansion modules acc d block
  | Throw e => Abort ctx modules [d] e
  end.
Proof.
  destruct d as [opdef|n ann i|n ann i|n a i|n ty i|n path i|N P ovs i];
    try (simpl; unfold ret; eexists; split; [reflexivity|constructor; reflexivity]).
  unfold flattenDef. unfold bind at 1.
  pose proof (foldM_pushOverride_cases ctx N ovs acc g) as Hov.
  destruct (foldM (pushOverride ctx N) ovs acc g) as [acc1 g1|e].
  - destruct Hov as (ovDefs & -> & Hov).
    destruct (modules_get modules P) as [protoModule|] eqn:Hproto.
    + pose proof (foldM_pushProtoDef_cases ctx N (module_defs protoModule)
                    (acc ++ ovDefs)%list g1) as Hcp.
      destruct (foldM (pushProtoDef builtinNames ctx N) (module_defs protoModule)
                  (acc ++ ovDefs)%list g1) as [acc2 g2|e].
      * destruct Hcp as (copies & -> & Hcp). exists (ovDefs ++ copies)%list.
        split; [rewrite app_assoc; reflexivity|].
        eapply Expansion_instance; eassumption.
      * destruct Hcp as (d & Hin & [(Hi & ->)|Hfail]).
        -- eapply Abort_instance; [left; reflexivity|eassumption..].
        -- eapply Abort_lookup; [left; reflexivity|eassumption..].
    + unfold throw. eapply Abort_prototype; [left; reflexivity|exact Hproto].
  - destruct Hov as (-> & o & Hin & Hnone).
    eapply Abort_override; [left; reflexivity|eassumption..].
Qed.

Lemma Abort_incl ctx modules defs defs' e :
  incl defs defs' -> Abort ctx modules defs e -> Abort ctx modules defs' e.
Proof.
  intros Hincl H. destruct H.
  - eapply Abort_lookup; eauto.
  - eapply Abort_instance; eauto.
  - eapply Abort_prototype; eauto.
  - eapply Abort_override; eauto.
Qed.

Lemma foldM_flattenDef_cases ctx modules defs :
  forall acc g,
    match foldM (flattenDef builtinNames ctx modules) defs acc g with
    | Ok acc' _ => exists out, acc' = (acc ++ out)%list /\ Flattened modules acc defs out
    | Throw e => Abort ctx modules defs e
    end.
Proof.
  induction defs as [|d defs IH]; intros acc g; simpl.
  - unfold ret. exists []. split; [symmetry; apply app_nil_r|constructor].
  - unfold bind at 1.
    pose proof (flattenDef_cases ctx modules acc d g) as Hd.
    destruct (flattenDef builtinNames ctx modules acc d g) as [acc1 g1|e].
    + destruct Hd as (block & -> & Hblock).
      specialize (IH (acc ++ block)%list g1).
      destruct (foldM (flattenDef builtinNames ctx modules) defs (acc ++ block)%list g1)
        as [acc2 g2|e].
      * destruct IH as (out & -> & Hout). exists (block ++ out)%list.
        split; [rewrite app_assoc; reflexivity|]. constructor; assumption.
      * eapply Abort_incl; [|exact IH]. apply incl_tl, incl_refl.
    + eapply Abort_incl; [|exact Hd]. intros x [<-|[]]. left. reflexivity.
Qed.

Lemma Copies_no_instance N acc defs out :
  Copies N acc defs out -> forall c, In c out -> is_instance c = false.
Proof.
  induction 1 as [acc|acc d rest out Hn _ IH|acc d c0 rest out Hn Hi Hc _ IH]; intros c Hin.
  - destruct Hin.
  - apply IH. exact Hin.
  - destruct Hin as [<-|Hin]; [eapply copy_of_not_instance; eassumption|apply IH; exact Hin].
Qed.

Lemma Expansion_no_instance modules acc d block :
  Expansion modules acc d block -> forall c, In c block -> is_instance c = false.
Proof.
  intros [d' Hd|N P ovs i pm ovDefs copies Hpm Hov Hcp] c Hin.
  - destruct Hin as [<-|[]]. exact Hd.
  - apply in_app_or in Hin. destruct Hin as [Hin|Hin].
    + clear Hcp. induction Hov as [|o c0 ovs ovDefs (ann & id & ->) _ IH].
      * destruct Hin.
      * destruct Hin as [<-|Hin]; [reflexivity|apply IH; exact Hin].
    + eapply Copies_no_instance; eassumption.
Qed.

Lemma Flattened_no_instance modules acc defs out :
  Flattened modules acc defs out -> forall c, In c out -> is_instance c = false.
Proof.
  induction 1 as [acc|acc d rest block out Hb _ IH]; intros c Hin.
  - destruct Hin.
  - apply in_app_or in Hin. destruct Hin as [Hin|Hin].
    + eapply Expansion_no_instance; eassumption.
    + apply IH. exact Hin.
Qed.





End WithBuiltins.

(** ** Concrete runs *)

(** The builtin names of the runs below. *)
Definition builtins : list string := DefinitionsCollector.builtinIdentifiers.

(** [module M { const a: int  def f = iadd(a, 1) }] with ids 1 to 7, and
    [module Main { module N = M(a = 3) }] with ids 8 to 11. *)
Definition protoM : QuintModule :=
  mkModule "M"
    [DConst "a" (TInt (Some 1)) 2;
     DOp (OpDef "f" "def" (EApp "iadd" [EName "a" 3; EInt 1 4] 5) None 6)]
    7.

Definition mainModule : QuintModule :=
  mkModule "Main" [DInstance "N" "M" [(mkParam 8 "a", EInt 3 9)] 10] 11.

Definition mainModules : Modules := [("M", protoM); ("Main", mainModule)].

Definition mainTable : LookupTable :=
  [(3, mkLookupDef "const" (Some (TInt (Some 1))));
   (8, mkLookupDef "const" (Some (TInt (Some 1))))].

Lemma lastId_undefined (modules : Modules) : lastId modules = None.
Proof. reflexivity. Qed.

(** C1 (the code departs from it). The index [-1] reads [undefined] from
    every array, so the generator starts from its default whatever the
    modules hold. On [Main] and [M], whose ids run from 1 to 11, the
    synthesized nodes get the ids 1 to 6: [N::a] gets the id 2 of the
    constant [a] of [M], its type the id 1, [N::f] the id 6 of [f]. *)
Theorem flatten_mints_ids_of_original_nodes :
  (forall modules, newIdGenerator (lastId modules) = newIdGenerator None) /\
  flatten builtins mainModule mainTable mainModules
  = inr (mkModule "Main"
           [DOp (OpDef "N::a" "pureval" (EInt 3 9) (Some (TInt (Some 1))) 2);
            DOp (OpDef "N::f" "def" (EApp "iadd" [EName "N::a" 4; EInt 1 5] 3) None 6)]
           11) /\
  In (DConst "a" (TInt (Some 1)) 2) (module_defs protoM).
Proof.
  split; [intros modules; rewrite lastId_undefined; reflexivity|].
  split; [vm_compute; reflexivity|left; reflexivity].
Qed.

(** C9, on a module of two declarations. *)
Lemma flatten_without_instances_is_identity_witness :
  (forall d, In d (module_defs protoM) -> is_instance d = false) /\
  flatten builtins protoM mainTable mainModules = inr protoM.
Proof.
  assert (H : forall d, In d (module_defs protoM) -> is_instance d = false).
  { simpl. intros d [<-|[<-|[]]]; reflexivity. }
  split; [exact H|].
  exact (flatten_without_instances_is_identity builtins protoM mainTable mainModules H).
Defined.












(** ** The ids of the synthesized nodes *)

(** The ids [g + 1], ..., [g + n]. *)
Definition consecutive (g : Z) (n : nat) : list Z :=
  map (fun k => g + Z.of_nat k) (seq 1 n).

Lemma consecutive_app g n m :
  consecutive g (n + m) = (consecutive g n ++ consecutive (g + Z.of_nat n) m)%list.
Proof.
  unfold consecutive. rewrite seq_app, map_app. f_equal.
  generalize 1%nat as a. induction m as [|m IH]; intros a; simpl; [reflexivity|].
  f_equal; [lia|]. change (S (a + n))%nat with (S a + n)%nat. apply IH.
Qed.

Lemma consecutive_cons g n : consecutive g (S n) = g + 1 :: consecutive (g + 1) n.
Proof.
  change (S n) with (1 + n)%nat. rewrite consecutive_app. reflexivity.
Qed.

Lemma consecutive_bounds g n i : In i (consecutive g n) -> g < i <= g + Z.of_nat n.
Proof.
  unfold consecutive. intros H. apply in_map_iff in H. destruct H as (k & <- & Hk).
  apply in_seq in Hk. lia.
Qed.

Lemma consecutive_NoDup g n : NoDup (consecutive g n).
Proof.
  revert g. induction n as [|n IH]; intros g; [constructor|].
  rewrite consecutive_cons. constructor; [|apply IH].
  intros H. apply consecutive_bounds in H. lia.
Qed.

Lemma NoDup_map_Some {A : Type} (l : list A) : NoDup l -> NoDup (map Some l).
Proof.
  induction 1 as [|x l Hx _ IH]; simpl; constructor; [|exact IH].
  intros H. apply in_map_iff in H. destruct H as (y & Heq & Hy). inversion Heq; subst.
  contradiction.
Qed.

(** The ids of the nodes of a type that [addNamespaceToType] visits, in
    the order of the visit: a node before its components, the components
    from left to right. The tail of a row is not visited. *)
Fixpoint type_ids (t : QuintType) : list (option Z) :=
  match t with
  | TBool i | TInt i | TStr i | TVar _ i | TConst _ i => [i]
  | TSet elem i | TList elem i => i :: type_ids elem
  | TFun arg res i => i :: type_ids arg ++ type_ids res
  | TOper args res i => i :: flat_map type_ids args ++ type_ids res
  | TTup fields i | TRec fields i => i :: row_ids fields
  | TUnion _ records i => i :: flat_map (fun record => row_ids (snd record)) records
  end
with row_ids (row : Row) : list (option Z) :=
  match row with
  | RowFields fields _ => flat_map (fun field => type_ids (snd field)) fields
  | RowVar _ | RowEmpty => []
  end.

Section TypeInduction.
Variable P : QuintType -> Prop.
Variable Q : Row -> Prop.
Hypothesis Hbool : forall i, P (TBool i).
Hypothesis Hint : forall i, P (TInt i).
Hypothesis Hstr : forall i, P (TStr i).
Hypothesis Hvar : forall n i, P (TVar n i).
Hypothesis Hconst : forall n i, P (TConst n i).
Hypothesis Hset : forall elem i, P elem -> P (TSet elem i).
Hypothesis Hlist : forall elem i, P elem -> P (TList elem i).
Hypothesis Hfun : forall arg res i, P arg -> P res -> P (TFun arg res i).
Hypothesis Hoper : forall args res i, Forall P args -> P res -> P (TOper args res i).
Hypothesis Htup : forall fields i, Q fields -> P (TTup fields i).
Hypothesis Hrec : forall fields i, Q fields -> P (TRec fields i).
Hypothesis Hunion : forall tag records i,
    Forall (fun record => Q (snd record)) records -> P (TUnion tag records i).
Hypothesis Hfields : forall fields other,
    Forall (fun field => P (snd field)) fields -> Q other -> Q (RowFields fields other).
Hypothesis Hrowvar : forall n, Q (RowVar n).
Hypothesis Hrowempty : Q RowEmpty.

Fixpoint type_induction (t : QuintType) : P t :=
  match t with
  | TBool i => Hbool i
  | TInt i => Hint i
  | TStr i => Hstr i
  | TVar n i => Hvar n i
  | TConst n i => Hconst n i
  | TSet elem i => Hset elem i (type_induction elem)
  | TList elem i => Hlist elem i (type_induction elem)
  | TFun arg res i => Hfun arg res i (type_induction arg) (type_induction res)
  | TOper args res i =>
      Hoper args res i
        ((fix all (l : list QuintType) : Forall P l :=
            match l with
            | [] => Forall_nil P
            | a :: rest => Forall_cons a (type_induction a) (all rest)
            end) args)
        (type_induction res)
  | TTup fields i => Htup fields i (row_induction fields)
  | TRec fields i => Hrec fields i (row_induction fields)
  | TUnion tag records i =>
      Hunion tag records i
        ((fix all (l : list (string * Row)) : Forall (fun record => Q (snd record)) l :=
            match l with
            | [] => Forall_nil _
            | (tagValue, fields) :: rest =>
                Forall_cons (tagValue, fields) (row_induction fields) (all rest)
            end) records)
  end
with row_induction (r : Row) : Q r :=
  match r with
  | RowFields fields other =>
      Hfields fields other
        ((fix all (l : list (string * QuintType)) : Forall (fun field => P (snd field)) l :=
            match l with
            | [] => Forall_nil _
            | (fieldName, fieldType) :: rest =>
                Forall_cons (fieldName, fieldType) (type_induction fieldType) (all rest)
            end) fields)
        (row_induction other)
  | RowVar n => Hrowvar n
  | RowEmpty => Hrowempty
  end.
End TypeInduction.

Definition numbered (ids : list (option Z)) (ids' : list (option Z)) (g g' : IdGenerator) : Prop :=
  ids' = map Some (consecutive g (List.length ids)) /\ g' = g + Z.of_nat (List.length ids).

Lemma numbered_nil g : numbered [] [] g g.
Proof. split; [reflexivity|simpl; lia]. Qed.

Lemma numbered_app ids1 ids1' ids2 ids2' g g1 g2 :
  numbered ids1 ids1' g g1 -> numbered ids2 ids2' g1 g2 ->
  numbered (ids1 ++ ids2) (ids1' ++ ids2') g g2.
Proof.
  intros [-> ->] [-> ->]. split.
  - rewrite length_app, consecutive_app, map_app. reflexivity.
  - rewrite length_app. lia.
Qed.

Lemma numbered_cons i ids ids' g g' :
  numbered ids ids' (g + 1) g' -> numbered (i :: ids) (Some (g + 1) :: ids') g g'.
Proof.
  intros H. apply (numbered_app [i] [Some (g + 1)] ids ids' g (g + 1) g'); [|exact H].
  split; [reflexivity|simpl; lia].
Qed.

Lemma addNamespaceToType_numbers name :
  forall t g,
    numbered (type_ids t) (type_ids (fst (addNamespaceToType name t g))) g
             (snd (addNamespaceToType name t g)).
Proof.
  apply (type_induction
           (fun t => forall g,
                numbered (type_ids t) (type_ids (fst (addNamespaceToType name t g))) g
                         (snd (addNamespaceToType name t g)))
           (fun r => forall g,
                numbered (row_ids r) (row_ids (fst (addNamespaceToRow name r g))) g
                         (snd (addNamespaceToRow name r g)))).
  - intros i g. apply numbered_cons, numbered_nil.
  - intros i g. apply numbered_cons, numbered_nil.
  - intros i g. apply numbered_cons, numbered_nil.
  - intros n i g. apply numbered_cons, numbered_nil.
  - intros n i g. apply numbered_cons, numbered_nil.
  - intros elem i IH g. simpl. unfold nextId. specialize (IH (g + 1)).
    destruct (addNamespaceToType name elem (g + 1)) as [elem' g1]. simpl in *.
    apply numbered_cons. exact IH.
  - intros elem i IH g. simpl. unfold nextId. specialize (IH (g + 1)).
    destruct (addNamespaceToType name elem (g + 1)) as [elem' g1]. simpl in *.
    apply numbered_cons. exact IH.
  - intros arg res i IHarg IHres g. simpl. unfold nextId. specialize (IHarg (g + 1)).
    destruct (addNamespaceToType name arg (g + 1)) as [arg' g1]. specialize (IHres g1).
    destruct (addNamespaceToType name res g1) as [res' g2]. simpl in *.
    apply numbered_cons. eapply numbered_app; eassumption.
  - intros args res i IHargs IHres g. simpl. unfold nextId.
    match goal with |- context [?f args (g + 1)] => set (map_args := f) end.
    assert (Hargs : forall g0, numbered (flat_map type_ids args)
                                 (flat_map type_ids (fst (map_args args g0))) g0
                                 (snd (map_args args g0))).
    { induction IHargs as [|a l Ha _ IHl]; intros g0; simpl; [apply numbered_nil|].
      specialize (Ha g0). destruct (addNamespaceToType name a g0) as [a' g1].
      specialize (IHl g1). destruct (map_args l g1) as [rest' g2]. simpl in *.
      eapply numbered_app; eassumption. }
    specialize (Hargs (g + 1)). destruct (map_args args (g + 1)) as [args' g1].
    specialize (IHres g1). destruct (addNamespaceToType name res g1) as [res' g2]. simpl in *.
    apply numbered_cons. eapply numbered_app; eassumption.
  - intros fields i IH g. simpl. unfold nextId. specialize (IH (g + 1)).
    destruct (addNamespaceToRow name fields (g + 1)) as [fields' g1]. simpl in *.
    apply numbered_cons. exact IH.
  - intros fields i IH g. simpl. unfold nextId. specialize (IH (g + 1)).
    destruct (addNamespaceToRow name fields (g + 1)) as [fields' g1]. simpl in *.
    apply numbered_cons. exact IH.
  - intros tag records i IH g. simpl. unfold nextId.
    match goal with |- context [?f records (g + 1)] => set (map_records := f) end.
    assert (Hrecords : forall g0,
               numbered (flat_map (fun record => row_ids (snd record)) records)
                        (flat_map (fun record => row_ids (snd record)) (fst (map_records records g0)))
                        g0 (snd (map_records records g0))).
    { induction IH as [|[tagValue fields] l Ha _ IHl]; intros g0; simpl; [apply numbered_nil|].
      simpl in Ha. specialize (Ha g0). destruct (addNamespaceToRow name fields g0) as [fields' g1].
      specialize (IHl g1). destruct (map_records l g1) as [rest' g2]. simpl in *.
      eapply numbered_app; eassumption. }
    specialize (Hrecords (g + 1)). destruct (map_records records (g + 1)) as [records' g1].
    simpl in *. apply numbered_cons. exact Hrecords.
  - intros fields other IH _ g. simpl.
    match goal with |- context [?f fields g] => set (map_fields := f) end.
    assert (Hfields : forall g0,
               numbered (flat_map (fun field => type_ids (snd field)) fields)
                        (flat_map (fun field => type_ids (snd field)) (fst (map_fields fields g0)))
                        g0 (snd (map_fields fields g0))).
    { induction IH as [|[fieldName fieldType] l Ha _ IHl]; intros g0; simpl; [apply numbered_nil|].
      simpl in Ha. specialize (Ha g0).
      destruct (addNamespaceToType name fieldType g0) as [fieldType' g1].
      specialize (IHl g1). destruct (map_fields l g1) as [rest' g2]. simpl in *.
      eapply numbered_app; eassumption. }
    specialize (Hfields g). destruct (map_fields fields g) as [fields' g1]. simpl in *.
    exact Hfields.
  - intros n g. apply numbered_nil.
  - intros g. apply numbered_nil.
Qed.

(** [addNamespaceToType] gives the nodes it visits the ids that follow the
    state [g] of the generator, one by one in the order of the visit, and
    leaves the generator at the last of them: the new ids are above [g] and
    pairwise distinct, whatever ids the type had. *)
Theorem addNamespaceToType_mints_consecutive_ids (name : string) (t : QuintType)
  (g : IdGenerator) :
  type_ids (fst (addNamespaceToType name t g))
  = map Some (consecutive g (List.length (type_ids t))) /\
  snd (addNamespaceToType name t g) = g + Z.of_nat (List.length (type_ids t)) /\
  NoDup (type_ids (fst (addNamespaceToType name t g))).
Proof.
  destruct (addNamespaceToType_numbers name t g) as [Hids Hg].
  split; [exact Hids|]. split; [exact Hg|].
  rewrite Hids. apply NoDup_map_Some, consecutive_NoDup.
Qed.
(** The ids of the nodes of an expression, in the order in which
    [addNamespaceToExpr] draws them: a node before its parameters and
    components, an operator after its body. The type annotation of an
    operator bound by [let] is not visited. *)
Fixpoint expr_ids (e : QuintEx) : list Z :=
  match e with
  | EName _ i | EBool _ i | EInt _ i | EStr _ i => [i]
  | EApp _ args i => i :: flat_map expr_ids args
  | ELambda params _ body i => i :: map param_id params ++ expr_ids body
  | ELet opdef body i => i :: opdef_ids opdef ++ expr_ids body
  end
with opdef_ids (d : QuintOpDef) : list Z :=
  match d with OpDef _ _ expr _ i => (expr_ids expr ++ [i])%list end.

Definition renumbered (ids ids' : list Z) (g g' : IdGenerator) : Prop :=
  ids' = consecutive g (List.length ids) /\ g' = g + Z.of_nat (List.length ids).

Lemma renumbered_nil g : renumbered [] [] g g.
Proof. split; [reflexivity|simpl; lia]. Qed.

Lemma renumbered_app ids1 ids1' ids2 ids2' g g1 g2 :
  renumbered ids1 ids1' g g1 -> renumbered ids2 ids2' g1 g2 ->
  renumbered (ids1 ++ ids2) (ids1' ++ ids2') g g2.
Proof.
  intros [-> ->] [-> ->]. split.
  - rewrite length_app, consecutive_app. reflexivity.
  - rewrite length_app. lia.
Qed.

Lemma renumbered_one i g : renumbered [i] [g + 1] g (g + 1).
Proof. split; [reflexivity|simpl; lia]. Qed.

Lemma renumbered_cons i ids ids' g g' :
  renumbered ids ids' (g + 1) g' -> renumbered (i :: ids) (g + 1 :: ids') g g'.
Proof.
  intros H. apply (renumbered_app [i] [g + 1] ids ids' g (g + 1) g'); [|exact H].
  apply renumbered_one.
Qed.

Lemma mapM_params_renumbered params :
  forall g params' g',
    mapM (fun param => pid <- fresh ;; ret (mkParam pid (param_name param))) params g
    = Ok params' g' ->
    renumbered (map param_id params) (map param_id params') g g'.
Proof.
  induction params as [|p params IH]; intros g params' g' H; simpl in H.
  - inversion H; subst. apply renumbered_nil.
  - apply bind_inv_ok in H. destruct H as (p' & g1 & Hp & H).
    apply bind_inv_ok in Hp. destruct Hp as (pid & g0 & Hfresh & Hp).
    rewrite fresh_ok in Hfresh. inversion Hfresh; subst. inversion Hp; subst.
    apply bind_inv_ok in H. destruct H as (rest & g2 & Hrest & H). inversion H; subst.
    simpl. apply renumbered_cons. apply IH. exact Hrest.
Qed.

Section FreshIds.

Variable builtinNames : list string.

Lemma shouldAddNamespace_state ctx name id g add g' :
  shouldAddNamespace builtinNames ctx name id g = Ok add g' -> g' = g.
Proof.
  destruct (shouldAddNamespace_cases builtinNames ctx name id g)
    as [(Hthrow & _)|(add' & Hok & _)]; [congruence|].
  rewrite Hok. intros H. inversion H. reflexivity.
Qed.

Lemma addNamespaceToExpr_renumbers ctx name :
  forall expr g expr' g',
    addNamespaceToExpr builtinNames ctx name expr g = Ok expr' g' ->
    renumbered (expr_ids expr) (expr_ids expr') g g'.
Proof.
  apply (expr_induction
           (fun expr => forall g expr' g',
                addNamespaceToExpr builtinNames ctx name expr g = Ok expr' g' ->
                renumbered (expr_ids expr) (expr_ids expr') g g')
           (fun opdef => forall g opdef' g',
                addNamespaceToOpDef builtinNames ctx name opdef g = Ok opdef' g' ->
                renumbered (opdef_ids opdef) (opdef_ids opdef') g g')).
  - intros n i g e' g' H. simpl in H.
    apply bind_inv_ok in H. destruct H as (id & g1 & Hfresh & H).
    rewrite fresh_ok in Hfresh. inversion Hfresh; subst.
    apply bind_inv_ok in H. destruct H as (add & g2 & Hs & H).
    apply shouldAddNamespace_state in Hs. subst g2.
    destruct add; inversion H; subst; apply renumbered_one.
  - intros v i g e' g' H. simpl in H.
    apply bind_inv_ok in H. destruct H as (id & g1 & Hfresh & H).
    rewrite fresh_ok in Hfresh. inversion Hfresh; subst. inversion H; subst.
    apply renumbered_one.
  - intros v i g e' g' H. simpl in H.
    apply bind_inv_ok in H. destruct H as (id & g1 & Hfresh & H).
    rewrite fresh_ok in Hfresh. inversion Hfresh; subst. inversion H; subst.
    apply renumbered_one.
  - intros v i g e' g' H. simpl in H.
    apply bind_inv_ok in H. destruct H as (id & g1 & Hfresh & H).
    rewrite fresh_ok in Hfresh. inversion Hfresh; subst. inversion H; subst.
    apply renumbered_one.
  - intros opcode args i IH g e' g' H. simpl in H.
    apply bind_inv_ok in H. destruct H as (id & g1 & Hfresh & H).
    rewrite fresh_ok in Hfresh. inversion Hfresh; subst.
    apply bind_inv_ok in H. destruct H as (add & g2 & Hs & H).
    apply shouldAddNamespace_state in Hs. subst g2.
    apply bind_inv_ok in H. destruct H as (args' & g3 & Hargs & H).
    assert (Hren : renumbered (flat_map expr_ids args) (flat_map expr_ids args') (g + 1) g3).
    { clear H. revert Hargs. generalize (g + 1). revert args' g3.
      induction IH as [|a l Ha _ IHl]; intros args' g3 g0 Hargs.
      - inversion Hargs; subst. apply renumbered_nil.
      - apply bind_inv_ok in Hargs. destruct Hargs as (a' & g1 & Ha' & Hargs).
        apply bind_inv_ok in Hargs. destruct Hargs as (rest' & g2 & Hrest & Hargs).
        inversion Hargs; subst. simpl.
        eapply renumbered_app; [apply Ha; exact Ha'|apply IHl; exact Hrest]. }
    destruct add; inversion H; subst; simpl; apply renumbered_cons; exact Hren.
  - intros params q body i IH g e' g' H. simpl in H.
    apply bind_inv_ok in H. destruct H as (id & g1 & Hfresh & H).
    rewrite fresh_ok in Hfresh. inversion Hfresh; subst.
    apply bind_inv_ok in H. destruct H as (params' & g2 & Hparams & H).
    apply bind_inv_ok in H. destruct H as (body' & g3 & Hbody & H).
    inversion H; subst. simpl. apply renumbered_cons.
    eapply renumbered_app; [apply mapM_params_renumbered; exact Hparams|apply IH; exact Hbody].
  - intros opdef body i IHop IHbody g e' g' H. simpl in H.
    apply bind_inv_ok in H. destruct H as (id & g1 & Hfresh & H).
    rewrite fresh_ok in Hfresh. inversion Hfresh; subst.
    apply bind_inv_ok in H. destruct H as (opdef' & g2 & Hopdef & H).
    apply bind_inv_ok in H. destruct H as (body' & g3 & Hbody & H).
    inversion H; subst. simpl. apply renumbered_cons.
    eapply renumbered_app; [apply IHop; exact Hopdef|apply IHbody; exact Hbody].
  - intros n q expr ann i IH g opdef' g' H. simpl in H.
    apply bind_inv_ok in H. destruct H as (expr' & g1 & Hexpr & H).
    apply bind_inv_ok in H. destruct H as (id & g2 & Hfresh & H).
    rewrite fresh_ok in Hfresh. inversion Hfresh; subst. inversion H; subst. simpl.
    eapply renumbered_app; [apply IH; exact Hexpr|apply renumbered_one].
Qed.

(** When [addNamespaceToExpr] returns, the nodes of the expression it built
    (the expressions, the parameters of the lambdas and the operators bound
    by [let]) carry the ids that follow the state [g] of the generator, one
    by one in the order they were drawn, and the generator is left at the
    last of them: the ids of the copy are above [g] and pairwise distinct. *)
Theorem addNamespaceToExpr_mints_consecutive_ids (ctx : FlatteningContext) (name : string)
  (expr expr' : QuintEx) (g g' : IdGenerator) :
  addNamespaceToExpr builtinNames ctx name expr g = Ok expr' g' ->
  expr_ids expr' = consecutive g (List.length (expr_ids expr)) /\
  g' = g + Z.of_nat (List.length (expr_ids expr)) /\
  NoDup (expr_ids expr') /\
  (forall i, In i (expr_ids expr') -> g < i <= g').
Proof.
  intros H. destruct (addNamespaceToExpr_renumbers ctx name expr g expr' g' H) as [Hids Hg].
  split; [exact Hids|]. split; [exact Hg|]. split.
  - rewrite Hids. apply consecutive_NoDup.
  - intros i Hi. rewrite Hids in Hi. apply consecutive_bounds in Hi. lia.
Qed.

End FreshIds.
(** ** What the copy of an expression keeps *)

(** The type annotations of the operators an expression binds by [let],
    from left to right. *)
Fixpoint local_annotations (e : QuintEx) : list (option QuintType) :=
  match e with
  | EName _ _ | EBool _ _ | EInt _ _ | EStr _ _ => []
  | EApp _ args _ => flat_map local_annotations args
  | ELambda _ _ body _ => local_annotations body
  | ELet opdef body _ => (opdef_annotations opdef ++ local_annotations body)%list
  end
with opdef_annotations (d : QuintOpDef) : list (option QuintType) :=
  match d with OpDef _ _ expr ann _ => ann :: local_annotations expr end.

(** The names of the parameters of the lambdas of an expression. *)
Fixpoint parameter_names (e : QuintEx) : list string :=
  match e with
  | EName _ _ | EBool _ _ | EInt _ _ | EStr _ _ => []
  | EApp _ args _ => flat_map parameter_names args
  | ELambda params _ body _ => (map param_name params ++ parameter_names body)%list
  | ELet opdef body _ => (opdef_parameter_names opdef ++ parameter_names body)%list
  end
with opdef_parameter_names (d : QuintOpDef) : list string :=
  match d with OpDef _ _ expr _ _ => parameter_names expr end.

Lemma mapM_params_names params :
  forall g params' g',
    mapM (fun param => pid <- fresh ;; ret (mkParam pid (param_name param))) params g
    = Ok params' g' ->
    map param_name params' = map param_name params.
Proof.
  induction params as [|p params IH]; intros g params' g' H; simpl in H.
  - inversion H; subst. reflexivity.
  - apply bind_inv_ok in H. destruct H as (p' & g1 & Hp & H).
    apply bind_inv_ok in Hp. destruct Hp as (pid & g0 & Hfresh & Hp).
    inversion Hp; subst.
    apply bind_inv_ok in H. destruct H as (rest & g2 & Hrest & H). inversion H; subst.
    simpl. f_equal. eapply IH. exact Hrest.
Qed.

Section Kept.

Variable builtinNames : list string.

(** The copy of an expression keeps the type annotations of the operators
    it binds by [let] as they are, with the names and the ids they had:
    [addNamespaceToType] is not applied to them. The names of the parameters
    of its lambdas are kept as well. *)
Theorem addNamespaceToExpr_keeps_local_annotations (ctx : FlatteningContext) (name : string) :
  forall expr g expr' g',
    addNamespaceToExpr builtinNames ctx name expr g = Ok expr' g' ->
    local_annotations expr' = local_annotations expr /\
    parameter_names expr' = parameter_names expr.
Proof.
  apply (expr_induction
           (fun expr => forall g expr' g',
                addNamespaceToExpr builtinNames ctx name expr g = Ok expr' g' ->
                local_annotations expr' = local_annotations expr /\
                parameter_names expr' = parameter_names expr)
           (fun opdef => forall g opdef' g',
                addNamespaceToOpDef builtinNames ctx name opdef g = Ok opdef' g' ->
                opdef_annotations opdef' = opdef_annotations opdef /\
                opdef_parameter_names opdef' = opdef_parameter_names opdef)).
  - intros n i g e' g' H. simpl in H.
    apply bind_inv_ok in H. destruct H as (id & g1 & _ & H).
    apply bind_inv_ok in H. destruct H as (add & g2 & _ & H).
    destruct add; inversion H; subst; split; reflexivity.
  - intros v i g e' g' H. simpl in H.
    apply bind_inv_ok in H. destruct H as (id & g1 & _ & H). inversion H; subst.
    split; reflexivity.
  - intros v i g e' g' H. simpl in H.
    apply bind_inv_ok in H. destruct H as (id & g1 & _ & H). inversion H; subst.
    split; reflexivity.
  - intros v i g e' g' H. simpl in H.
    apply bind_inv_ok in H. destruct H as (id & g1 & _ & H). inversion H; subst.
    split; reflexivity.
  - intros opcode args i IH g e' g' H. simpl in H.
    apply bind_inv_ok in H. destruct H as (id & g1 & _ & H).
    apply bind_inv_ok in H. destruct H as (add & g2 & _ & H).
    apply bind_inv_ok in H. destruct H as (args' & g3 & Hargs & H).
    assert (Hkept : flat_map local_annotations args' = flat_map local_annotations args /\
                    flat_map parameter_names args' = flat_map parameter_names args).
    { clear H. revert Hargs. generalize g2. revert args' g3.
      induction IH as [|a l Ha _ IHl]; intros args' g3 g0 Hargs.
      - inversion Hargs; subst. split; reflexivity.
      - apply bind_inv_ok in Hargs. destruct Hargs as (a' & g4 & Ha' & Hargs).
        apply bind_inv_ok in Hargs. destruct Hargs as (rest' & g5 & Hrest & Hargs).
        inversion Hargs; subst. simpl.
        destruct (Ha _ _ _ Ha') as [-> ->]. destruct (IHl _ _ _ Hrest) as [-> ->].
        split; reflexivity. }
    destruct add; inversion H; subst; simpl; exact Hkept.
  - intros params q body i IH g e' g' H. simpl in H.
    apply bind_inv_ok in H. destruct H as (id & g1 & _ & H).
    apply bind_inv_ok in H. destruct H as (params' & g2 & Hparams & H).
    apply bind_inv_ok in H. destruct H as (body' & g3 & Hbody & H).
    inversion H; subst. simpl. destruct (IH _ _ _ Hbody) as [-> ->].
    rewrite (mapM_params_names _ _ _ _ Hparams). split; reflexivity.
  - intros opdef body i IHop IHbody g e' g' H. simpl in H.
    apply bind_inv_ok in H. destruct H as (id & g1 & _ & H).
    apply bind_inv_ok in H. destruct H as (opdef' & g2 & Hopdef & H).
    apply bind_inv_ok in H. destruct H as (body' & g3 & Hbody & H).
    inversion H; subst. destruct (IHop _ _ _ Hopdef) as [Hann Hnames].
    destruct (IHbody _ _ _ Hbody) as [Hann' Hnames'].
    simpl. rewrite Hann, Hann', Hnames, Hnames'. split; reflexivity.
  - intros n q expr ann i IH g opdef' g' H. simpl in H.
    apply bind_inv_ok in H. destruct H as (expr' & g1 & Hexpr & H).
    apply bind_inv_ok in H. destruct H as (id & g2 & _ & H).
    inversion H; subst. simpl. destruct (IH _ _ _ Hexpr) as [-> ->]. split; reflexivity.
Qed.

(** ** The references of a copy *)

(** The name [shouldAddNamespace] decides on for a reference: the name as it
    is for a builtin and for a parameter, the name under the prefix
    otherwise. *)
Definition renamed (ctx : FlatteningContext) (name : string) (r : string * Z) : string :=
  if builtin_has builtinNames (fst r) then fst r
  else
    match table_get (table ctx) (snd r) with
    | Some def => if String.eqb (kind def) "param" then fst r else name ++ "::" ++ fst r
    | None => fst r
    end.

Lemma shouldAddNamespace_renamed ctx name n i g add g' :
  shouldAddNamespace builtinNames ctx n i g = Ok add g' ->
  (if add then name ++ "::" ++ n else n) = renamed ctx name (n, i).
Proof.
  unfold shouldAddNamespace, renamed. simpl.
  destruct (builtin_has builtinNames n); [intros H; inversion H; reflexivity|].
  destruct (table_get (table ctx) i) as [def|]; [|discriminate].
  destruct (String.eqb (kind def) "param"); intros H; inversion H; reflexivity.
Qed.

(** The copy of an expression has the references of the expression, in
    their order, each under the name [shouldAddNamespace] decides on: a
    builtin and a reference to a parameter keep their name, every other
    reference is put under the prefix of the instance. *)
Theorem addNamespaceToExpr_prefixes_references (ctx : FlatteningContext) (name : string) :
  forall expr g expr' g',
    addNamespaceToExpr builtinNames ctx name expr g = Ok expr' g' ->
    map fst (references expr') = map (renamed ctx name) (references expr).
Proof.
  apply (expr_induction
           (fun expr => forall g expr' g',
                addNamespaceToExpr builtinNames ctx name expr g = Ok expr' g' ->
                map fst (references expr') = map (renamed ctx name) (references expr))
           (fun opdef => forall g opdef' g',
                addNamespaceToOpDef builtinNames ctx name opdef g = Ok opdef' g' ->
                map fst (opdef_references opdef')
                = map (renamed ctx name) (opdef_references opdef))).
  - intros n i g e' g' H. simpl in H.
    apply bind_inv_ok in H. destruct H as (id & g1 & _ & H).
    apply bind_inv_ok in H. destruct H as (add & g2 & Hs & H).
    apply (shouldAddNamespace_renamed ctx name) in Hs.
    destruct add; inversion H; subst; simpl; rewrite <- Hs; reflexivity.
  - intros v i g e' g' H. simpl in H.
    apply bind_inv_ok in H. destruct H as (id & g1 & _ & H). inversion H; subst. reflexivity.
  - intros v i g e' g' H. simpl in H.
    apply bind_inv_ok in H. destruct H as (id & g1 & _ & H). inversion H; subst. reflexivity.
  - intros v i g e' g' H. simpl in H.
    apply bind_inv_ok in H. destruct H as (id & g1 & _ & H). inversion H; subst. reflexivity.
  - intros opcode args i IH g e' g' H. simpl in H.
    apply bind_inv_ok in H. destruct H as (id & g1 & _ & H).
    apply bind_inv_ok in H. destruct H as (add & g2 & Hs & H).
    apply (shouldAddNamespace_renamed ctx name) in Hs.
    apply bind_inv_ok in H. destruct H as (args' & g3 & Hargs & H).
    assert (Hrefs : map fst (flat_map references args')
                    = map (renamed ctx name) (flat_map references args)).
    { clear H. revert Hargs. generalize g2. revert args' g3.
      induction IH as [|a l Ha _ IHl]; intros args' g3 g0 Hargs.
      - inversion Hargs; subst. reflexivity.
      - apply bind_inv_ok in Hargs. destruct Hargs as (a' & g4 & Ha' & Hargs).
        apply bind_inv_ok in Hargs. destruct Hargs as (rest' & g5 & Hrest & Hargs).
        inversion Hargs; subst. simpl. rewrite !map_app.
        rewrite (Ha _ _ _ Ha'), (IHl _ _ _ Hrest). reflexivity. }
    destruct add; inversion H; subst; simpl; rewrite <- Hs, Hrefs; reflexivity.
  - intros params q body i IH g e' g' H. simpl in H.
    apply bind_inv_ok in H. destruct H as (id & g1 & _ & H).
    apply bind_inv_ok in H. destruct H as (params' & g2 & _ & H).
    apply bind_inv_ok in H. destruct H as (body' & g3 & Hbody & H).
    inversion H; subst. simpl. eapply IH. exact Hbody.
  - intros opdef body i IHop IHbody g e' g' H. simpl in H.
    apply bind_inv_ok in H. destruct H as (id & g1 & _ & H).
    apply bind_inv_ok in H. destruct H as (opdef' & g2 & Hopdef & H).
    apply bind_inv_ok in H. destruct H as (body' & g3 & Hbody & H).
    inversion H; subst. simpl. rewrite !map_app.
    rewrite (IHop _ _ _ Hopdef), (IHbody _ _ _ Hbody). reflexivity.
  - intros n q expr ann i IH g opdef' g' H. simpl in H.
    apply bind_inv_ok in H. destruct H as (expr' & g1 & Hexpr & H).
    apply bind_inv_ok in H. destruct H as (id & g2 & _ & H).
    inversion H; subst. simpl. eapply IH. exact Hexpr.
Qed.

(** ** Flattening twice *)

(** A module that [flatten] returns holds no instance, so a second run of
    [flatten] returns it as it is, whatever table and modules it is given:
    with the first run, every instance is gone. *)
Theorem flatten_is_idempotent (module flattened : QuintModule) (table : LookupTable)
  (modules : Modules) :
  flatten builtinNames module table modules = inr flattened ->
  (forall d, In d (module_defs flattened) -> is_instance d = false) /\
  forall table' modules', flatten builtinNames flattened table' modules' = inr flattened.
Proof.
  unfold flatten at 1. unfold flattenDefs.
  pose proof (foldM_flattenDef_cases builtinNames (mkContext table) modules (module_defs module) []
                (newIdGenerator (lastId modules))) as H.
  destruct (foldM (flattenDef builtinNames (mkContext table) modules) (module_defs module) []
              (newIdGenerator (lastId modules))) as [newDefs g|e]; [|discriminate].
  destruct H as (out & -> & Hflat). intros Heq. inversion Heq; subst flattened. clear Heq.
  assert (Hno : forall d, In d out -> is_instance d = false)
    by (eapply Flattened_no_instance; exact Hflat).
  split; [exact Hno|].
  intros table' modules'. unfold flatten, flattenDefs. simpl.
  rewrite (foldM_flattenDef_no_instance builtinNames) by exact Hno. reflexivity.
Qed.

End Kept.
(** ** A copy with a local operator *)

(** [val h: T = x => iadd(x, a) { h(1) }] with ids 21 to 30, where [a] is a
    constant of the prototype. *)
Definition localExpr : QuintEx :=
  ELet (OpDef "h" "def"
          (ELambda [mkParam 21 "x"] "def" (EApp "iadd" [EName "x" 22; EName "a" 23] 24) 25)
          (Some (TConst "T" (Some 26))) 27)
       (EApp "h" [EInt 1 28] 29) 30.

Definition localTable : LookupTable :=
  [(22, mkLookupDef "param" None); (23, mkLookupDef "const" (Some (TInt (Some 1))));
   (29, mkLookupDef "def" None)].

Definition localCopy : QuintEx :=
  ELet (OpDef "N::h" "def"
          (ELambda [mkParam 103 "x"] "def"
             (EApp "iadd" [EName "x" 105; EName "N::a" 106] 104) 102)
          (Some (TConst "T" (Some 26))) 107)
       (EApp "N::h" [EInt 1 109] 108) 101.

Lemma addNamespaceToExpr_mints_consecutive_ids_witness :
  addNamespaceToExpr builtins (mkContext localTable) "N" localExpr 100 = Ok localCopy 109 /\
  expr_ids localCopy = consecutive 100 (List.length (expr_ids localExpr)) /\
  109 = 100 + Z.of_nat (List.length (expr_ids localExpr)) /\
  NoDup (expr_ids localCopy) /\
  (forall i, In i (expr_ids localCopy) -> 100 < i <= 109).
Proof.
  split; [reflexivity|].
  exact (addNamespaceToExpr_mints_consecutive_ids builtins (mkContext localTable) "N"
           localExpr localCopy 100 109 eq_refl).
Defined.

Lemma addNamespaceToExpr_keeps_local_annotations_witness :
  addNamespaceToExpr builtins (mkContext localTable) "N" localExpr 100 = Ok localCopy 109 /\
  local_annotations localCopy = local_annotations localExpr /\
  parameter_names localCopy = parameter_names localExpr.
Proof.
  split; [reflexivity|].
  exact (addNamespaceToExpr_keeps_local_annotations builtins (mkContext localTable) "N"
           localExpr 100 localCopy 109 eq_refl).
Defined.

(** [Main] flattened. *)
Definition flattenedMain : QuintModule :=
  mkModule "Main"
    [DOp (OpDef "N::a" "pureval" (EInt 3 9) (Some (TInt (Some 1))) 2);
     DOp (OpDef "N::f" "def" (EApp "iadd" [EName "N::a" 4; EInt 1 5] 3) None 6)]
    11.

Lemma flatten_is_idempotent_witness :
  flatten builtins mainModule mainTable mainModules = inr flattenedMain /\
  (forall d, In d (module_defs flattenedMain) -> is_instance d = false) /\
  forall table' modules', flatten builtins flattenedMain table' modules' = inr flattenedMain.
Proof.
  split; [vm_compute; reflexivity|].
  apply (flatten_is_idempotent builtins mainModule flattenedMain mainTable mainModules).
  vm_compute. reflexivity.
Defined.
Lemma addNamespaceToExpr_prefixes_references_witness :
  addNamespaceToExpr builtins (mkContext localTable) "N" localExpr 100 = Ok localCopy 109 /\
  map fst (references localCopy) = ["iadd"; "x"; "N::a"; "N::h"] /\
  map fst (references localCopy)
  = map (renamed builtins (mkContext localTable) "N") (references localExpr).
Proof.
  split; [reflexivity|]. split; [reflexivity|].
  exact (addNamespaceToExpr_prefixes_references builtins (mkContext localTable) "N"
           localExpr 100 localCopy 109 eq_refl).
Defined.

(** ** The names of the copy of a type *)

(** A type without its ids, as far as [addNamespaceToType] visits it: the
    tail of a row is kept with its ids. *)
Fixpoint without_ids (t : QuintType) : QuintType :=
  match t with
  | TBool _ => TBool None
  | TInt _ => TInt None
  | TStr _ => TStr None
  | TVar n _ => TVar n None
  | TConst n _ => TConst n None
  | TSet elem _ => TSet (without_ids elem) None
  | TList elem _ => TList (without_ids elem) None
  | TFun arg res _ => TFun (without_ids arg) (without_ids res) None
  | TOper args res _ => TOper (map without_ids args) (without_ids res) None
  | TTup fields _ => TTup (row_without_ids fields) None
  | TRec fields _ => TRec (row_without_ids fields) None
  | TUnion tag records _ =>
      TUnion tag (map (fun record => (fst record, row_without_ids (snd record))) records) None
  end
with row_without_ids (row : Row) : Row :=
  match row with
  | RowFields fields other =>
      RowFields (map (fun field => (fst field, without_ids (snd field))) fields) other
  | RowVar _ | RowEmpty => row
  end.

(** A type with every [const] name that [addNamespaceToType] visits put
    under a prefix. *)
Fixpoint prefixed (name : string) (t : QuintType) : QuintType :=
  match t with
  | TBool _ | TInt _ | TStr _ | TVar _ _ => t
  | TConst n i => TConst (name ++ "::" ++ n) i
  | TSet elem i => TSet (prefixed name elem) i
  | TList elem i => TList (prefixed name elem) i
  | TFun arg res i => TFun (prefixed name arg) (prefixed name res) i
  | TOper args res i => TOper (map (prefixed name) args) (prefixed name res) i
  | TTup fields i => TTup (row_prefixed name fields) i
  | TRec fields i => TRec (row_prefixed name fields) i
  | TUnion tag records i =>
      TUnion tag (map (fun record => (fst record, row_prefixed name (snd record))) records) i
  end
with row_prefixed (name : string) (row : Row) : Row :=
  match row with
  | RowFields fields other =>
      RowFields (map (fun field => (fst field, prefixed name (snd field))) fields) other
  | RowVar _ | RowEmpty => row
  end.

(** [addNamespaceToType] changes the ids and the names of the [const] types
    and nothing else. Without the ids, the copy is the type with every
    [const] name it visits under the prefix of the instance: the name of a
    type alias of the prototype, and just as well a name the prototype does
    not define; no table is consulted. The tail of a row is kept as it is,
    with the names and ids it has. *)
Theorem addNamespaceToType_prefixes_every_name (name : string) :
  forall (t : QuintType) (g : IdGenerator),
    without_ids (fst (addNamespaceToType name t g)) = without_ids (prefixed name t).
Proof.
  apply (type_induction
           (fun t => forall g,
                without_ids (fst (addNamespaceToType name t g)) = without_ids (prefixed name t))
           (fun r => forall g,
                row_without_ids (fst (addNamespaceToRow name r g))
                = row_without_ids (row_prefixed name r))).
  - reflexivity.
  - reflexivity.
  - reflexivity.
  - reflexivity.
  - reflexivity.
  - intros elem i IH g. simpl. unfold nextId. specialize (IH (g + 1)).
    destruct (addNamespaceToType name elem (g + 1)) as [elem' g1]. simpl in *.
    rewrite IH. reflexivity.
  - intros elem i IH g. simpl. unfold nextId. specialize (IH (g + 1)).
    destruct (addNamespaceToType name elem (g + 1)) as [elem' g1]. simpl in *.
    rewrite IH. reflexivity.
  - intros arg res i IHarg IHres g. simpl. unfold nextId. specialize (IHarg (g + 1)).
    destruct (addNamespaceToType name arg (g + 1)) as [arg' g1]. specialize (IHres g1).
    destruct (addNamespaceToType name res g1) as [res' g2]. simpl in *.
    rewrite IHarg, IHres. reflexivity.
  - intros args res i IHargs IHres g. simpl. unfold nextId.
    match goal with |- context [?f args (g + 1)] => set (map_args := f) end.
    assert (Hargs : forall g0, map without_ids (fst (map_args args g0))
                               = map without_ids (map (prefixed name) args)).
    { induction IHargs as [|a l Ha _ IHl]; intros g0; simpl; [reflexivity|].
      specialize (Ha g0). destruct (addNamespaceToType name a g0) as [a' g1].
      specialize (IHl g1). destruct (map_args l g1) as [rest' g2]. simpl in *.
      rewrite Ha, IHl. reflexivity. }
    specialize (Hargs (g + 1)). destruct (map_args args (g + 1)) as [args' g1].
    specialize (IHres g1). destruct (addNamespaceToType name res g1) as [res' g2]. simpl in *.
    rewrite Hargs, IHres. reflexivity.
  - intros fields i IH g. simpl. unfold nextId. specialize (IH (g + 1)).
    destruct (addNamespaceToRow name fields (g + 1)) as [fields' g1]. simpl in *.
    rewrite IH. reflexivity.
  - intros fields i IH g. simpl. unfold nextId. specialize (IH (g + 1)).
    destruct (addNamespaceToRow name fields (g + 1)) as [fields' g1]. simpl in *.
    rewrite IH. reflexivity.
  - intros tag records i IH g. simpl. unfold nextId.
    match goal with |- context [?f records (g + 1)] => set (map_records := f) end.
    assert (Hrecords : forall g0,
               map (fun record => (fst record, row_without_ids (snd record)))
                   (fst (map_records records g0))
               = map (fun record => (fst record, row_without_ids (snd record)))
                   (map (fun record => (fst record, row_prefixed name (snd record))) records)).
    { induction IH as [|[tagValue fields] l Ha _ IHl]; intros g0; simpl; [reflexivity|].
      simpl in Ha. specialize (Ha g0). destruct (addNamespaceToRow name fields g0) as [fields' g1].
      specialize (IHl g1). destruct (map_records l g1) as [rest' g2]. simpl in *.
      rewrite Ha, IHl. reflexivity. }
    specialize (Hrecords (g + 1)). destruct (map_records records (g + 1)) as [records' g1].
    simpl in *. rewrite Hrecords. reflexivity.
  - intros fields other IH _ g. simpl.
    match goal with |- context [?f fields g] => set (map_fields := f) end.
    assert (Hfields : forall g0,
               map (fun field => (fst field, without_ids (snd field)))
                   (fst (map_fields fields g0))
               = map (fun field => (fst field, without_ids (snd field)))
                   (map (fun field => (fst field, prefixed name (snd field))) fields)).
    { induction IH as [|[fieldName fieldType] l Ha _ IHl]; intros g0; simpl; [reflexivity|].
      simpl in Ha. specialize (Ha g0).
      destruct (addNamespaceToType name fieldType g0) as [fieldType' g1].
      specialize (IHl g1). destruct (map_fields l g1) as [rest' g2]. simpl in *.
      rewrite Ha, IHl. reflexivity. }
    specialize (Hfields g). destruct (map_fields fields g) as [fields' g1]. simpl in *.
    rewrite Hfields. reflexivity.
  - reflexivity.
  - reflexivity.
Qed.

End FlatteningFacts.

(** * Properties of the definition collector *)

Module CollectorFacts.

Import DefinitionsCollector.

(** ** Maps and stores *)

Lemma Map_get_In {V : Type} (m : list (string * V)) k v :
  Js.Map_get String.eqb m k = Some v -> In (k, v) m.
Proof.
  induction m as [|[k' v'] m IH]; simpl; [discriminate|].
  destruct (String.eqb k' k) eqn:Hk.
  - apply String.eqb_eq in Hk. intros H. inversion H; subst. left. reflexivity.
  - intros H. right. apply IH. exact H.
Qed.

Lemma Map_get_None {V : Type} (m : list (string * V)) k :
  Js.Map_get String.eqb m k = None <-> ~ In k (map fst m).
Proof.
  induction m as [|[k' v'] m IH]; simpl.
  - split; [intros _ []|reflexivity].
  - destruct (String.eqb k' k) eqn:Hk.
    + apply String.eqb_eq in Hk. split; [discriminate|]. intros H. exfalso. apply H. left. exact Hk.
    + apply String.eqb_neq in Hk. rewrite IH. split.
      * intros H [H'|H']; [exact (Hk H')|exact (H H')].
      * intros H H'. apply H. right. exact H'.
Qed.

Lemma In_Map_get {V : Type} (m : list (string * V)) k v :
  NoDup (map fst m) -> In (k, v) m -> Js.Map_get String.eqb m k = Some v.
Proof.
  induction m as [|[k' v'] m IH]; simpl; intros Hnd Hin; [destruct Hin|].
  inversion Hnd as [|? ? Hnotin Hnd']; subst.
  destruct Hin as [Heq|Hin].
  - inversion Heq; subst. rewrite String.eqb_refl. reflexivity.
  - destruct (String.eqb k' k) eqn:Hk.
    + apply String.eqb_eq in Hk. subst k'. exfalso. apply Hnotin.
      apply (in_map fst) in Hin. exact Hin.
    + apply IH; assumption.
Qed.

Lemma Map_set_absent {V : Type} (m : list (string * V)) k v :
  Js.Map_get String.eqb m k = None -> Js.Map_set String.eqb m k v = (m ++ [(k, v)])%list.
Proof.
  induction m as [|[k' v'] m IH]; simpl; [reflexivity|].
  destruct (String.eqb k' k); [discriminate|].
  intros H. rewrite IH by exact H. reflexivity.
Qed.

Lemma Map_has_false {V : Type} (m : list (string * V)) k :
  Js.Map_has String.eqb m k = false <-> Js.Map_get String.eqb m k = None.
Proof.
  unfold Js.Map_has. destruct (Js.Map_get String.eqb m k); split; congruence.
Qed.

Lemma nth_store_update_same {A : Type} (store : list A) a f d :
  (a < List.length store)%nat -> nth a (store_update store a f) d = f (nth a store d).
Proof.
  revert a. induction store as [|x store IH]; intros [|a] H; simpl in *; try lia.
  - reflexivity.
  - apply IH. lia.
Qed.

Lemma nth_store_update_other {A : Type} (store : list A) a b f d :
  a <> b -> nth b (store_update store a f) d = nth b store d.
Proof.
  revert a b. induction store as [|x store IH]; intros [|a] [|b] H; simpl; try reflexivity.
  - congruence.
  - apply IH. congruence.
Qed.

Lemma length_store_update {A : Type} (store : list A) a f :
  List.length (store_update store a f) = List.length store.
Proof.
  revert a. induction store as [|x store IH]; intros [|a]; simpl; try reflexivity.
  rewrite IH. reflexivity.
Qed.


Lemma nth_app_fresh {A : Type} (store : list A) x a d :
  nth a (store ++ [x]) d =
  if Nat.eqb a (List.length store) then x else nth a store d.
Proof.
  destruct (Nat.eqb a (List.length store)) eqn:Ha.
  - apply Nat.eqb_eq in Ha. subst a. rewrite app_nth2 by lia.
    rewrite Nat.sub_diag. reflexivity.
  - apply Nat.eqb_neq in Ha. destruct (Nat.lt_ge_cases a (List.length store)).
    + apply app_nth1. assumption.
    + rewrite !nth_overflow; [reflexivity|lia|rewrite length_app; simpl; lia].
Qed.

Fixpoint nodupb (l : list string) : bool :=
  match l with
  | [] => true
  | x :: rest => negb (existsb (String.eqb x) rest) && nodupb rest
  end.

Lemma nodupb_NoDup l : nodupb l = true -> NoDup l.
Proof.
  induction l as [|x l IH]; simpl; intros H; constructor.
  - apply andb_prop in H. destruct H as [H _]. intros Hin.
    apply negb_true_iff in H.
    assert (existsb (String.eqb x) l = true).
    { apply existsb_exists. exists x. split; [exact Hin|apply String.eqb_refl]. }
    congruence.
  - apply IH. apply andb_prop in H. apply H.
Qed.

(** ** The stores of a run *)

Definition builtinCount : nat := List.length builtinIdentifiers.

(** The map [defaultDefinitions()] returns: the i-th builtin at cell [i]. *)
Definition builtinMap : LookupTable := combine builtinIdentifiers (seq 0 builtinCount).

Lemma builtinMap_keys : map fst builtinMap = builtinIdentifiers.
Proof. reflexivity. Qed.

Lemma builtinMap_NoDup : NoDup (map fst builtinMap).
Proof. apply nodupb_NoDup. vm_compute. reflexivity. Qed.

Lemma builtinMap_cells k c : In (k, c) builtinMap -> (c < builtinCount)%nat.
Proof.
  unfold builtinMap. intros H. apply in_combine_r in H. apply in_seq in H. lia.
Qed.

(** What holds of the maps of a visitor, whatever the cells contain: map 0
    is the builtin map and is never current; the map of a module starts as a
    copy of it; a cell that sits in two maps is a builtin cell, and it sits
    under one key everywhere. *)
Record WFstore (s : Visitor) : Prop := {
  wf_default : defaultDefinitions s = 0%nat;
  wf_default_map : map_at s 0%nat = builtinMap;
  wf_current : (0 < currentTable s < List.length (maps s))%nat;
  wf_current_reg : currentTable s = 1%nat \/ exists n, In (n, currentTable s) (tables s);
  wf_tables : forall n t, In (n, t) (tables s) -> (1 < t < List.length (maps s))%nat;
  wf_tables_keys : NoDup (map fst (tables s));
  wf_tables_inj : forall n1 n2 t, In (n1, t) (tables s) -> In (n2, t) (tables s) -> n1 = n2;
  wf_builtin : forall n t, In (n, t) (tables s) -> forall e, In e builtinMap -> In e (map_at s t);
  wf_keys : forall t, NoDup (map fst (map_at s t));
  wf_cells : forall t k c, In (k, c) (map_at s t) -> (c < List.length (cells s))%nat;
  wf_cells_builtin : (builtinCount <= List.length (cells s))%nat;
  wf_owner : forall t1 t2 k1 k2 c,
      In (k1, c) (map_at s t1) -> In (k2, c) (map_at s t2) ->
      k1 = k2 /\ (t1 = t2 \/ (c < builtinCount)%nat)
}.

Record WF (s : Visitor) : Prop := {
  wf_store : WFstore s;
  wf_stack : forall n, In n (moduleStack s) -> exists t, In (n, t) (tables s);
  wf_top : forall n, stack_top (moduleStack s) = Some n -> In (n, currentTable s) (tables s)
}.

Lemma map_at_new t :
  map_at newVisitor t = match t with O => builtinMap | _ => [] end.
Proof.
  destruct t as [|[|[|t]]]; reflexivity.
Qed.

Lemma builtinMap_key_of_cell k1 k2 c :
  In (k1, c) builtinMap -> In (k2, c) builtinMap -> k1 = k2.
Proof.
  unfold builtinMap.
  assert (Hnd : NoDup (seq 0 builtinCount)) by apply seq_NoDup.
  revert Hnd. generalize (seq 0 builtinCount). generalize builtinIdentifiers.
  intros ks. induction ks as [|k ks IH]; intros [|v vs]; simpl;
    try (intros _ Hfalse; destruct Hfalse; fail).
  intros Hnd [H1|H1] [H2|H2]; inversion Hnd; subst.
  - congruence.
  - inversion H1; subst. apply in_combine_r in H2. contradiction.
  - inversion H2; subst. apply in_combine_r in H1. contradiction.
  - eapply IH; eassumption.
Qed.

Lemma WFstore_new : WFstore newVisitor.
Proof.
  constructor.
  - reflexivity.
  - apply map_at_new.
  - simpl. lia.
  - left. reflexivity.
  - intros n t [].
  - constructor.
  - intros n1 n2 t [].
  - intros n t [].
  - intros t. rewrite map_at_new. destruct t; [apply builtinMap_NoDup|constructor].
  - intros t k c. rewrite map_at_new. destruct t; [|intros []].
    intros H. apply builtinMap_cells in H. change (c < builtinCount)%nat. exact H.
  - change (builtinCount <= builtinCount)%nat. lia.
  - intros t1 t2 k1 k2 c. rewrite !map_at_new.
    destruct t1; [|intros []]. destruct t2; [|intros _ []].
    intros H1 H2. split; [eapply builtinMap_key_of_cell; eassumption|left; reflexivity].
Qed.

Lemma WF_new : WF newVisitor.
Proof.
  constructor.
  - exact WFstore_new.
  - intros n [].
  - simpl. discriminate.
Qed.


(** ** The methods keep the stores well formed *)

Lemma map_at_alloc s t ident :
  (currentTable s < List.length (maps s))%nat ->
  nth t (store_update (maps s) (currentTable s)
           (fun m => Js.Map_set String.eqb m ident (List.length (cells s)))) []
  = if Nat.eqb t (currentTable s)
    then Js.Map_set String.eqb (map_at s t) ident (List.length (cells s))
    else map_at s t.
Proof.
  intros Hcur. unfold map_at. destruct (Nat.eqb t (currentTable s)) eqn:Ht.
  - apply Nat.eqb_eq in Ht. subst t. rewrite nth_store_update_same by exact Hcur.
    reflexivity.
  - apply Nat.eqb_neq in Ht. apply nth_store_update_other. congruence.
Qed.

Lemma ensureCell_frame s ident :
  tables (ensureCell s ident) = tables s /\
  currentTable (ensureCell s ident) = currentTable s /\
  moduleStack (ensureCell s ident) = moduleStack s /\
  scopeStack (ensureCell s ident) = scopeStack s /\
  defaultDefinitions (ensureCell s ident) = defaultDefinitions s.
Proof.
  unfold ensureCell. destruct (Js.Map_has String.eqb (map_at s (currentTable s)) ident);
    simpl; repeat split; reflexivity.
Qed.

Lemma updateCell_frame s ident f :
  tables (updateCell s ident f) = tables s /\
  currentTable (updateCell s ident f) = currentTable s /\
  moduleStack (updateCell s ident f) = moduleStack s /\
  scopeStack (updateCell s ident f) = scopeStack s /\
  defaultDefinitions (updateCell s ident f) = defaultDefinitions s /\
  maps (updateCell s ident f) = maps s /\
  List.length (cells (updateCell s ident f)) = List.length (cells s).
Proof.
  unfold updateCell. destruct (Js.Map_get String.eqb (map_at s (currentTable s)) ident);
    simpl; repeat split; try reflexivity.
  apply length_store_update.
Qed.

Lemma map_at_ensureCell s ident t :
  WFstore s ->
  map_at (ensureCell s ident) t
  = if Nat.eqb t (currentTable s) && negb (Js.Map_has String.eqb (map_at s t) ident)
    then (map_at s t ++ [(ident, List.length (cells s))])%list
    else map_at s t.
Proof.
  intros Hwf. unfold ensureCell.
  destruct (Nat.eqb t (currentTable s)) eqn:Ht; simpl.
  - apply Nat.eqb_eq in Ht. subst t.
    destruct (Js.Map_has String.eqb (map_at s (currentTable s)) ident) eqn:Hhas; simpl.
    + reflexivity.
    + unfold map_at at 1. simpl. rewrite map_at_alloc by apply (wf_current s Hwf).
      rewrite Nat.eqb_refl. apply Map_set_absent. apply Map_has_false. exact Hhas.
  - destruct (Js.Map_has String.eqb (map_at s (currentTable s)) ident); [reflexivity|].
    unfold map_at at 1. simpl. rewrite map_at_alloc by apply (wf_current s Hwf).
    rewrite Ht. reflexivity.
Qed.

Lemma cells_ensureCell s ident :
  cells (ensureCell s ident)
  = if Js.Map_has String.eqb (map_at s (currentTable s)) ident then cells s
    else (cells s ++ [emptyTable])%list.
Proof.
  unfold ensureCell. destruct (Js.Map_has String.eqb (map_at s (currentTable s)) ident);
    reflexivity.
Qed.

Lemma In_map_at_ensureCell s ident t k c :
  WFstore s ->
  In (k, c) (map_at (ensureCell s ident) t) ->
  In (k, c) (map_at s t)
  \/ (t = currentTable s /\ k = ident /\ c = List.length (cells s) /\
      Js.Map_get String.eqb (map_at s t) ident = None).
Proof.
  intros Hwf. rewrite map_at_ensureCell by exact Hwf.
  destruct (Nat.eqb t (currentTable s)) eqn:Ht; simpl; [|auto].
  destruct (Js.Map_has String.eqb (map_at s t) ident) eqn:Hhas; simpl; [auto|].
  intros Hin. apply in_app_or in Hin. destruct Hin as [Hin|[Heq|[]]]; [auto|].
  inversion Heq; subst. right. apply Nat.eqb_eq in Ht.
  repeat split; try assumption. apply Map_has_false. exact Hhas.
Qed.

Lemma map_at_ensureCell_mono s ident t e :
  WFstore s -> In e (map_at s t) -> In e (map_at (ensureCell s ident) t).
Proof.
  intros Hwf Hin. rewrite map_at_ensureCell by exact Hwf.
  destruct (_ && _); [apply in_or_app; left|]; exact Hin.
Qed.

Lemma WFstore_ensureCell s ident : WFstore s -> WFstore (ensureCell s ident).
Proof.
  intros Hwf.
  destruct (ensureCell_frame s ident) as (Htab & Hcur & _ & _ & Hdef).
  assert (Hlen : List.length (maps (ensureCell s ident)) = List.length (maps s)).
  { unfold ensureCell. destruct (Js.Map_has _ _ _); simpl; [reflexivity|].
    apply length_store_update. }
  assert (Hcells : (List.length (cells s) <= List.length (cells (ensureCell s ident)))%nat).
  { rewrite cells_ensureCell. destruct (Js.Map_has _ _ _); [lia|].
    rewrite length_app. simpl. lia. }
  assert (Hfresh : forall t k, In (k, List.length (cells s)) (map_at s t) -> False).
  { intros t k Hin. apply (wf_cells s Hwf) in Hin. lia. }
  constructor.
  - rewrite Hdef. apply (wf_default s Hwf).
  - rewrite map_at_ensureCell by exact Hwf.
    destruct (Nat.eqb 0 (currentTable s)) eqn:H0.
    + apply Nat.eqb_eq in H0. pose proof (wf_current s Hwf). lia.
    + simpl. apply (wf_default_map s Hwf).
  - rewrite Hcur, Hlen. apply (wf_current s Hwf).
  - rewrite Hcur, Htab. apply (wf_current_reg s Hwf).
  - rewrite Htab, Hlen. apply (wf_tables s Hwf).
  - rewrite Htab. apply (wf_tables_keys s Hwf).
  - rewrite Htab. apply (wf_tables_inj s Hwf).
  - rewrite Htab. intros n t Hin e He. apply map_at_ensureCell_mono; [exact Hwf|].
    eapply (wf_builtin s Hwf); eassumption.
  - intros t. rewrite map_at_ensureCell by exact Hwf.
    destruct (Nat.eqb t (currentTable s)); simpl; [|apply (wf_keys s Hwf)].
    destruct (Js.Map_has String.eqb (map_at s t) ident) eqn:Hhas; simpl;
      [apply (wf_keys s Hwf)|].
    rewrite map_app. simpl. apply NoDup_app.
    + apply (wf_keys s Hwf).
    + constructor; [intros []|constructor].
    + intros x Hx [<-|[]]. apply Map_has_false in Hhas. apply Map_get_None in Hhas. auto.
  - intros t k c Hin. apply In_map_at_ensureCell in Hin; [|exact Hwf].
    destruct Hin as [Hin|(Ht & _ & -> & Hnone)].
    + apply (wf_cells s Hwf) in Hin. lia.
    + rewrite cells_ensureCell.
      replace (Js.Map_has String.eqb (map_at s (currentTable s)) ident) with false.
      * rewrite length_app. simpl. lia.
      * symmetry. apply Map_has_false. subst t. exact Hnone.
  - pose proof (wf_cells_builtin s Hwf). lia.
  - intros t1 t2 k1 k2 c H1 H2.
    apply In_map_at_ensureCell in H1; [|exact Hwf].
    apply In_map_at_ensureCell in H2; [|exact Hwf].
    destruct H1 as [H1|(-> & -> & -> & _)]; destruct H2 as [H2|(-> & -> & Hc & _)].
    + eapply (wf_owner s Hwf); eassumption.
    + subst c. exfalso. eapply Hfresh; eassumption.
    + exfalso. eapply Hfresh; eassumption.
    + auto.
Qed.

Lemma map_at_updateCell s ident f t : map_at (updateCell s ident f) t = map_at s t.
Proof.
  unfold map_at. destruct (updateCell_frame s ident f) as (_ & _ & _ & _ & _ & -> & _).
  reflexivity.
Qed.

Lemma WFstore_updateCell s ident f : WFstore s -> WFstore (updateCell s ident f).
Proof.
  intros Hwf.
  destruct (updateCell_frame s ident f) as (Htab & Hcur & _ & _ & Hdef & Hmaps & Hlen).
  constructor.
  - rewrite Hdef. apply Hwf.
  - rewrite map_at_updateCell. apply Hwf.
  - rewrite Hcur, Hmaps. apply Hwf.
  - rewrite Hcur, Htab. apply Hwf.
  - rewrite Htab, Hmaps. apply Hwf.
  - rewrite Htab. apply Hwf.
  - rewrite Htab. apply Hwf.
  - rewrite Htab. intros n t Hin e He. rewrite map_at_updateCell.
    eapply (wf_builtin s Hwf); eassumption.
  - intros t. rewrite map_at_updateCell. apply Hwf.
  - intros t k c. rewrite map_at_updateCell, Hlen. apply Hwf.
  - rewrite Hlen. apply Hwf.
  - intros t1 t2 k1 k2 c. rewrite !map_at_updateCell. apply Hwf.
Qed.


Lemma collectValueDefinition_frame s kind ident reference scope :
  tables (collectValueDefinition s kind ident reference scope) = tables s /\
  currentTable (collectValueDefinition s kind ident reference scope) = currentTable s /\
  moduleStack (collectValueDefinition s kind ident reference scope) = moduleStack s /\
  scopeStack (collectValueDefinition s kind ident reference scope) = scopeStack s.
Proof.
  unfold collectValueDefinition. destruct (String.eqb ident "_"); [repeat split; reflexivity|].
  match goal with |- context [updateCell ?s' ?i ?f] =>
    destruct (updateCell_frame s' i f) as (-> & -> & -> & -> & _)
  end.
  destruct (ensureCell_frame s ident) as (-> & -> & -> & -> & _).
  repeat split; reflexivity.
Qed.

Lemma collectTypeDefinition_frame s ident type reference :
  tables (collectTypeDefinition s ident type reference) = tables s /\
  currentTable (collectTypeDefinition s ident type reference) = currentTable s /\
  moduleStack (collectTypeDefinition s ident type reference) = moduleStack s /\
  scopeStack (collectTypeDefinition s ident type reference) = scopeStack s.
Proof.
  unfold collectTypeDefinition.
  match goal with |- context [updateCell ?s' ?i ?f] =>
    destruct (updateCell_frame s' i f) as (-> & -> & -> & -> & _)
  end.
  destruct (ensureCell_frame s ident) as (-> & -> & -> & -> & _).
  repeat split; reflexivity.
Qed.

Lemma WFstore_collectValueDefinition s kind ident reference scope :
  WFstore s -> WFstore (collectValueDefinition s kind ident reference scope).
Proof.
  intros Hwf. unfold collectValueDefinition. destruct (String.eqb ident "_"); [exact Hwf|].
  apply WFstore_updateCell, WFstore_ensureCell, Hwf.
Qed.

Lemma WFstore_collectTypeDefinition s ident type reference :
  WFstore s -> WFstore (collectTypeDefinition s ident type reference).
Proof.
  intros Hwf. apply WFstore_updateCell, WFstore_ensureCell, Hwf.
Qed.

Lemma WF_collectValueDefinition s kind ident reference scope :
  WF s -> WF (collectValueDefinition s kind ident reference scope).
Proof.
  intros [Hst Hstack Htop].
  destruct (collectValueDefinition_frame s kind ident reference scope) as (Ht & Hc & Hm & _).
  constructor; [apply WFstore_collectValueDefinition, Hst|rewrite Ht, Hm|rewrite Ht, Hm, Hc];
    assumption.
Qed.

Lemma WF_collectTypeDefinition s ident type reference :
  WF s -> WF (collectTypeDefinition s ident type reference).
Proof.
  intros [Hst Hstack Htop].
  destruct (collectTypeDefinition_frame s ident type reference) as (Ht & Hc & Hm & _).
  constructor; [apply WFstore_collectTypeDefinition, Hst|rewrite Ht, Hm|rewrite Ht, Hm, Hc];
    assumption.
Qed.

Lemma stack_top_app {A : Type} (l : list A) x : stack_top (l ++ [x]) = Some x.
Proof.
  unfold stack_top. destruct l as [|y l]; [reflexivity|].
  change ((y :: l) ++ [x])%list with (y :: (l ++ [x]))%list. cbv iota beta.
  f_equal. apply last_last.
Qed.

Lemma last_default_In {A : Type} (l : list A) y : In (last l y) (y :: l).
Proof.
  revert y. induction l as [|z l IH]; intros y; [left; reflexivity|].
  destruct l as [|w l]; [right; left; reflexivity|].
  change (last (z :: w :: l) y) with (last (w :: l) y).
  destruct (IH y) as [H|H]; [left; exact H|right; right; exact H].
Qed.

Lemma stack_top_In {A : Type} (l : list A) x : stack_top l = Some x -> In x l.
Proof.
  destruct l as [|y l]; simpl; [discriminate|]. intros H. inversion H; subst.
  apply last_default_In.
Qed.

Lemma In_removelast {A : Type} (l : list A) x : In x (removelast l) -> In x l.
Proof.
  induction l as [|y l IH]; simpl; [intros []|].
  destruct l as [|z l]; [intros []|].
  intros [<-|H]; [left; reflexivity|right; apply IH; exact H].
Qed.

Lemma stack_split {A : Type} (l : list A) x :
  stack_top l = Some x -> l = (removelast l ++ [x])%list.
Proof.
  destruct l as [|y l]; [discriminate|]. unfold stack_top. intros H. inversion H; subst.
  assert (Hne : y :: l <> []) by discriminate.
  rewrite (app_removelast_last y Hne) at 1. destruct l; reflexivity.
Qed.

(** [updateCurrentModule] when every module below the top of the stack has
    its table. *)
Lemma WF_updateCurrentModule s :
  WFstore s ->
  (forall n, In n (removelast (moduleStack s)) -> exists t, In (n, t) (tables s)) ->
  WF (updateCurrentModule s).
Proof.
  intros Hwf Hbelow. unfold updateCurrentModule.
  destruct (stack_top (moduleStack s)) as [name|] eqn:Htop.
  2:{ constructor; [exact Hwf| |].
      - destruct (moduleStack s); [intros n []|discriminate].
      - rewrite Htop. discriminate. }
  assert (Hstack_all : forall tbl, (forall n t, In (n, t) (tables s) -> In (n, t) tbl) ->
                                   (exists t, In (name, t) tbl) ->
                                   forall n, In n (moduleStack s) -> exists t, In (n, t) tbl).
  { intros tbl Hmono Hname n Hin. rewrite (stack_split _ _ Htop) in Hin.
    apply in_app_or in Hin. destruct Hin as [Hin|[<-|[]]]; [|exact Hname].
    destruct (Hbelow n Hin) as (t & Ht). exists t. apply Hmono. exact Ht. }
  destruct (Js.Map_get String.eqb (tables s) name) as [moduleTable|] eqn:Hget.
  - apply Map_get_In in Hget. constructor; simpl.
    + constructor; simpl; try apply Hwf.
      * pose proof (wf_tables s Hwf _ _ Hget). lia.
      * right. exists name. exact Hget.
    + apply Hstack_all; [auto|exists moduleTable; exact Hget].
    + rewrite Htop. intros n Hn. inversion Hn; subst. exact Hget.
  - pose proof (wf_current s Hwf) as Hcur.
    assert (Hset : Js.Map_set String.eqb (tables s) name (List.length (maps s))
                   = (tables s ++ [(name, List.length (maps s))])%list)
      by (apply Map_set_absent; exact Hget).
    assert (Hmap : forall t,
               nth t (maps s ++ [Js.Map_copy (map_at s (defaultDefinitions s))]) []
               = if Nat.eqb t (List.length (maps s)) then builtinMap else map_at s t).
    { intros t. rewrite nth_app_fresh. rewrite (wf_default s Hwf), (wf_default_map s Hwf).
      reflexivity. }
    constructor; simpl.
    + constructor; simpl; unfold map_at; simpl; rewrite ?Hset, ?length_app; simpl.
      * apply Hwf.
      * rewrite Hmap. destruct (Nat.eqb 0 (List.length (maps s))) eqn:E.
        -- apply Nat.eqb_eq in E. lia.
        -- apply Hwf.
      * lia.
      * right. exists name. apply in_or_app. right. left. reflexivity.
      * intros n t Hin. apply in_app_or in Hin. destruct Hin as [Hin|[Heq|[]]].
        -- pose proof (wf_tables s Hwf _ _ Hin). lia.
        -- inversion Heq; subst. lia.
      * rewrite map_app. simpl. apply NoDup_app.
        -- apply Hwf.
        -- constructor; [intros []|constructor].
        -- intros x Hx [<-|[]]. apply Map_get_None in Hget. auto.
      * intros n1 n2 t H1 H2. apply in_app_or in H1. apply in_app_or in H2.
        destruct H1 as [H1|[H1|[]]]; destruct H2 as [H2|[H2|[]]].
        -- eapply (wf_tables_inj s Hwf); eassumption.
        -- inversion H2; subst. pose proof (wf_tables s Hwf _ _ H1). lia.
        -- inversion H1; subst. pose proof (wf_tables s Hwf _ _ H2). lia.
        -- congruence.
      * intros n t Hin e He. rewrite Hmap. apply in_app_or in Hin.
        destruct (Nat.eqb t (List.length (maps s))) eqn:E; [exact He|].
        destruct Hin as [Hin|[Heq|[]]].
        -- eapply (wf_builtin s Hwf); eassumption.
        -- inversion Heq; subst. rewrite Nat.eqb_refl in E. discriminate.
      * intros t. rewrite Hmap. destruct (Nat.eqb t (List.length (maps s)));
          [apply builtinMap_NoDup|apply Hwf].
      * intros t k c. rewrite Hmap. destruct (Nat.eqb t (List.length (maps s))).
        -- intros H. apply builtinMap_cells in H. pose proof (wf_cells_builtin s Hwf). lia.
        -- apply Hwf.
      * apply Hwf.
      * intros t1 t2 k1 k2 c. rewrite !Hmap.
        assert (Hb : forall k t k', In (k, c) builtinMap -> In (k', c) (map_at s t) ->
                                    k = k' /\ (c < builtinCount)%nat).
        { intros k t k' H1 H2. rewrite <- (wf_default_map s Hwf) in H1.
          destruct (wf_owner s Hwf _ _ _ _ _ H1 H2) as [-> _].
          rewrite (wf_default_map s Hwf) in H1. split; [reflexivity|].
          eapply builtinMap_cells; eassumption. }
        destruct (Nat.eqb t1 (List.length (maps s))) eqn:E1;
          destruct (Nat.eqb t2 (List.length (maps s))) eqn:E2; intros H1 H2.
        -- apply Nat.eqb_eq in E1, E2. split; [|left; congruence].
           eapply builtinMap_key_of_cell; eassumption.
        -- destruct (Hb _ _ _ H1 H2) as [-> Hc]. auto.
        -- destruct (Hb _ _ _ H2 H1) as [-> Hc]. auto.
        -- eapply (wf_owner s Hwf); eassumption.
    + rewrite Hset. apply Hstack_all.
      * intros n t Hin. apply in_or_app. left. exact Hin.
      * exists (List.length (maps s)). apply in_or_app. right. left. reflexivity.
    + rewrite Htop, Hset. intros n Hn. inversion Hn; subst.
      apply in_or_app. right. left. reflexivity.
Qed.


Lemma WFstore_withModuleStack s stack : WFstore s -> WFstore (withModuleStack s stack).
Proof. intros Hwf. constructor; apply Hwf. Qed.

Lemma WF_withScopeStack s stack : WF s -> WF (withScopeStack s stack).
Proof. intros [Hst Hstack Htop]. constructor; [constructor; apply Hst|exact Hstack|exact Htop]. Qed.

Lemma WF_enterModuleDef s name : WF s -> WF (enterModuleDef s name).
Proof.
  intros [Hst Hstack Htop]. unfold enterModuleDef. apply WF_updateCurrentModule.
  - apply WFstore_withModuleStack, Hst.
  - simpl. rewrite removelast_last. exact Hstack.
Qed.

Lemma WF_fold_collect {A : Type} (f : A -> string * string * option Z * option Z) l :
  forall s, WF s ->
    WF (fold_left (fun s d => collectValueDefinition s (fst (fst (fst (f d))))
                                (snd (fst (fst (f d)))) (snd (fst (f d))) (snd (f d))) l s).
Proof.
  induction l as [|d l IH]; intros s Hwf; simpl; [exact Hwf|].
  apply IH, WF_collectValueDefinition, Hwf.
Qed.

Lemma WF_exportCell name s entry : WF s -> WF (exportCell name s entry).
Proof.
  intros Hwf. unfold exportCell.
  apply (WF_fold_collect
           (fun d => (kind d, name ++ "::" ++ identifier d, reference d, None))).
  exact Hwf.
Qed.

Lemma WF_fold_exportCell name entries : forall s, WF s -> WF (fold_left (exportCell name) entries s).
Proof.
  induction entries as [|e entries IH]; intros s Hwf; simpl; [exact Hwf|].
  apply IH, WF_exportCell, Hwf.
Qed.

Lemma WF_exitModuleDef s name id : WF s -> WF (exitModuleDef s name id).
Proof.
  intros [Hst Hstack Htop]. unfold exitModuleDef.
  assert (Hup : WF (updateCurrentModule (withModuleStack s (removelast (moduleStack s))))).
  { apply WF_updateCurrentModule.
    - apply WFstore_withModuleStack, Hst.
    - simpl. intros n Hin. apply Hstack. apply In_removelast, In_removelast. exact Hin. }
  destruct (moduleStack (updateCurrentModule (withModuleStack s (removelast (moduleStack s)))));
    [exact Hup|].
  apply WF_collectValueDefinition, WF_fold_exportCell, Hup.
Qed.

Lemma WF_visit s c : WF s -> WF (visit s c).
Proof.
  intros Hwf. destruct c; simpl.
  - apply WF_enterModuleDef, Hwf.
  - apply WF_exitModuleDef, Hwf.
  - apply WF_collectValueDefinition, Hwf.
  - apply WF_collectValueDefinition, Hwf.
  - unfold enterOpDef. destruct (stack_top (scopeStack s)); apply WF_collectValueDefinition, Hwf.
  - apply WF_collectTypeDefinition, Hwf.
  - apply WF_collectValueDefinition, Hwf.
  - unfold enterLambda.
    apply (WF_fold_collect (fun p => ("param", p, Some id, Some id))). exact Hwf.
  - apply WF_withScopeStack, Hwf.
  - apply WF_withScopeStack, Hwf.
Qed.

Lemma WF_run callbacks : forall s, WF s -> WF (run callbacks s).
Proof.
  unfold run. induction callbacks as [|c callbacks IH]; intros s Hwf; simpl; [exact Hwf|].
  apply IH, WF_visit, Hwf.
Qed.


(** ** Cells only grow *)

Definition cells_grow (s s' : Visitor) : Prop :=
  forall c d, In d (valueDefinitions (cell_at s c)) -> In d (valueDefinitions (cell_at s' c)).

Lemma cells_grow_refl s : cells_grow s s.
Proof. intros c d H. exact H. Qed.

Lemma cells_grow_trans s1 s2 s3 : cells_grow s1 s2 -> cells_grow s2 s3 -> cells_grow s1 s3.
Proof. intros H1 H2 c d H. apply H2, H1, H. Qed.

Lemma cell_at_ensureCell s ident c : cell_at (ensureCell s ident) c = cell_at s c.
Proof.
  unfold cell_at. rewrite cells_ensureCell.
  destruct (Js.Map_has String.eqb (map_at s (currentTable s)) ident); [reflexivity|].
  rewrite nth_app_fresh. destruct (Nat.eqb c (List.length (cells s))) eqn:E; [|reflexivity].
  apply Nat.eqb_eq in E. subst c. rewrite nth_overflow by lia. reflexivity.
Qed.

Lemma cell_at_updateCell s ident f c :
  cell_at (updateCell s ident f) c
  = match Js.Map_get String.eqb (map_at s (currentTable s)) ident with
    | Some c' => if Nat.eqb c' c && Nat.ltb c (List.length (cells s))
                 then f (cell_at s c) else cell_at s c
    | None => cell_at s c
    end.
Proof.
  unfold updateCell, cell_at.
  destruct (Js.Map_get String.eqb (map_at s (currentTable s)) ident) as [c'|]; [|reflexivity].
  simpl. destruct (Nat.eqb c' c) eqn:E; simpl.
  - apply Nat.eqb_eq in E. subst c'. destruct (Nat.ltb c (List.length (cells s))) eqn:L.
    + apply Nat.ltb_lt in L. apply nth_store_update_same. exact L.
    + apply Nat.ltb_ge in L. rewrite !nth_overflow; [reflexivity|lia|].
      rewrite length_store_update. lia.
  - apply Nat.eqb_neq in E. apply nth_store_update_other. exact E.
Qed.

Lemma cells_grow_collectValueDefinition s kind ident reference scope :
  cells_grow s (collectValueDefinition s kind ident reference scope).
Proof.
  unfold collectValueDefinition. destruct (String.eqb ident "_"); [apply cells_grow_refl|].
  intros c d H. rewrite cell_at_updateCell.
  destruct (Js.Map_get _ _ _) as [c'|]; [|rewrite cell_at_ensureCell; exact H].
  destruct (_ && _); rewrite cell_at_ensureCell; [|exact H].
  simpl. apply in_or_app. left. exact H.
Qed.

Lemma cells_grow_collectTypeDefinition s ident type reference :
  cells_grow s (collectTypeDefinition s ident type reference).
Proof.
  unfold collectTypeDefinition.
  intros c d H. rewrite cell_at_updateCell.
  destruct (Js.Map_get _ _ _) as [c'|]; [|rewrite cell_at_ensureCell; exact H].
  destruct (_ && _); rewrite cell_at_ensureCell; exact H.
Qed.

Lemma cells_updateCurrentModule s : cells (updateCurrentModule s) = cells s.
Proof.
  unfold updateCurrentModule. destruct (stack_top (moduleStack s)) as [name|]; [|reflexivity].
  destruct (Js.Map_get String.eqb (tables s) name); reflexivity.
Qed.

Lemma cells_grow_same s s' : cells s' = cells s -> cells_grow s s'.
Proof. intros E c d H. unfold cell_at in *. rewrite E. exact H. Qed.

Lemma cells_grow_fold {A : Type} (step : Visitor -> A -> Visitor) l :
  (forall s a, cells_grow s (step s a)) -> forall s, cells_grow s (fold_left step l s).
Proof.
  intros Hstep. induction l as [|a l IH]; intros s; simpl; [apply cells_grow_refl|].
  eapply cells_grow_trans; [apply Hstep|apply IH].
Qed.

Lemma cells_grow_exportCell name s entry : cells_grow s (exportCell name s entry).
Proof.
  unfold exportCell. apply cells_grow_fold.
  intros s' d. apply cells_grow_collectValueDefinition.
Qed.

Lemma cells_grow_visit s c : cells_grow s (visit s c).
Proof.
  destruct c; simpl.
  - apply cells_grow_same. unfold enterModuleDef. rewrite cells_updateCurrentModule. reflexivity.
  - unfold exitModuleDef.
    assert (H0 : cells_grow s (updateCurrentModule (withModuleStack s (removelast (moduleStack s))))).
    { apply cells_grow_same. rewrite cells_updateCurrentModule. reflexivity. }
    destruct (moduleStack (updateCurrentModule _)); [exact H0|].
    eapply cells_grow_trans; [exact H0|].
    eapply cells_grow_trans; [|apply cells_grow_collectValueDefinition].
    apply cells_grow_fold. intros s' e. apply cells_grow_exportCell.
  - apply cells_grow_collectValueDefinition.
  - apply cells_grow_collectValueDefinition.
  - unfold enterOpDef. destruct (stack_top (scopeStack s));
      apply cells_grow_collectValueDefinition.
  - apply cells_grow_collectTypeDefinition.
  - apply cells_grow_collectValueDefinition.
  - unfold enterLambda. apply cells_grow_fold.
    intros s' p. apply cells_grow_collectValueDefinition.
  - apply cells_grow_same. reflexivity.
  - apply cells_grow_same. reflexivity.
Qed.

Lemma cells_grow_run callbacks : forall s, cells_grow s (run callbacks s).
Proof.
  unfold run. apply cells_grow_fold. apply cells_grow_visit.
Qed.

(** The tables of a run only grow as well. *)
Lemma tables_updateCurrentModule s e :
  In e (tables s) -> In e (tables (updateCurrentModule s)).
Proof.
  unfold updateCurrentModule. destruct (stack_top (moduleStack s)) as [name|]; [|auto].
  destruct (Js.Map_get String.eqb (tables s) name) eqn:Hget; simpl; [auto|].
  rewrite Map_set_absent by exact Hget. intros H. apply in_or_app. left. exact H.
Qed.

Lemma tables_fold_collect {A : Type} (step : Visitor -> A -> Visitor) l :
  (forall s a, tables (step s a) = tables s) ->
  forall s, tables (fold_left step l s) = tables s.
Proof.
  intros Hstep. induction l as [|a l IH]; intros s; simpl; [reflexivity|].
  rewrite IH. apply Hstep.
Qed.

Lemma tables_exportCell name s entry : tables (exportCell name s entry) = tables s.
Proof.
  unfold exportCell. apply tables_fold_collect. intros s' d.
  apply collectValueDefinition_frame.
Qed.

Lemma tables_visit s c e : In e (tables s) -> In e (tables (visit s c)).
Proof.
  destruct c as [name id|name id|name id|name id|name id|name ty id|name id|params id|id|id];
    simpl; intros H.
  - unfold enterModuleDef. apply tables_updateCurrentModule. exact H.
  - unfold exitModuleDef.
    assert (H0 : In e (tables (updateCurrentModule
                                 (withModuleStack s (removelast (moduleStack s)))))).
    { apply tables_updateCurrentModule. exact H. }
    destruct (moduleStack (updateCurrentModule _)); [exact H0|].
    destruct (collectValueDefinition_frame
                (fold_left (exportCell name)
                   (Js.Map_copy (map_at s (currentTable s)))
                   (updateCurrentModule (withModuleStack s (removelast (moduleStack s)))))
                "module" name (Some id) None) as [-> _].
    rewrite tables_fold_collect by (intros; apply tables_exportCell). exact H0.
  - unfold enterVar. destruct (collectValueDefinition_frame s "var" name (Some id) None) as [-> _].
    exact H.
  - unfold enterConst.
    destruct (collectValueDefinition_frame s "const" name (Some id) None) as [-> _]. exact H.
  - unfold enterOpDef. destruct (stack_top (scopeStack s)) as [sc|].
    + destruct (collectValueDefinition_frame s "def" name (Some id) (Some sc)) as [-> _]. exact H.
    + destruct (collectValueDefinition_frame s "def" name (Some id) None) as [-> _]. exact H.
  - unfold enterTypeDef.
    destruct (collectTypeDefinition_frame s name ty (Some id)) as [-> _]. exact H.
  - unfold enterAssume.
    destruct (collectValueDefinition_frame s "assumption" name (Some id) None) as [-> _]. exact H.
  - unfold enterLambda. rewrite tables_fold_collect; [exact H|].
    intros s' p. apply collectValueDefinition_frame.
  - exact H.
  - exact H.
Qed.

Lemma tables_run callbacks : forall s e, In e (tables s) -> In e (tables (run callbacks s)).
Proof.
  unfold run. induction callbacks as [|c callbacks IH]; intros s e H; simpl; [exact H|].
  apply IH, tables_visit, H.
Qed.


(** ** What [collectDefinitions] returns *)

Lemma In_tablesContent s name table :
  In (name, table) (tablesContent s) ->
  exists t, In (name, t) (tables s) /\ table = tableContent s t.
Proof.
  unfold tablesContent. intros H. apply in_map_iff in H.
  destruct H as ([n t] & Heq & Hin). inversion Heq; subst. exists t. split; [exact Hin|reflexivity].
Qed.

Lemma Map_get_tableContent s t k :
  Js.Map_get String.eqb (tableContent s t) k
  = option_map (cell_at s) (Js.Map_get String.eqb (map_at s t) k).
Proof.
  unfold tableContent. induction (map_at s t) as [|[k' c] m IH]; simpl; [reflexivity|].
  destruct (String.eqb k' k); [reflexivity|exact IH].
Qed.

Lemma Map_get_tablesContent s name :
  Js.Map_get String.eqb (tablesContent s) name
  = option_map (tableContent s) (Js.Map_get String.eqb (tables s) name).
Proof.
  unfold tablesContent. induction (tables s) as [|[n t] m IH]; simpl; [reflexivity|].
  destruct (String.eqb n name); [reflexivity|exact IH].
Qed.

(** The cell of a builtin in the table of a module. *)
Lemma module_table_builtin s name t b i :
  WF s -> In (name, t) (tables s) -> In (b, i) builtinMap ->
  Js.Map_get String.eqb (map_at s t) b = Some i.
Proof.
  intros Hwf Hin Hb. apply In_Map_get; [apply (wf_keys s (wf_store s Hwf))|].
  eapply (wf_builtin s (wf_store s Hwf)); eassumption.
Qed.

Lemma builtin_index b : In b builtinIdentifiers -> exists i, In (b, i) builtinMap.
Proof.
  intros H. rewrite <- builtinMap_keys in H. apply in_map_iff in H.
  destruct H as ([b' i] & Heq & Hin). simpl in Heq. subst b'. exists i. exact Hin.
Qed.

Lemma In_combine_seq {A : Type} (l : list A) x i k d :
  In (x, i) (combine l (seq k (List.length l))) -> nth (i - k) l d = x /\ (k <= i)%nat.
Proof.
  revert k. induction l as [|y l IH]; intros k; simpl; [intros []|].
  intros [H|H].
  - inversion H; subst. rewrite Nat.sub_diag. split; [reflexivity|lia].
  - destruct (IH _ H) as [Hn Hk]. split; [|lia].
    replace (i - k)%nat with (S (i - S k)) by lia. exact Hn.
Qed.

Lemma nth_map_default {A B : Type} (F : A -> B) (l : list A) i a b :
  (i < List.length l)%nat -> nth i (map F l) b = F (nth i l a).
Proof.
  intros H. rewrite nth_indep with (d' := F a) by (rewrite length_map; exact H).
  apply map_nth.
Qed.

Lemma builtin_cell_new b i :
  In (b, i) builtinMap -> In (builtinDefinition b) (valueDefinitions (cell_at newVisitor i)).
Proof.
  intros H. pose proof (builtinMap_cells _ _ H) as Hlt.
  apply In_combine_seq with (d := ""%string) in H. destruct H as [H _].
  rewrite Nat.sub_0_r in H. unfold cell_at.
  change (cells newVisitor)
    with (map (fun i => mkDefinitionTable [builtinDefinition i] []) builtinIdentifiers).
  rewrite (nth_map_default _ _ _ ""%string) by exact Hlt.
  rewrite H. left. reflexivity.
Qed.

Lemma walkModuleDef_eq name defs i id :
  walkModuleDef (TntMod name defs i) id
  = (EnterModuleDef name id :: flat_map walkDefinition defs ++ [ExitModuleDef name id])%list.
Proof.
  reflexivity.
Qed.

Lemma run_app pre post s : run (pre ++ post) s = run post (run pre s).
Proof. unfold run. apply fold_left_app. Qed.

Lemma moduleStack_updateCurrentModule s :
  moduleStack (updateCurrentModule s) = moduleStack s.
Proof.
  unfold updateCurrentModule. destruct (stack_top (moduleStack s)) as [name|]; [|reflexivity].
  destruct (Js.Map_get String.eqb (tables s) name); reflexivity.
Qed.

Lemma enterModuleDef_top s name : stack_top (moduleStack (enterModuleDef s name)) = Some name.
Proof.
  unfold enterModuleDef. rewrite moduleStack_updateCurrentModule. simpl. apply stack_top_app.
Qed.

(** A module the walk enters has a table from then on. *)
Lemma entered_module_has_table pre name id post :
  exists t, In (name, t) (tables (run (pre ++ EnterModuleDef name id :: post) newVisitor)).
Proof.
  rewrite run_app.
  change (run (EnterModuleDef name id :: post) (run pre newVisitor))
    with (run post (enterModuleDef (run pre newVisitor) name)).
  assert (Hwf : WF (enterModuleDef (run pre newVisitor) name)).
  { apply WF_enterModuleDef, WF_run, WF_new. }
  exists (currentTable (enterModuleDef (run pre newVisitor) name)).
  apply tables_run. apply (wf_top _ Hwf). apply enterModuleDef_top.
Qed.

Lemma root_has_table (tntModule : TntModule) :
  exists t, In (tnt_module_name tntModule, t) (tables (run (walkModule tntModule) newVisitor)).
Proof.
  destruct tntModule as [name defs i].
  exact (entered_module_has_table [] name i (flat_map walkDefinition defs ++ [ExitModuleDef name i])).
Qed.

(** A table holds the builtins when it has an entry for every identifier of
    the registry and the entry holds the builtin's definition. *)
Definition holds_builtins (entry : string * list (string * DefinitionTable)) : Prop :=
  Forall (fun b =>
            exists cell,
              Js.Map_get String.eqb (snd entry) b = Some cell /\
              In (builtinDefinition b) (valueDefinitions cell))
         builtinIdentifiers.

Lemma tables_hold_builtins callbacks :
  Forall holds_builtins (tablesContent (run callbacks newVisitor)).
Proof.
  pose proof (WF_run callbacks newVisitor WF_new) as Hwf.
  apply Forall_forall. intros [name table] Hin. apply Forall_forall. intros b Hb.
  apply In_tablesContent in Hin. destruct Hin as (t & Ht & ->).
  destruct (builtin_index b Hb) as (i & Hi).
  exists (cell_at (run callbacks newVisitor) i). simpl. split.
  - rewrite Map_get_tableContent. rewrite (module_table_builtin _ name t b i Hwf Ht Hi).
    reflexivity.
  - apply cells_grow_run. apply builtin_cell_new. exact Hi.
Qed.

(** C4. Every table the visitor has registered holds the builtins, after
    any sequence of calls to its methods; so does every table
    [collectDefinitions] returns, the root's, which is always among them,
    and those of the modules nested in it. *)
Theorem collectDefinitions_tables_hold_builtins (tntModule : TntModule) :
  (forall callbacks, Forall holds_builtins (tablesContent (run callbacks newVisitor))) /\
  Js.Map_has String.eqb (collectDefinitions tntModule) (tnt_module_name tntModule) = true /\
  Forall holds_builtins (collectDefinitions tntModule).
Proof.
  split; [exact tables_hold_builtins|]. unfold collectDefinitions.
  split; [|apply tables_hold_builtins].
  pose proof (WF_run (walkModule tntModule) newVisitor WF_new) as Hwf.
  unfold Js.Map_has. rewrite Map_get_tablesContent.
  destruct (root_has_table tntModule) as (t & Ht).
  apply In_Map_get in Ht; [|apply (wf_tables_keys _ (wf_store _ Hwf))].
  rewrite Ht. reflexivity.
Qed.

(** ** What the collecting methods leave alone *)

Definition same_frame (s s' : Visitor) : Prop :=
  tables s' = tables s /\ currentTable s' = currentTable s /\
  moduleStack s' = moduleStack s /\ scopeStack s' = scopeStack s.

Lemma same_frame_refl s : same_frame s s.
Proof. repeat split. Qed.

Lemma same_frame_trans s1 s2 s3 : same_frame s1 s2 -> same_frame s2 s3 -> same_frame s1 s3.
Proof.
  intros (A1 & B1 & C1 & D1) (A2 & B2 & C2 & D2). repeat split; congruence.
Qed.

Lemma same_frame_fold {A : Type} (step : Visitor -> A -> Visitor) l :
  (forall s a, same_frame s (step s a)) -> forall s, same_frame s (fold_left step l s).
Proof.
  intros Hstep. induction l as [|a l IH]; intros s; simpl; [apply same_frame_refl|].
  eapply same_frame_trans; [apply Hstep|apply IH].
Qed.

Lemma same_frame_collectValueDefinition s kind ident reference scope :
  same_frame s (collectValueDefinition s kind ident reference scope).
Proof. apply collectValueDefinition_frame. Qed.

Lemma same_frame_exportCell name s entry : same_frame s (exportCell name s entry).
Proof.
  unfold exportCell. apply same_frame_fold. intros s' d.
  apply same_frame_collectValueDefinition.
Qed.

Lemma same_frame_enterLambda s params id : same_frame s (enterLambda s params id).
Proof.
  unfold enterLambda. apply same_frame_fold. intros s' p.
  apply same_frame_collectValueDefinition.
Qed.

Lemma scopeStack_updateCurrentModule s : scopeStack (updateCurrentModule s) = scopeStack s.
Proof.
  unfold updateCurrentModule. destruct (stack_top (moduleStack s)) as [name|]; [|reflexivity].
  destruct (Js.Map_get String.eqb (tables s) name); reflexivity.
Qed.

(** ** The scope stack along a walk *)

Definition balanced (callbacks : list Callback) : Prop :=
  forall s, scopeStack (run callbacks s) = scopeStack s.

Lemma balanced_nil : balanced [].
Proof. intros s. reflexivity. Qed.

Lemma balanced_app l1 l2 : balanced l1 -> balanced l2 -> balanced (l1 ++ l2).
Proof. intros H1 H2 s. rewrite run_app, H2, H1. reflexivity. Qed.

Lemma balanced_cons c l : balanced [c] -> balanced l -> balanced (c :: l).
Proof. intros H1 H2. apply (balanced_app [c] l); assumption. Qed.

Lemma balanced_flat_map {A : Type} (f : A -> list Callback) l :
  Forall (fun a => balanced (f a)) l -> balanced (flat_map f l).
Proof.
  induction 1 as [|a l Ha _ IH]; simpl; [apply balanced_nil|].
  apply balanced_app; assumption.
Qed.

Lemma balanced_let id l : balanced l -> balanced (EnterLet id :: l ++ [ExitLet id]).
Proof.
  intros H s. change (EnterLet id :: l ++ [ExitLet id])%list
    with ([EnterLet id] ++ l ++ [ExitLet id])%list.
  rewrite !run_app. unfold run at 1. simpl. rewrite H. unfold run. simpl.
  apply removelast_last.
Qed.

Lemma balanced_collecting c :
  match c with EnterLet _ | ExitLet _ => False | _ => True end -> balanced [c].
Proof.
  intros Hc s. unfold run. simpl.
  destruct c as [name id|name id|name id|name id|name id|name ty id|name id|params id|id|id];
    simpl; try contradiction.
  - unfold enterModuleDef. rewrite scopeStack_updateCurrentModule. reflexivity.
  - unfold exitModuleDef.
    destruct (moduleStack (updateCurrentModule _)) eqn:E.
    + rewrite scopeStack_updateCurrentModule. reflexivity.
    + match goal with |- scopeStack (collectValueDefinition ?s' _ _ _ _) = _ =>
        destruct (same_frame_collectValueDefinition s' "module" name (Some id) None)
          as (_ & _ & _ & ->)
      end.
      match goal with |- scopeStack (fold_left ?f ?l ?s') = _ =>
        destruct (same_frame_fold f l (same_frame_exportCell name) s') as (_ & _ & _ & ->)
      end.
      rewrite scopeStack_updateCurrentModule. reflexivity.
  - apply same_frame_collectValueDefinition.
  - apply same_frame_collectValueDefinition.
  - unfold enterOpDef. destruct (stack_top (scopeStack s));
      apply same_frame_collectValueDefinition.
  - apply collectTypeDefinition_frame.
  - apply same_frame_collectValueDefinition.
  - apply same_frame_enterLambda.
Qed.

Section TntExprInduction.
Variable P : TntEx -> Prop.
Variable Q : TntOpDef -> Prop.
Hypothesis Hname : forall n i, P (TntName n i).
Hypothesis Hbool : forall v i, P (TntBool v i).
Hypothesis Hint : forall v i, P (TntInt v i).
Hypothesis Hstr : forall v i, P (TntStr v i).
Hypothesis Happ : forall opcode args i, Forall P args -> P (TntApp opcode args i).
Hypothesis Hlambda : forall params q body i, P body -> P (TntLambda params q body i).
Hypothesis Hlet : forall opdef body i, Q opdef -> P body -> P (TntLet opdef body i).
Hypothesis Hopdef : forall n q expr i, P expr -> Q (TntOp n q expr i).

Fixpoint tnt_expr_induction (e : TntEx) : P e :=
  match e with
  | TntName n i => Hname n i
  | TntBool v i => Hbool v i
  | TntInt v i => Hint v i
  | TntStr v i => Hstr v i
  | TntApp opcode args i =>
      Happ opcode args i
        ((fix all (l : list TntEx) : Forall P l :=
            match l with
            | [] => Forall_nil P
            | a :: rest => Forall_cons a (tnt_expr_induction a) (all rest)
            end) args)
  | TntLambda params q body i => Hlambda params q body i (tnt_expr_induction body)
  | TntLet opdef body i =>
      Hlet opdef body i (tnt_opdef_induction opdef) (tnt_expr_induction body)
  end
with tnt_opdef_induction (d : TntOpDef) : Q d :=
  match d with
  | TntOp n q expr i => Hopdef n q expr i (tnt_expr_induction expr)
  end.
End TntExprInduction.

Section TntDefInduction.
Variable P : TntDef -> Prop.
Variable Q : TntModule -> Prop.
Hypothesis Hop : forall opdef, P (TntDefOp opdef).
Hypothesis Hconst : forall n t i, P (TntConst n t i).
Hypothesis Hvar : forall n t i, P (TntVar n t i).
Hypothesis Hassume : forall n a i, P (TntAssume n a i).
Hypothesis Htypedef : forall n t i, P (TntTypeDef n t i).
Hypothesis Himport : forall n p i, P (TntImport n p i).
Hypothesis Hinstance : forall n p o i, P (TntInstance n p o i).
Hypothesis Hmoduledef : forall m i, Q m -> P (TntModuleDef m i).
Hypothesis Hmodule : forall n defs i, Forall P defs -> Q (TntMod n defs i).

Fixpoint tnt_def_induction (d : TntDef) : P d :=
  match d with
  | TntDefOp opdef => Hop opdef
  | TntConst n t i => Hconst n t i
  | TntVar n t i => Hvar n t i
  | TntAssume n a i => Hassume n a i
  | TntTypeDef n t i => Htypedef n t i
  | TntImport n p i => Himport n p i
  | TntInstance n p o i => Hinstance n p o i
  | TntModuleDef m i => Hmoduledef m i (tnt_module_induction m)
  end
with tnt_module_induction (m : TntModule) : Q m :=
  match m with
  | TntMod n defs i =>
      Hmodule n defs i
        ((fix all (l : list TntDef) : Forall P l :=
            match l with
            | [] => Forall_nil P
            | d :: rest => Forall_cons d (tnt_def_induction d) (all rest)
            end) defs)
  end.
End TntDefInduction.

Lemma walkExpression_app opcode args i :
  walkExpression (TntApp opcode args i) = flat_map walkExpression args.
Proof. reflexivity. Qed.

Lemma balanced_walkExpression : forall expr, balanced (walkExpression expr).
Proof.
  apply (tnt_expr_induction (fun e => balanced (walkExpression e))
           (fun d => balanced (walkOpDef d))).
  - intros; apply balanced_nil.
  - intros; apply balanced_nil.
  - intros; apply balanced_nil.
  - intros; apply balanced_nil.
  - intros opcode args i IH. rewrite walkExpression_app. apply balanced_flat_map. exact IH.
  - intros params q body i IH. simpl. apply balanced_cons; [|exact IH].
    apply balanced_collecting. exact I.
  - intros opdef body i IHop IHbody. simpl. rewrite app_assoc.
    apply (balanced_let i (walkOpDef opdef ++ walkExpression body)).
    apply balanced_app; assumption.
  - intros n q expr i IH. simpl. apply balanced_cons; [|exact IH].
    apply balanced_collecting. exact I.
Qed.

Lemma balanced_walkOpDef opdef : balanced (walkOpDef opdef).
Proof.
  destruct opdef as [n q expr i]. simpl. apply balanced_cons.
  - apply balanced_collecting. exact I.
  - apply balanced_walkExpression.
Qed.

Lemma balanced_walkDefinition : forall def, balanced (walkDefinition def).
Proof.
  apply (tnt_def_induction (fun d => balanced (walkDefinition d))
           (fun m => forall id, balanced (walkModuleDef m id))).
  - intros opdef. apply balanced_walkOpDef.
  - intros. apply balanced_collecting. exact I.
  - intros. apply balanced_collecting. exact I.
  - intros n a i. simpl. apply balanced_cons; [|apply balanced_walkExpression].
    apply balanced_collecting. exact I.
  - intros. apply balanced_collecting. exact I.
  - intros. apply balanced_nil.
  - intros n p o i. simpl. apply balanced_flat_map. apply Forall_forall.
    intros x _. apply balanced_walkExpression.
  - intros m i IH. simpl. apply IH.
  - intros n defs i IH id. rewrite walkModuleDef_eq. apply balanced_cons.
    + apply balanced_collecting. exact I.
    + apply balanced_app; [apply balanced_flat_map; exact IH|].
      apply balanced_collecting. exact I.
Qed.


(** ** Modules of the forest and their declarations *)

(** [ModuleWithin inner root]: [inner] is [root] or a module nested in it,
    at any depth. *)
Inductive ModuleWithin (inner : TntModule) : TntModule -> Prop :=
| within_self : ModuleWithin inner inner
| within_nested name defs id sub subid :
    In (TntModuleDef sub subid) defs ->
    ModuleWithin inner sub ->
    ModuleWithin inner (TntMod name defs id).

(** The value definition a module-level declaration introduces: its kind,
    name and id. *)
Definition declared (def : TntDef) : option (string * string * Z) :=
  match def with
  | TntDefOp (TntOp name _ _ id) => Some ("def", name, id)
  | TntConst name _ id => Some ("const", name, id)
  | TntVar name _ id => Some ("var", name, id)
  | TntAssume name _ id => Some ("assumption", name, id)
  | _ => None
  end.

Lemma flat_map_split {A B : Type} (f : A -> list B) l1 x l2 :
  flat_map f (l1 ++ x :: l2) = (flat_map f l1 ++ f x ++ flat_map f l2)%list.
Proof. rewrite flat_map_app. reflexivity. Qed.


(** ** The current table is a module's table once a module is entered *)






Lemma builtin_not_discard b : In b builtinIdentifiers -> String.eqb b "_" = false.
Proof.
  assert (H : forallb (fun b => negb (String.eqb b "_")) builtinIdentifiers = true)
    by (vm_compute; reflexivity).
  intros Hin. rewrite forallb_forall in H. apply negb_true_iff. apply H. exact Hin.
Qed.





(** ** The effect of collecting one definition *)



Lemma Map_get_app_one {V : Type} (m : list (string * V)) k' v k :
  Js.Map_get String.eqb (m ++ [(k', v)]) k
  = match Js.Map_get String.eqb m k with
    | Some x => Some x
    | None => if String.eqb k' k then Some v else None
    end.
Proof.
  induction m as [|[k0 v0] m IH]; simpl; [reflexivity|].
  destruct (String.eqb k0 k); [reflexivity|exact IH].
Qed.



(** The cell a definition of [ident] goes to: the one the current table
    has for it, or a new one. *)
Definition target (s : Visitor) (ident : string) : CellRef :=
  match Js.Map_get String.eqb (map_at s (currentTable s)) ident with
  | Some c => c
  | None => List.length (cells s)
  end.

Lemma target_ensureCell s ident :
  WFstore s ->
  Js.Map_get String.eqb (map_at (ensureCell s ident) (currentTable s)) ident
  = Some (target s ident) /\
  (target s ident < List.length (cells (ensureCell s ident)))%nat.
Proof.
  intros Hwf. unfold target. rewrite map_at_ensureCell by exact Hwf.
  rewrite Nat.eqb_refl, cells_ensureCell. unfold Js.Map_has.
  destruct (Js.Map_get String.eqb (map_at s (currentTable s)) ident) as [c|] eqn:Hget; simpl.
  - split; [exact Hget|]. apply Map_get_In in Hget. eapply (wf_cells s Hwf). exact Hget.
  - rewrite Map_get_app_one, Hget, String.eqb_refl. split; [reflexivity|].
    rewrite length_app. simpl. lia.
Qed.

Lemma cell_at_push s ident f c :
  WFstore s ->
  cell_at (updateCell (ensureCell s ident) ident f) c
  = if Nat.eqb (target s ident) c then f (cell_at s c) else cell_at s c.
Proof.
  intros Hwf. destruct (target_ensureCell s ident Hwf) as [Hget Hlt].
  rewrite cell_at_updateCell.
  destruct (ensureCell_frame s ident) as (_ & -> & _).
  rewrite Hget, cell_at_ensureCell.
  destruct (Nat.eqb (target s ident) c) eqn:E; simpl; [|reflexivity].
  apply Nat.eqb_eq in E. subst c.
  replace (Nat.ltb (target s ident) (List.length (cells (ensureCell s ident)))) with true;
    [reflexivity|]. symmetry. apply Nat.ltb_lt. exact Hlt.
Qed.

Lemma Map_get_push s ident f k :
  WFstore s ->
  Js.Map_get String.eqb (map_at (updateCell (ensureCell s ident) ident f) (currentTable s)) k
  = if String.eqb ident k then Some (target s ident)
    else Js.Map_get String.eqb (map_at s (currentTable s)) k.
Proof.
  intros Hwf. rewrite map_at_updateCell.
  destruct (String.eqb ident k) eqn:E.
  - apply String.eqb_eq in E. subst k. apply target_ensureCell. exact Hwf.
  - rewrite map_at_ensureCell by exact Hwf. rewrite Nat.eqb_refl.
    destruct (Js.Map_has String.eqb (map_at s (currentTable s)) ident); simpl; [reflexivity|].
    rewrite Map_get_app_one, E. destruct (Js.Map_get _ _ k); reflexivity.
Qed.







(** ** Namespaced identifiers *)

Fixpoint has_colon (s : string) : bool :=
  match s with
  | EmptyString => false
  | String c rest => Ascii.eqb c ":" || has_colon rest
  end.

Lemma has_colon_app a b : has_colon (a ++ b) = has_colon a || has_colon b.
Proof.
  induction a as [|c a IH]; simpl; [reflexivity|]. rewrite IH. apply orb_assoc.
Qed.

Lemma has_colon_namespaced name x : has_colon (name ++ "::" ++ x) = true.
Proof. rewrite has_colon_app. simpl. apply orb_true_r. Qed.


Lemma namespaced_not_discard name x : String.eqb (name ++ "::" ++ x) "_" = false.
Proof.
  apply String.eqb_neq. intros H.
  assert (Hc : has_colon (name ++ "::" ++ x) = has_colon "_") by (rewrite H; reflexivity).
  rewrite has_colon_namespaced in Hc. discriminate.
Qed.

(** ** Leaving a nested module *)





















Lemma removelast_two {A : Type} (l : list A) x y : removelast (l ++ [x; y]) = (l ++ [x])%list.
Proof.
  change (l ++ [x; y])%list with (l ++ [x] ++ [y])%list. rewrite app_assoc.
  apply removelast_last.
Qed.



(** ** Concrete runs *)

(** The entry a module's table holds for an identifier in what
    [collectDefinitions] returns. *)
Definition entryOf (result : list (string * list (string * DefinitionTable)))
  (moduleName k : string) : option DefinitionTable :=
  match Js.Map_get String.eqb result moduleName with
  | Some table => Js.Map_get String.eqb table k
  | None => None
  end.




(** The test [!d.scope] takes the scope id [0n] for no scope: the parameter
    of a lambda whose id is [0n] is exported to the enclosing module. *)
Lemma exitModuleDef_exports_scope_zero :
  entryOf (collectDefinitions
             (TntMod "Outer"
                [TntModuleDef
                   (TntMod "Inner"
                      [TntDefOp (TntOp "f" "def" (TntLambda ["x"] "def" (TntName "x" 1) 0) 2)] 3) 4]
                5))
          "Outer" "Inner::x"
  = Some (mkDefinitionTable [mkValueDefinition "param" "Inner::x" (Some 0) None] []).
Proof. vm_compute. reflexivity. Qed.

(** C6 (the code departs from it). A value definition named [_] is never
    collected, but [collectTypeDefinition] has no such test: a type
    declaration named [_] is recorded under [_]. *)
Theorem type_named_discard_is_recorded :
  (forall s kind reference scope, collectValueDefinition s kind "_" reference scope = s) /\
  entryOf (collectDefinitions (TntMod "M" [TntTypeDef "_" (Some (TInt None)) 1] 2)) "M" "_"
  = Some (mkDefinitionTable [] [mkTypeDefinition "_" (Some (TInt None)) (Some 1)]).
Proof.
  split; [reflexivity|]. vm_compute. reflexivity.
Qed.

(** C10, on [module Root { module A { def head = 1 }  module B { var v: int } }]:
    the entry of [B] for [head] holds the definition of [A]. *)
Lemma builtin_cells_are_shared_example :
  entryOf (collectDefinitions
             (TntMod "Root"
                [TntModuleDef (TntMod "A" [TntDefOp (TntOp "head" "def" (TntInt 1 1) 2)] 3) 4;
                 TntModuleDef (TntMod "B" [TntVar "v" (TInt None) 5] 6) 7]
                8))
          "B" "head"
  = Some (mkDefinitionTable
            [builtinDefinition "head"; mkValueDefinition "def" "head" (Some 2) None] []).
Proof. vm_compute. reflexivity. Qed.

(** ** What the cells of a table hold *)

(** The definitions of a cell carry the key the cell sits under, in every
    map, and no value definition is named [_]. *)
Definition keyed (k : string) (cell : DefinitionTable) : Prop :=
  Forall (fun d => identifier d = k) (valueDefinitions cell) /\
  Forall (fun d => type_identifier d = k) (typeDefinitions cell).

Definition no_discard (cell : DefinitionTable) : Prop :=
  Forall (fun d => identifier d <> "_") (valueDefinitions cell).

Record Coherent (s : Visitor) : Prop := {
  co_keyed : forall t k c, In (k, c) (map_at s t) -> keyed k (cell_at s c);
  co_discard : forall c, no_discard (cell_at s c)
}.

Lemma Coherent_same s s' :
  cells s' = cells s -> maps s' = maps s -> Coherent s -> Coherent s'.
Proof.
  intros Hc Hm [Hk Hd]. constructor.
  - intros t k c. unfold map_at, cell_at. rewrite Hc, Hm. apply Hk.
  - intros c. unfold cell_at. rewrite Hc. apply Hd.
Qed.

Lemma keyed_empty k : keyed k emptyTable.
Proof. split; constructor. Qed.

Lemma cell_at_fresh s c : (List.length (cells s) <= c)%nat -> cell_at s c = emptyTable.
Proof. intros H. unfold cell_at. apply nth_overflow. exact H. Qed.

(** A push into the cell of [ident] in the current table. *)
Lemma Coherent_push s ident f :
  WFstore s -> Coherent s ->
  (forall cell, keyed ident cell -> keyed ident (f cell)) ->
  (forall cell, no_discard cell -> no_discard (f cell)) ->
  Coherent (updateCell (ensureCell s ident) ident f).
Proof.
  intros Hwf [Hk Hd] Hfk Hfd. constructor.
  - intros t k c Hin. rewrite map_at_updateCell in Hin.
    rewrite cell_at_push by exact Hwf.
    apply In_map_at_ensureCell in Hin; [|exact Hwf].
    destruct Hin as [Hin|(-> & -> & -> & Hnone)].
    + destruct (Nat.eqb (target s ident) c) eqn:E; [|apply (Hk t); exact Hin].
      apply Nat.eqb_eq in E.
      assert (Hident : k = ident).
      { unfold target in E.
        destruct (Js.Map_get String.eqb (map_at s (currentTable s)) ident) as [c'|] eqn:Hget.
        - subst c'. apply Map_get_In in Hget.
          destruct (wf_owner s Hwf _ _ _ _ _ Hin Hget) as [Heq _]. exact Heq.
        - apply (wf_cells s Hwf) in Hin. lia. }
      subst k. apply Hfk. apply (Hk t). exact Hin.
    + unfold target. rewrite Hnone, Nat.eqb_refl. apply Hfk.
      rewrite cell_at_fresh by lia. apply keyed_empty.
  - intros c. rewrite cell_at_push by exact Hwf.
    destruct (Nat.eqb (target s ident) c); [apply Hfd|]; apply Hd.
Qed.

Lemma Coherent_collectValueDefinition s kind ident reference scope :
  WFstore s -> Coherent s -> Coherent (collectValueDefinition s kind ident reference scope).
Proof.
  intros Hwf Hco. unfold collectValueDefinition.
  destruct (String.eqb ident "_") eqn:E; [exact Hco|].
  apply String.eqb_neq in E. apply Coherent_push; try assumption.
  - intros cell [Hv Ht]. split; [|exact Ht]. simpl. apply Forall_app. split; [exact Hv|].
    constructor; [reflexivity|constructor].
  - intros cell Hv. unfold no_discard. simpl. apply Forall_app. split; [exact Hv|].
    constructor; [exact E|constructor].
Qed.

Lemma Coherent_collectTypeDefinition s ident type reference :
  WFstore s -> Coherent s -> Coherent (collectTypeDefinition s ident type reference).
Proof.
  intros Hwf Hco. unfold collectTypeDefinition. apply Coherent_push; try assumption.
  - intros cell [Hv Ht]. split; [exact Hv|]. simpl. apply Forall_app. split; [exact Ht|].
    constructor; [reflexivity|constructor].
  - intros cell Hv. exact Hv.
Qed.

Lemma map_at_updateCurrentModule s t e :
  In e (map_at (updateCurrentModule s) t) ->
  In e (map_at s t) \/ In e (map_at s (defaultDefinitions s)).
Proof.
  unfold updateCurrentModule. destruct (stack_top (moduleStack s)) as [name|]; [|auto].
  destruct (Js.Map_get String.eqb (tables s) name); [auto|].
  unfold map_at at 1. simpl.
  destruct (Nat.ltb t (List.length (maps s))) eqn:L.
  - apply Nat.ltb_lt in L. rewrite app_nth1 by exact L. auto.
  - apply Nat.ltb_ge in L. rewrite app_nth2 by exact L.
    destruct (t - List.length (maps s))%nat as [|[|n]]; simpl; auto; intros [].
Qed.

Lemma Coherent_updateCurrentModule s : Coherent s -> Coherent (updateCurrentModule s).
Proof.
  intros [Hk Hd]. constructor.
  - intros t k c Hin. unfold cell_at. rewrite cells_updateCurrentModule.
    apply map_at_updateCurrentModule in Hin. destruct Hin as [Hin|Hin]; eapply Hk; exact Hin.
  - intros c. unfold cell_at. rewrite cells_updateCurrentModule. apply Hd.
Qed.

Lemma Coherent_fold {A : Type} (step : Visitor -> A -> Visitor) l :
  (forall s a, WF s -> WF (step s a)) ->
  (forall s a, WF s -> Coherent s -> Coherent (step s a)) ->
  forall s, WF s -> Coherent s -> Coherent (fold_left step l s).
Proof.
  intros Hwf Hco. induction l as [|a l IH]; intros s Hs Hc; simpl; [exact Hc|].
  apply IH; [apply Hwf|apply Hco]; assumption.
Qed.

Lemma Coherent_exportCell name s entry : WF s -> Coherent s -> Coherent (exportCell name s entry).
Proof.
  unfold exportCell. apply Coherent_fold.
  - intros s' d Hs'. apply WF_collectValueDefinition. exact Hs'.
  - intros s' d Hs' Hc'. apply Coherent_collectValueDefinition; [apply Hs'|exact Hc'].
Qed.

Lemma Coherent_visit s c : WF s -> Coherent s -> Coherent (visit s c).
Proof.
  intros Hwf Hco.
  destruct c as [name id|name id|name id|name id|name id|name ty id|name id|params id|id|id];
    simpl.
  - unfold enterModuleDef. apply Coherent_updateCurrentModule.
    eapply Coherent_same; [| |exact Hco]; reflexivity.
  - unfold exitModuleDef.
    set (s1 := updateCurrentModule (withModuleStack s (removelast (moduleStack s)))).
    assert (Hwf1 : WF s1).
    { apply WF_updateCurrentModule.
      - apply WFstore_withModuleStack, Hwf.
      - simpl. intros n Hin. apply (wf_stack s Hwf). apply In_removelast, In_removelast, Hin. }
    assert (Hco1 : Coherent s1).
    { apply Coherent_updateCurrentModule. eapply Coherent_same; [| |exact Hco]; reflexivity. }
    destruct (moduleStack s1); [exact Hco1|].
    apply Coherent_collectValueDefinition.
    + apply WF_fold_exportCell. exact Hwf1.
    + apply Coherent_fold; try assumption.
      * intros s' e. apply WF_exportCell.
      * intros s' e. apply Coherent_exportCell.
  - apply Coherent_collectValueDefinition; [apply Hwf|exact Hco].
  - apply Coherent_collectValueDefinition; [apply Hwf|exact Hco].
  - unfold enterOpDef. destruct (stack_top (scopeStack s));
      (apply Coherent_collectValueDefinition; [apply Hwf|exact Hco]).
  - apply Coherent_collectTypeDefinition; [apply Hwf|exact Hco].
  - apply Coherent_collectValueDefinition; [apply Hwf|exact Hco].
  - unfold enterLambda. apply Coherent_fold; try assumption.
    + intros s' p Hs'. apply WF_collectValueDefinition. exact Hs'.
    + intros s' p Hs' Hc'. apply Coherent_collectValueDefinition; [apply Hs'|exact Hc'].
  - eapply Coherent_same; [| |exact Hco]; reflexivity.
  - eapply Coherent_same; [| |exact Hco]; reflexivity.
Qed.

Lemma Coherent_run callbacks : forall s, WF s -> Coherent s -> Coherent (run callbacks s).
Proof.
  unfold run. induction callbacks as [|c callbacks IH]; intros s Hwf Hco; simpl; [exact Hco|].
  apply IH; [apply WF_visit, Hwf|apply Coherent_visit; assumption].
Qed.

Lemma cell_at_new c :
  cell_at newVisitor c
  = match nth_error builtinIdentifiers c with
    | Some b => mkDefinitionTable [builtinDefinition b] []
    | None => emptyTable
    end.
Proof.
  unfold cell_at.
  change (cells newVisitor)
    with (map (fun i => mkDefinitionTable [builtinDefinition i] []) builtinIdentifiers).
  destruct (nth_error builtinIdentifiers c) as [b|] eqn:E.
  - rewrite (nth_map_default _ _ _ ""%string) by (apply nth_error_Some; congruence).
    apply nth_error_nth with (d := ""%string) in E. rewrite E. reflexivity.
  - apply nth_overflow. rewrite length_map. apply nth_error_None. exact E.
Qed.

Lemma Coherent_new : Coherent newVisitor.
Proof.
  constructor.
  - intros t k c Hin. rewrite map_at_new in Hin. destruct t as [|t]; [|destruct Hin].
    pose proof (builtinMap_cells _ _ Hin) as Hlt.
    apply In_combine_seq with (d := ""%string) in Hin. destruct Hin as [Hin _].
    rewrite Nat.sub_0_r in Hin. rewrite cell_at_new.
    rewrite (nth_error_nth' _ ""%string) by exact Hlt. rewrite Hin.
    split; repeat constructor.
  - intros c. rewrite cell_at_new. destruct (nth_error builtinIdentifiers c) as [b|] eqn:E;
      [|constructor].
    constructor; [|constructor]. simpl. intros Heq. subst b.
    apply nth_error_In in E. apply builtin_not_discard in E. discriminate E.
Qed.

Lemma In_tableContent s t k cell :
  In (k, cell) (tableContent s t) -> exists c, In (k, c) (map_at s t) /\ cell = cell_at s c.
Proof.
  unfold tableContent. intros H. apply in_map_iff in H.
  destruct H as ([k' c] & Heq & Hin). inversion Heq; subst. exists c. split; [exact Hin|reflexivity].
Qed.

(** After any sequence of calls to the visitor, every definition of every
    table sits under its own identifier: a value definition recorded for
    the key [k] has the identifier [k], and so has a type definition. *)
Theorem tables_are_keyed_by_identifier (callbacks : list Callback) :
  Forall (fun module =>
            Forall (fun entry =>
                      Forall (fun d => identifier d = fst entry) (valueDefinitions (snd entry)) /\
                      Forall (fun d => type_identifier d = fst entry)
                             (typeDefinitions (snd entry)))
                   (snd module))
         (tablesContent (run callbacks newVisitor)).
Proof.
  pose proof (Coherent_run callbacks newVisitor WF_new Coherent_new) as Hco.
  apply Forall_forall. intros [name table] Hin. apply Forall_forall. intros [k cell] Hk.
  apply In_tablesContent in Hin. destruct Hin as (t & _ & ->).
  apply In_tableContent in Hk. destruct Hk as (c & Hc & ->).
  exact (co_keyed _ Hco t k c Hc).
Qed.

(** After any sequence of calls to the visitor, no table holds a value
    definition named [_], under any key: [_] is never recorded as a value,
    neither for a declaration, nor for a parameter, nor as the export of a
    nested module. *)
Theorem discard_is_never_a_value (callbacks : list Callback) :
  Forall (fun module =>
            Forall (fun entry =>
                      Forall (fun d => identifier d <> "_") (valueDefinitions (snd entry)))
                   (snd module))
         (tablesContent (run callbacks newVisitor)).
Proof.
  pose proof (Coherent_run callbacks newVisitor WF_new Coherent_new) as Hco.
  apply Forall_forall. intros [name table] Hin. apply Forall_forall. intros [k cell] Hk.
  apply In_tablesContent in Hin. destruct Hin as (t & _ & ->).
  apply In_tableContent in Hk. destruct Hk as (c & _ & ->).
  exact (co_discard _ Hco c).
Qed.

(** ** Nothing is taken back *)

(** A list that continues another one. *)
Definition extends {A : Type} (l l' : list A) : Prop := exists more, l' = (l ++ more)%list.

Lemma extends_refl {A : Type} (l : list A) : extends l l.
Proof. exists []. rewrite app_nil_r. reflexivity. Qed.

Lemma extends_trans {A : Type} (l1 l2 l3 : list A) :
  extends l1 l2 -> extends l2 l3 -> extends l1 l3.
Proof. intros (m1 & ->) (m2 & ->). exists (m1 ++ m2)%list. rewrite app_assoc. reflexivity. Qed.

Definition cells_extend (s s' : Visitor) : Prop :=
  forall c,
    extends (valueDefinitions (cell_at s c)) (valueDefinitions (cell_at s' c)) /\
    extends (typeDefinitions (cell_at s c)) (typeDefinitions (cell_at s' c)).

Definition maps_grow (s s' : Visitor) : Prop :=
  forall t e, In e (map_at s t) -> In e (map_at s' t).

Definition grows (s s' : Visitor) : Prop :=
  cells_extend s s' /\ maps_grow s s' /\ (forall e, In e (tables s) -> In e (tables s')).

Lemma grows_refl s : grows s s.
Proof.
  split; [|split]; [|intros t e H; exact H|intros e H; exact H].
  intros c. split; apply extends_refl.
Qed.

Lemma grows_trans s1 s2 s3 : grows s1 s2 -> grows s2 s3 -> grows s1 s3.
Proof.
  intros (C1 & M1 & T1) (C2 & M2 & T2). split; [|split].
  - intros c. destruct (C1 c) as [V1 Y1]. destruct (C2 c) as [V2 Y2].
    split; eapply extends_trans; eassumption.
  - intros t e H. apply M2, M1, H.
  - intros e H. apply T2, T1, H.
Qed.

Lemma grows_same s s' :
  cells s' = cells s -> maps s' = maps s -> tables s' = tables s -> grows s s'.
Proof.
  intros Hc Hm Ht. split; [|split].
  - intros c. unfold cell_at. rewrite Hc. split; apply extends_refl.
  - intros t e. unfold map_at. rewrite Hm. auto.
  - intros e. rewrite Ht. auto.
Qed.

Lemma grows_push s ident f :
  WFstore s ->
  (forall cell, extends (valueDefinitions cell) (valueDefinitions (f cell)) /\
                extends (typeDefinitions cell) (typeDefinitions (f cell))) ->
  grows s (updateCell (ensureCell s ident) ident f).
Proof.
  intros Hwf Hf. split; [|split].
  - intros c. rewrite cell_at_push by exact Hwf.
    destruct (Nat.eqb (target s ident) c); [apply Hf|split; apply extends_refl].
  - intros t e Hin. rewrite map_at_updateCell. apply map_at_ensureCell_mono; assumption.
  - intros e. destruct (updateCell_frame (ensureCell s ident) ident f) as (-> & _).
    destruct (ensureCell_frame s ident) as (-> & _). auto.
Qed.

Lemma grows_collectValueDefinition s kind ident reference scope :
  WFstore s -> grows s (collectValueDefinition s kind ident reference scope).
Proof.
  intros Hwf. unfold collectValueDefinition.
  destruct (String.eqb ident "_"); [apply grows_refl|].
  apply grows_push; [exact Hwf|]. intros cell. simpl. split; [eexists; reflexivity|apply extends_refl].
Qed.

Lemma grows_collectTypeDefinition s ident type reference :
  WFstore s -> grows s (collectTypeDefinition s ident type reference).
Proof.
  intros Hwf. unfold collectTypeDefinition.
  apply grows_push; [exact Hwf|]. intros cell. simpl. split; [apply extends_refl|eexists; reflexivity].
Qed.

Lemma grows_updateCurrentModule s : grows s (updateCurrentModule s).
Proof.
  split; [|split].
  - intros c. unfold cell_at. rewrite cells_updateCurrentModule. split; apply extends_refl.
  - intros t e. unfold updateCurrentModule.
    destruct (stack_top (moduleStack s)) as [name|]; [|auto].
    destruct (Js.Map_get String.eqb (tables s) name); [auto|].
    unfold map_at. simpl. intros Hin.
    destruct (Nat.ltb t (List.length (maps s))) eqn:L.
    + apply Nat.ltb_lt in L. rewrite app_nth1 by exact L. exact Hin.
    + apply Nat.ltb_ge in L. rewrite nth_overflow in Hin by exact L. destruct Hin.
  - intros e. apply tables_updateCurrentModule.
Qed.

Lemma grows_fold {A : Type} (step : Visitor -> A -> Visitor) l :
  (forall s a, WF s -> WF (step s a)) ->
  (forall s a, WF s -> grows s (step s a)) ->
  forall s, WF s -> grows s (fold_left step l s).
Proof.
  intros Hwf Hgr. induction l as [|a l IH]; intros s Hs; simpl; [apply grows_refl|].
  eapply grows_trans; [apply Hgr; exact Hs|apply IH, Hwf, Hs].
Qed.

Lemma grows_exportCell name s entry : WF s -> grows s (exportCell name s entry).
Proof.
  unfold exportCell. apply grows_fold.
  - intros s' d Hs'. apply WF_collectValueDefinition. exact Hs'.
  - intros s' d Hs'. apply grows_collectValueDefinition. apply Hs'.
Qed.

Lemma grows_visit s c : WF s -> grows s (visit s c).
Proof.
  intros Hwf.
  destruct c as [name id|name id|name id|name id|name id|name ty id|name id|params id|id|id];
    simpl.
  - unfold enterModuleDef. eapply grows_trans; [|apply grows_updateCurrentModule].
    apply grows_same; reflexivity.
  - unfold exitModuleDef.
    set (s1 := updateCurrentModule (withModuleStack s (removelast (moduleStack s)))).
    assert (Hwf1 : WF s1).
    { apply WF_updateCurrentModule.
      - apply WFstore_withModuleStack, Hwf.
      - simpl. intros n Hin. apply (wf_stack s Hwf). apply In_removelast, In_removelast, Hin. }
    assert (Hg1 : grows s s1).
    { eapply grows_trans; [|apply grows_updateCurrentModule]. apply grows_same; reflexivity. }
    destruct (moduleStack s1); [exact Hg1|].
    eapply grows_trans; [exact Hg1|].
    eapply grows_trans;
      [|apply grows_collectValueDefinition; apply WF_fold_exportCell; exact Hwf1].
    apply grows_fold; [intros s' e; apply WF_exportCell
                      |intros s' e; apply grows_exportCell|exact Hwf1].
  - apply grows_collectValueDefinition, Hwf.
  - apply grows_collectValueDefinition, Hwf.
  - unfold enterOpDef. destruct (stack_top (scopeStack s));
      apply grows_collectValueDefinition, Hwf.
  - apply grows_collectTypeDefinition, Hwf.
  - apply grows_collectValueDefinition, Hwf.
  - unfold enterLambda. apply grows_fold; [| |exact Hwf].
    + intros s' p Hs'. apply WF_collectValueDefinition. exact Hs'.
    + intros s' p Hs'. apply grows_collectValueDefinition. apply Hs'.
  - apply grows_same; reflexivity.
  - apply grows_same; reflexivity.
Qed.

Lemma grows_run callbacks : forall s, WF s -> grows s (run callbacks s).
Proof.
  unfold run. induction callbacks as [|c callbacks IH]; intros s Hwf; simpl; [apply grows_refl|].
  eapply grows_trans; [apply grows_visit; exact Hwf|apply IH, WF_visit, Hwf].
Qed.

(** The visitor takes nothing back. Whatever calls follow, a table that is
    registered stays registered under its name, an identifier it holds stays
    in it, and the value and type definitions recorded for the identifier
    stay where they are, in their order: later definitions are added behind
    them. *)
Theorem recorded_definitions_stay (before after : list Callback)
  (name identifier : string) (table : list (string * DefinitionTable)) (cell : DefinitionTable) :
  In (name, table) (tablesContent (run before newVisitor)) ->
  Js.Map_get String.eqb table identifier = Some cell ->
  exists table' cell',
    In (name, table') (tablesContent (run (before ++ after) newVisitor)) /\
    Js.Map_get String.eqb table' identifier = Some cell' /\
    extends (valueDefinitions cell) (valueDefinitions cell') /\
    extends (typeDefinitions cell) (typeDefinitions cell').
Proof.
  intros Hin Hget. rewrite run_app.
  set (s := run before newVisitor) in *. set (s' := run after s).
  assert (Hwf : WF s) by (apply WF_run, WF_new).
  assert (Hwf' : WF s') by (apply WF_run, Hwf).
  destruct (grows_run after s Hwf) as (Hcells & Hmaps & Htables). fold s' in Hcells, Hmaps, Htables.
  apply In_tablesContent in Hin. destruct Hin as (t & Ht & ->).
  rewrite Map_get_tableContent in Hget.
  destruct (Js.Map_get String.eqb (map_at s t) identifier) as [c|] eqn:Hc; [|discriminate].
  simpl in Hget. inversion Hget; subst cell.
  exists (tableContent s' t), (cell_at s' c). split; [|split].
  - unfold tablesContent. apply in_map_iff. exists (name, t). split; [reflexivity|].
    apply Htables. exact Ht.
  - rewrite Map_get_tableContent.
    rewrite (In_Map_get (map_at s' t) identifier c); [reflexivity| |].
    + apply (wf_keys s' (wf_store s' Hwf')).
    + apply Hmaps. apply Map_get_In. exact Hc.
  - apply Hcells.
Qed.
(** The table of a module in what the visitor has collected. *)
Definition tableOf (result : list (string * list (string * DefinitionTable)))
  (moduleName : string) : list (string * DefinitionTable) :=
  match Js.Map_get String.eqb result moduleName with
  | Some table => table
  | None => []
  end.

(** The variable [x] of a module [M], and a second declaration of [x]. *)
Definition declaringX : list Callback := [EnterModuleDef "M" 1; EnterVar "x" 2].
Definition declaringXAgain : list Callback := [EnterVar "x" 3].

Lemma recorded_definitions_stay_witness :
  In ("M", tableOf (tablesContent (run declaringX newVisitor)) "M")
     (tablesContent (run declaringX newVisitor)) /\
  Js.Map_get String.eqb (tableOf (tablesContent (run declaringX newVisitor)) "M") "x"
  = Some (mkDefinitionTable [mkValueDefinition "var" "x" (Some 2) None] []) /\
  exists table' cell',
    In ("M", table') (tablesContent (run (declaringX ++ declaringXAgain) newVisitor)) /\
    Js.Map_get String.eqb table' "x" = Some cell' /\
    extends [mkValueDefinition "var" "x" (Some 2) None] (valueDefinitions cell') /\
    extends [] (typeDefinitions cell').
Proof.
  assert (Hin : In ("M", tableOf (tablesContent (run declaringX newVisitor)) "M")
                   (tablesContent (run declaringX newVisitor)))
    by (vm_compute; left; reflexivity).
  assert (Hget : Js.Map_get String.eqb (tableOf (tablesContent (run declaringX newVisitor)) "M") "x"
                 = Some (mkDefinitionTable [mkValueDefinition "var" "x" (Some 2) None] []))
    by (vm_compute; reflexivity).
  split; [exact Hin|]. split; [exact Hget|].
  exact (recorded_definitions_stay declaringX declaringXAgain "M" "x" _ _ Hin Hget).
Defined.

(** ** Every declaration of the forest is recorded *)

(** The module stack along a walk. *)
Definition mbalanced (callbacks : list Callback) : Prop :=
  forall s, moduleStack (run callbacks s) = moduleStack s.

Lemma mbalanced_nil : mbalanced [].
Proof. intros s. reflexivity. Qed.

Lemma mbalanced_app l1 l2 : mbalanced l1 -> mbalanced l2 -> mbalanced (l1 ++ l2).
Proof. intros H1 H2 s. rewrite run_app, H2, H1. reflexivity. Qed.

Lemma mbalanced_flat_map {A : Type} (f : A -> list Callback) l :
  Forall (fun a => mbalanced (f a)) l -> mbalanced (flat_map f l).
Proof.
  induction 1 as [|a l Ha _ IH]; simpl; [apply mbalanced_nil|].
  apply mbalanced_app; assumption.
Qed.

Lemma moduleStack_exitModuleDef s name id :
  moduleStack (exitModuleDef s name id) = removelast (moduleStack s).
Proof.
  unfold exitModuleDef.
  set (s1 := updateCurrentModule (withModuleStack s (removelast (moduleStack s)))).
  assert (H1 : moduleStack s1 = removelast (moduleStack s))
    by (unfold s1; rewrite moduleStack_updateCurrentModule; reflexivity).
  destruct (moduleStack s1) eqn:E; [congruence|].
  match goal with |- moduleStack (collectValueDefinition ?s' _ _ _ _) = _ =>
    destruct (same_frame_collectValueDefinition s' "module" name (Some id) None)
      as (_ & _ & -> & _)
  end.
  match goal with |- moduleStack (fold_left ?f ?l ?s') = _ =>
    destruct (same_frame_fold f l (same_frame_exportCell name) s') as (_ & _ & -> & _)
  end.
  congruence.
Qed.

Lemma mbalanced_collecting c :
  match c with EnterModuleDef _ _ | ExitModuleDef _ _ => False | _ => True end ->
  mbalanced [c].
Proof.
  intros Hc s. unfold run. simpl.
  destruct c as [name id|name id|name id|name id|name id|name ty id|name id|params id|id|id];
    simpl; try contradiction; try reflexivity.
  - apply same_frame_collectValueDefinition.
  - apply same_frame_collectValueDefinition.
  - unfold enterOpDef. destruct (stack_top (scopeStack s));
      apply same_frame_collectValueDefinition.
  - apply collectTypeDefinition_frame.
  - apply same_frame_collectValueDefinition.
  - apply same_frame_enterLambda.
Qed.

Lemma mbalanced_cons c l : mbalanced [c] -> mbalanced l -> mbalanced (c :: l).
Proof. intros H1 H2. apply (mbalanced_app [c] l); assumption. Qed.

Lemma mbalanced_walkExpression : forall expr, mbalanced (walkExpression expr).
Proof.
  apply (tnt_expr_induction (fun e => mbalanced (walkExpression e))
           (fun o => mbalanced (walkOpDef o))).
  - intros; apply mbalanced_nil.
  - intros; apply mbalanced_nil.
  - intros; apply mbalanced_nil.
  - intros; apply mbalanced_nil.
  - intros opcode args i IH. rewrite walkExpression_app. apply mbalanced_flat_map. exact IH.
  - intros params q body i IH. simpl. apply mbalanced_cons; [apply mbalanced_collecting; exact I|].
    exact IH.
  - intros opdef body i IHop IHbody. simpl.
    apply mbalanced_cons; [apply mbalanced_collecting; exact I|].
    apply mbalanced_app; [exact IHop|].
    apply mbalanced_app; [exact IHbody|apply mbalanced_collecting; exact I].
  - intros n q expr i IH. simpl. apply mbalanced_cons; [apply mbalanced_collecting; exact I|].
    exact IH.
Qed.

Lemma mbalanced_walkOpDef opdef : mbalanced (walkOpDef opdef).
Proof.
  destruct opdef as [n q expr i]. simpl.
  apply mbalanced_cons; [apply mbalanced_collecting; exact I|apply mbalanced_walkExpression].
Qed.

Lemma mbalanced_module name id l :
  mbalanced l -> mbalanced (EnterModuleDef name id :: l ++ [ExitModuleDef name id]).
Proof.
  intros H s. change (EnterModuleDef name id :: l ++ [ExitModuleDef name id])%list
    with ([EnterModuleDef name id] ++ l ++ [ExitModuleDef name id])%list.
  rewrite !run_app. unfold run at 1. simpl. rewrite moduleStack_exitModuleDef, H.
  unfold run. simpl. unfold enterModuleDef. rewrite moduleStack_updateCurrentModule. simpl.
  apply removelast_last.
Qed.

Lemma mbalanced_walkDefinition : forall def, mbalanced (walkDefinition def).
Proof.
  apply (tnt_def_induction (fun d => mbalanced (walkDefinition d))
           (fun m => forall id, mbalanced (walkModuleDef m id))).
  - intros opdef. apply mbalanced_walkOpDef.
  - intros n t i. apply mbalanced_collecting. exact I.
  - intros n t i. apply mbalanced_collecting. exact I.
  - intros n a i. simpl. apply mbalanced_cons; [apply mbalanced_collecting; exact I|].
    apply mbalanced_walkExpression.
  - intros n t i. apply mbalanced_collecting. exact I.
  - intros n p i. apply mbalanced_nil.
  - intros n p o i. simpl. apply mbalanced_flat_map, Forall_forall. intros x _.
    apply mbalanced_walkExpression.
  - intros m i IH. apply IH.
  - intros n defs i IH id. rewrite walkModuleDef_eq. apply mbalanced_module.
    apply mbalanced_flat_map. exact IH.
Qed.

(** The walk comes to every declaration of every module of the forest
    inside that module, outside every [let]. *)
Lemma walk_reaches_inside inner root def :
  ModuleWithin inner root -> In def (tnt_module_defs inner) ->
  forall id, exists before j pre post,
    walkModuleDef root id
    = (before ++ EnterModuleDef (tnt_module_name inner) j :: pre ++ walkDefinition def ++ post)%list /\
    balanced before /\ balanced pre /\ mbalanced pre.
Proof.
  induction 1 as [|name defs i sub subid Hsub Hwithin IH]; intros Hdef id.
  - destruct inner as [name defs i]. simpl in Hdef.
    apply in_split in Hdef. destruct Hdef as (l1 & l2 & ->).
    rewrite walkModuleDef_eq, flat_map_split.
    exists [], id, (flat_map walkDefinition l1),
      (flat_map walkDefinition l2 ++ [ExitModuleDef name id])%list.
    split; [simpl; rewrite <- !app_assoc; reflexivity|].
    split; [apply balanced_nil|]. split.
    + apply balanced_flat_map, Forall_forall. intros d _. apply balanced_walkDefinition.
    + apply mbalanced_flat_map, Forall_forall. intros d _. apply mbalanced_walkDefinition.
  - destruct (IH Hdef subid) as (before & j & pre & post & Heq & Hb & Hpre & Hmpre).
    apply in_split in Hsub. destruct Hsub as (l1 & l2 & ->).
    rewrite walkModuleDef_eq, flat_map_split.
    change (walkDefinition (TntModuleDef sub subid)) with (walkModuleDef sub subid).
    rewrite Heq.
    exists (EnterModuleDef name id :: flat_map walkDefinition l1 ++ before)%list, j, pre,
      (post ++ flat_map walkDefinition l2 ++ [ExitModuleDef name id])%list.
    split; [simpl; rewrite <- !app_assoc; simpl; rewrite <- !app_assoc; reflexivity|].
    split; [|split; assumption].
    apply balanced_cons; [apply balanced_collecting; exact I|].
    apply balanced_app; [|exact Hb].
    apply balanced_flat_map, Forall_forall. intros d _. apply balanced_walkDefinition.
Qed.

(** What a push leaves in the current table. *)
Lemma push_records s ident f :
  WFstore s ->
  Js.Map_get String.eqb (map_at (updateCell (ensureCell s ident) ident f) (currentTable s)) ident
  = Some (target s ident) /\
  cell_at (updateCell (ensureCell s ident) ident f) (target s ident)
  = f (cell_at s (target s ident)).
Proof.
  intros Hwf. rewrite Map_get_push by exact Hwf. rewrite String.eqb_refl.
  rewrite cell_at_push by exact Hwf. rewrite Nat.eqb_refl. split; reflexivity.
Qed.

(** The type alias a declaration introduces: its name, type and id. *)
Definition declaredType (def : TntDef) : option (string * option TntType * Z) :=
  match def with
  | TntTypeDef name type id => Some (name, type, id)
  | _ => None
  end.

(** What the current table holds under a key stays under that key until
    the end of the run. *)
Lemma recorded_until_the_end s rest k c :
  WF s ->
  Js.Map_get String.eqb (map_at s (currentTable s)) k = Some c ->
  exists cell,
    Js.Map_get String.eqb (tableContent (run rest s) (currentTable s)) k = Some cell /\
    extends (valueDefinitions (cell_at s c)) (valueDefinitions cell) /\
    extends (typeDefinitions (cell_at s c)) (typeDefinitions cell).
Proof.
  intros Hwf Hget.
  assert (Hwf' : WF (run rest s)) by (apply WF_run, Hwf).
  destruct (grows_run rest s Hwf) as (Hcells & Hmaps & _).
  exists (cell_at (run rest s) c). split.
  - rewrite Map_get_tableContent.
    rewrite (In_Map_get (map_at (run rest s) (currentTable s)) k c); [reflexivity| |].
    + apply (wf_keys _ (wf_store _ Hwf')).
    + apply Hmaps. apply Map_get_In. exact Hget.
  - apply Hcells.
Qed.

Lemma extends_In {A : Type} (l l' : list A) x : extends l l' -> In x l -> In x l'.
Proof. intros (more & ->) H. apply in_or_app. left. exact H. Qed.

(** The state in which the walk comes to a declaration of [inner]. *)
Lemma state_at_declaration before name j pre :
  balanced before -> balanced pre -> mbalanced pre ->
  let s := run (before ++ EnterModuleDef name j :: pre) newVisitor in
  WF s /\ In (name, currentTable s) (tables s) /\ scopeStack s = [].
Proof.
  intros Hb Hpre Hmpre s.
  assert (Hwf : WF s) by (apply WF_run, WF_new).
  split; [exact Hwf|]. subst s.
  change (EnterModuleDef name j :: pre)%list with ([EnterModuleDef name j] ++ pre)%list.
  rewrite !run_app. split.
  - apply (wf_top _ (WF_run _ _ (WF_run _ _ (WF_run _ _ WF_new)))).
    rewrite Hmpre. unfold run at 1. simpl. apply enterModuleDef_top.
  - rewrite Hpre. rewrite (balanced_collecting (EnterModuleDef name j) I). rewrite Hb. reflexivity.
Qed.

(** The module of a declaration has a table in what [collectDefinitions]
    returns. *)
Lemma collectDefinitions_table root inner def :
  ModuleWithin inner root -> In def (tnt_module_defs inner) ->
  exists table,
    Js.Map_get String.eqb (collectDefinitions root) (tnt_module_name inner) = Some table.
Proof.
  intros Hwithin Hdef. unfold collectDefinitions, walkModule.
  destruct (walk_reaches_inside inner root def Hwithin Hdef (tnt_module_id root))
    as (before & j & pre & post & Heq & Hb & Hpre & Hmpre).
  rewrite Heq.
  replace (before ++ EnterModuleDef (tnt_module_name inner) j :: pre ++ walkDefinition def ++ post)%list
    with ((before ++ EnterModuleDef (tnt_module_name inner) j :: pre)
          ++ walkDefinition def ++ post)%list
    by (rewrite <- app_assoc; reflexivity).
  rewrite run_app.
  destruct (state_at_declaration before (tnt_module_name inner) j pre Hb Hpre Hmpre)
    as (Hwf & Hreg & _).
  set (s := run (before ++ EnterModuleDef (tnt_module_name inner) j :: pre) newVisitor) in *.
  assert (Hwf' : WF (run (walkDefinition def ++ post) s)) by (apply WF_run, Hwf).
  destruct (grows_run (walkDefinition def ++ post) s Hwf) as (_ & _ & Htables).
  exists (tableContent (run (walkDefinition def ++ post) s) (currentTable s)).
  rewrite Map_get_tablesContent.
  rewrite (In_Map_get _ (tnt_module_name inner) (currentTable s)); [reflexivity| |].
  - apply (wf_tables_keys _ (wf_store _ Hwf')).
  - apply Htables. exact Hreg.
Qed.

(** [collectDefinitions] records every declaration of every module of the
    forest in the table of that module's name. A constant, a variable, an
    operator or an assumption declared under a name other than [_] is a
    value definition of its identifier, with its kind, the id of the
    declaration and no scope; a type alias, whatever its name, is a type
    definition of its identifier with its type and the id of the
    declaration. *)
Theorem collectDefinitions_records_declarations (root inner : TntModule) (def : TntDef) :
  ModuleWithin inner root ->
  In def (tnt_module_defs inner) ->
  exists table,
    Js.Map_get String.eqb (collectDefinitions root) (tnt_module_name inner) = Some table /\
    (forall kind name id,
        declared def = Some (kind, name, id) -> name <> "_" ->
        exists cell,
          Js.Map_get String.eqb table name = Some cell /\
          In (mkValueDefinition kind name (Some id) None) (valueDefinitions cell)) /\
    (forall name type id,
        declaredType def = Some (name, type, id) ->
        exists cell,
          Js.Map_get String.eqb table name = Some cell /\
          In (mkTypeDefinition name type (Some id)) (typeDefinitions cell)).
Proof.
  intros Hwithin Hdef. unfold collectDefinitions, walkModule.
  destruct (walk_reaches_inside inner root def Hwithin Hdef (tnt_module_id root))
    as (before & j & pre & post & Heq & Hb & Hpre & Hmpre).
  rewrite Heq.
  replace (before ++ EnterModuleDef (tnt_module_name inner) j :: pre ++ walkDefinition def ++ post)%list
    with ((before ++ EnterModuleDef (tnt_module_name inner) j :: pre)
          ++ walkDefinition def ++ post)%list
    by (rewrite <- app_assoc; reflexivity).
  rewrite run_app.
  destruct (state_at_declaration before (tnt_module_name inner) j pre Hb Hpre Hmpre)
    as (Hwf & Hreg & Hscope).
  set (s := run (before ++ EnterModuleDef (tnt_module_name inner) j :: pre) newVisitor) in *.
  assert (Hwf' : WF (run (walkDefinition def ++ post) s)) by (apply WF_run, Hwf).
  destruct (grows_run (walkDefinition def ++ post) s Hwf) as (_ & _ & Htables).
  exists (tableContent (run (walkDefinition def ++ post) s) (currentTable s)).
  split.
  { rewrite Map_get_tablesContent.
    rewrite (In_Map_get _ (tnt_module_name inner) (currentTable s)); [reflexivity| |].
    - apply (wf_tables_keys _ (wf_store _ Hwf')).
    - apply Htables. exact Hreg. }
  assert (Hvalue : forall kind name id rest,
             name <> "_" ->
             exists cell,
               Js.Map_get String.eqb
                 (tableContent (run rest (collectValueDefinition s kind name (Some id) None))
                    (currentTable s)) name = Some cell /\
               In (mkValueDefinition kind name (Some id) None) (valueDefinitions cell)).
  { intros kind name id rest Hname. apply String.eqb_neq in Hname.
    pose proof (WF_collectValueDefinition s kind name (Some id) None Hwf) as Hwf1.
    destruct (same_frame_collectValueDefinition s kind name (Some id) None) as (_ & Hc1 & _).
    unfold collectValueDefinition in *. rewrite Hname in *.
    destruct (push_records s name
                (fun cell => mkDefinitionTable
                               (valueDefinitions cell ++ [mkValueDefinition kind name (Some id) None])
                               (typeDefinitions cell)) (wf_store s Hwf)) as (Hget & Hcell).
    rewrite <- Hc1 in Hget.
    destruct (recorded_until_the_end _ rest name _ Hwf1 Hget) as (cell & Hk & Hv & _).
    rewrite Hc1 in Hk. exists cell. split; [exact Hk|].
    eapply extends_In; [exact Hv|]. rewrite Hcell. simpl. apply in_or_app. right. left. reflexivity. }
  split.
  - intros kind name id Hdecl Hname.
    destruct def as [[n q e i]|n t i|n t i|n a i|n t i|n p i|n p o i|m i]; simpl in Hdecl;
      inversion Hdecl; subst; clear Hdecl; simpl walkDefinition.
    + change (run ((EnterOpDef name id :: walkExpression e) ++ post) s)
        with (run (walkExpression e ++ post) (enterOpDef s name id)).
      unfold enterOpDef. rewrite Hscope. simpl. apply Hvalue. exact Hname.
    + apply (Hvalue "const" name id post Hname).
    + apply (Hvalue "var" name id post Hname).
    + change (run ((EnterAssume name id :: walkExpression a) ++ post) s)
        with (run (walkExpression a ++ post) (enterAssume s name id)).
      apply (Hvalue "assumption" name id _ Hname).
  - intros name type id Hdecl.
    destruct def as [[n q e i]|n t i|n t i|n a i|n t i|n p i|n p o i|m i]; simpl in Hdecl;
      inversion Hdecl; subst; clear Hdecl; simpl walkDefinition.
    change (run ([EnterTypeDef name type id] ++ post) s)
      with (run post (collectTypeDefinition s name type (Some id))).
    pose proof (WF_collectTypeDefinition s name type (Some id) Hwf) as Hwf1.
    destruct (collectTypeDefinition_frame s name type (Some id)) as (_ & Hc1 & _).
    unfold collectTypeDefinition in *.
    destruct (push_records s name
                (fun cell => mkDefinitionTable
                               (valueDefinitions cell)
                               (typeDefinitions cell ++ [mkTypeDefinition name type (Some id)]))
                (wf_store s Hwf)) as (Hget & Hcell).
    rewrite <- Hc1 in Hget.
    destruct (recorded_until_the_end _ post name _ Hwf1 Hget) as (cell & Hk & _ & Hv).
    rewrite Hc1 in Hk. exists cell. split; [exact Hk|].
    eapply extends_In; [exact Hv|]. rewrite Hcell. simpl. apply in_or_app. right. left. reflexivity.
Qed.
(** [module Outer { module Inner { var v: int  type _ } }] *)
Definition innerModule : TntModule :=
  TntMod "Inner" [TntVar "v" (TInt None) 1; TntTypeDef "_" None 2] 3.
Definition outerModule : TntModule := TntMod "Outer" [TntModuleDef innerModule 4] 5.

Lemma collectDefinitions_records_declarations_witness :
  ModuleWithin innerModule outerModule /\
  In (TntVar "v" (TInt None) 1) (tnt_module_defs innerModule) /\
  exists table,
    Js.Map_get String.eqb (collectDefinitions outerModule) (tnt_module_name innerModule)
    = Some table /\
    (forall kind name id,
        declared (TntVar "v" (TInt None) 1) = Some (kind, name, id) -> name <> "_" ->
        exists cell,
          Js.Map_get String.eqb table name = Some cell /\
          In (mkValueDefinition kind name (Some id) None) (valueDefinitions cell)) /\
    (forall name type id,
        declaredType (TntVar "v" (TInt None) 1) = Some (name, type, id) ->
        exists cell,
          Js.Map_get String.eqb table name = Some cell /\
          In (mkTypeDefinition name type (Some id)) (typeDefinitions cell)).
Proof.
  assert (Hwithin : ModuleWithin innerModule outerModule).
  { apply (within_nested innerModule "Outer" [TntModuleDef innerModule 4] 5 innerModule 4);
      [left; reflexivity|apply within_self]. }
  assert (Hdef : In (TntVar "v" (TInt None) 1) (tnt_module_defs innerModule))
    by (left; reflexivity).
  split; [exact Hwithin|]. split; [exact Hdef|].
  exact (collectDefinitions_records_declarations outerModule innerModule _ Hwithin Hdef).
Defined.

(** ** Parameters and local operators *)

(** The lambdas of an expression, each with its parameters and its id. *)
Fixpoint lambdas (expr : TntEx) : list (list string * Z) :=
  match expr with
  | TntName _ _ | TntBool _ _ | TntInt _ _ | TntStr _ _ => []
  | TntApp _ args _ => flat_map lambdas args
  | TntLambda params _ body id => (params, id) :: lambdas body
  | TntLet opdef body _ => (opdef_lambdas opdef ++ lambdas body)%list
  end
with opdef_lambdas (opdef : TntOpDef) : list (list string * Z) :=
  match opdef with TntOp _ _ expr _ => lambdas expr end.

Definition bound_operator (opdef : TntOpDef) (letId : Z) : string * Z * Z :=
  match opdef with TntOp name _ _ id => (name, id, letId) end.

(** The operators an expression binds by [let]: the name and the id of the
    operator, and the id of the [let]. *)
Fixpoint local_operators (expr : TntEx) : list (string * Z * Z) :=
  match expr with
  | TntName _ _ | TntBool _ _ | TntInt _ _ | TntStr _ _ => []
  | TntApp _ args _ => flat_map local_operators args
  | TntLambda _ _ body _ => local_operators body
  | TntLet opdef body id =>
      (bound_operator opdef id :: opdef_local_operators opdef ++ local_operators body)%list
  end
with opdef_local_operators (opdef : TntOpDef) : list (string * Z * Z) :=
  match opdef with TntOp _ _ expr _ => local_operators expr end.

(** The expressions of a declaration: the body of an operator, an
    assumption, the overrides of an instance. *)
Definition def_expressions (def : TntDef) : list TntEx :=
  match def with
  | TntDefOp (TntOp _ _ expr _) => [expr]
  | TntAssume _ assumption _ => [assumption]
  | TntInstance _ _ overrides _ => map snd overrides
  | _ => []
  end.

(** The callbacks that leave the module stack alone. *)
Definition calm (c : Callback) : Prop :=
  match c with EnterModuleDef _ _ | ExitModuleDef _ _ => False | _ => True end.

Lemma calm_mbalanced l : Forall calm l -> mbalanced l.
Proof.
  induction 1 as [|c l Hc _ IH]; [apply mbalanced_nil|].
  apply mbalanced_cons; [apply mbalanced_collecting; exact Hc|exact IH].
Qed.

Lemma walkExpression_calm : forall expr, Forall calm (walkExpression expr).
Proof.
  apply (tnt_expr_induction (fun e => Forall calm (walkExpression e))
           (fun o => Forall calm (walkOpDef o))).
  - constructor.
  - constructor.
  - constructor.
  - constructor.
  - intros opcode args i IH. rewrite walkExpression_app.
    induction IH as [|a l Ha _ IHl]; simpl; [constructor|].
    apply Forall_app. split; assumption.
  - intros params q body i IH. simpl. constructor; [exact I|exact IH].
  - intros opdef body i IHop IHbody. simpl. constructor; [exact I|].
    apply Forall_app. split; [exact IHop|].
    apply Forall_app. split; [exact IHbody|]. constructor; [exact I|constructor].
  - intros n q expr i IH. simpl. constructor; [exact I|exact IH].
Qed.

(** Where the walk of an expression calls the visitor for a lambda and for
    an operator bound by [let]. *)
Lemma walkExpression_reaches :
  forall expr,
    (forall params id, In (params, id) (lambdas expr) ->
       exists pre post, walkExpression expr = (pre ++ EnterLambda params id :: post)%list) /\
    (forall name id letId, In (name, id, letId) (local_operators expr) ->
       exists pre post,
         walkExpression expr = (pre ++ EnterLet letId :: EnterOpDef name id :: post)%list).
Proof.
  apply (tnt_expr_induction
           (fun expr =>
              (forall params id, In (params, id) (lambdas expr) ->
                 exists pre post, walkExpression expr = (pre ++ EnterLambda params id :: post)%list) /\
              (forall name id letId, In (name, id, letId) (local_operators expr) ->
                 exists pre post,
                   walkExpression expr
                   = (pre ++ EnterLet letId :: EnterOpDef name id :: post)%list))
           (fun opdef =>
              (forall params id, In (params, id) (opdef_lambdas opdef) ->
                 exists pre post, walkOpDef opdef = (pre ++ EnterLambda params id :: post)%list) /\
              (forall name id letId, In (name, id, letId) (opdef_local_operators opdef) ->
                 exists pre post,
                   walkOpDef opdef
                   = (pre ++ EnterLet letId :: EnterOpDef name id :: post)%list))).
  - intros n i. split; intros; simpl in *; contradiction.
  - intros v i. split; intros; simpl in *; contradiction.
  - intros v i. split; intros; simpl in *; contradiction.
  - intros v i. split; intros; simpl in *; contradiction.
  - intros opcode args i IH. rewrite walkExpression_app. split.
    + intros params id Hin. simpl in Hin. apply in_flat_map in Hin.
      destruct Hin as (a & Ha & Hin). rewrite Forall_forall in IH.
      destruct (proj1 (IH a Ha) params id Hin) as (pre & post & Heq).
      apply in_split in Ha. destruct Ha as (l1 & l2 & ->).
      rewrite flat_map_split, Heq.
      exists (flat_map walkExpression l1 ++ pre)%list, (post ++ flat_map walkExpression l2)%list.
      rewrite <- !app_assoc. reflexivity.
    + intros name id letId Hin. simpl in Hin. apply in_flat_map in Hin.
      destruct Hin as (a & Ha & Hin). rewrite Forall_forall in IH.
      destruct (proj2 (IH a Ha) name id letId Hin) as (pre & post & Heq).
      apply in_split in Ha. destruct Ha as (l1 & l2 & ->).
      rewrite flat_map_split, Heq.
      exists (flat_map walkExpression l1 ++ pre)%list, (post ++ flat_map walkExpression l2)%list.
      rewrite <- !app_assoc. reflexivity.
  - intros params q body i [IHl IHo]. split.
    + intros params' id [Heq|Hin].
      * inversion Heq; subst. exists [], (walkExpression body). reflexivity.
      * destruct (IHl params' id Hin) as (pre & post & Heq).
        exists (EnterLambda params i :: pre), post. simpl. rewrite Heq. reflexivity.
    + intros name id letId Hin. destruct (IHo name id letId Hin) as (pre & post & Heq).
      exists (EnterLambda params i :: pre), post. simpl. rewrite Heq. reflexivity.
  - intros opdef body i [IHopl IHopo] [IHl IHo]. split.
    + intros params id Hin. simpl in Hin. apply in_app_or in Hin. destruct Hin as [Hin|Hin].
      * destruct (IHopl params id Hin) as (pre & post & Heq).
        exists (EnterLet i :: pre), (post ++ walkExpression body ++ [ExitLet i])%list.
        simpl. rewrite Heq, <- !app_assoc. reflexivity.
      * destruct (IHl params id Hin) as (pre & post & Heq).
        exists (EnterLet i :: walkOpDef opdef ++ pre)%list, (post ++ [ExitLet i])%list.
        simpl. rewrite Heq, <- !app_assoc. reflexivity.
    + intros name id letId [Heq|Hin].
      * destruct opdef as [n q e j]. simpl in Heq. inversion Heq; subst.
        exists [], (walkExpression e ++ walkExpression body ++ [ExitLet letId])%list.
        reflexivity.
      * apply in_app_or in Hin. destruct Hin as [Hin|Hin].
        -- destruct (IHopo name id letId Hin) as (pre & post & Heq).
           exists (EnterLet i :: pre), (post ++ walkExpression body ++ [ExitLet i])%list.
           simpl. rewrite Heq, <- !app_assoc. reflexivity.
        -- destruct (IHo name id letId Hin) as (pre & post & Heq).
           exists (EnterLet i :: walkOpDef opdef ++ pre)%list, (post ++ [ExitLet i])%list.
           simpl. rewrite Heq, <- !app_assoc. reflexivity.
  - intros n q expr i [IHl IHo]. split.
    + intros params id Hin. destruct (IHl params id Hin) as (pre & post & Heq).
      exists (EnterOpDef n i :: pre), post. simpl. rewrite Heq. reflexivity.
    + intros name id letId Hin. destruct (IHo name id letId Hin) as (pre & post & Heq).
      exists (EnterOpDef n i :: pre), post. simpl. rewrite Heq. reflexivity.
Qed.

Lemma walkDefinition_expression def expr :
  In expr (def_expressions def) ->
  exists pre post,
    walkDefinition def = (pre ++ walkExpression expr ++ post)%list /\ Forall calm pre.
Proof.
  destruct def as [[n q e i]|n t i|n t i|n a i|n t i|n p i|n p o i|m i]; simpl;
    try contradiction.
  - intros [<-|[]]. exists [EnterOpDef n i], []. rewrite app_nil_r.
    split; [reflexivity|constructor; [exact I|constructor]].
  - intros [<-|[]]. exists [EnterAssume n i], []. rewrite app_nil_r.
    split; [reflexivity|constructor; [exact I|constructor]].
  - intros Hin. apply in_map_iff in Hin. destruct Hin as (override & <- & Hin).
    apply in_split in Hin. destruct Hin as (l1 & l2 & ->).
    rewrite flat_map_split.
    exists (flat_map (fun o => walkExpression (snd o)) l1),
      (flat_map (fun o => walkExpression (snd o)) l2).
    split; [reflexivity|].
    induction l1 as [|a l1 IH]; simpl; [constructor|].
    apply Forall_app. split; [apply walkExpression_calm|exact IH].
Qed.

Lemma Forall_calm_prefix pre c post expr :
  walkExpression expr = (pre ++ c :: post)%list -> Forall calm pre.
Proof.
  intros Heq. pose proof (walkExpression_calm expr) as H. rewrite Heq in H.
  apply Forall_app in H. apply H.
Qed.

(** A definition collected while the table of [moduleName] is current is
    found in that table at the end of the run. *)
Lemma collected_is_found s kind name reference scope rest moduleName :
  WF s -> In (moduleName, currentTable s) (tables s) -> name <> "_" ->
  exists table cell,
    Js.Map_get String.eqb
      (tablesContent (run rest (collectValueDefinition s kind name reference scope))) moduleName
    = Some table /\
    Js.Map_get String.eqb table name = Some cell /\
    In (mkValueDefinition kind name reference scope) (valueDefinitions cell).
Proof.
  intros Hwf Hreg Hname. apply String.eqb_neq in Hname.
  pose proof (WF_collectValueDefinition s kind name reference scope Hwf) as Hwf1.
  destruct (same_frame_collectValueDefinition s kind name reference scope) as (Ht1 & Hc1 & _).
  set (s1 := collectValueDefinition s kind name reference scope) in *.
  assert (Hget : Js.Map_get String.eqb (map_at s1 (currentTable s1)) name = Some (target s name) /\
                 In (mkValueDefinition kind name reference scope)
                    (valueDefinitions (cell_at s1 (target s name)))).
  { subst s1. unfold collectValueDefinition in *. rewrite Hname in *.
    destruct (push_records s name
                (fun cell => mkDefinitionTable
                               (valueDefinitions cell ++ [mkValueDefinition kind name reference scope])
                               (typeDefinitions cell)) (wf_store s Hwf)) as (Hget & Hcell).
    rewrite Hc1. split; [exact Hget|]. rewrite Hcell. simpl.
    apply in_or_app. right. left. reflexivity. }
  destruct Hget as [Hget Hin].
  destruct (recorded_until_the_end s1 rest name _ Hwf1 Hget) as (cell & Hk & Hv & _).
  pose proof (WF_run rest s1 Hwf1) as Hwf2.
  destruct (grows_run rest s1 Hwf1) as (_ & _ & Htables).
  exists (tableContent (run rest s1) (currentTable s1)), cell. split; [|split].
  - rewrite Map_get_tablesContent.
    rewrite (In_Map_get _ moduleName (currentTable s1)); [reflexivity| |].
    + apply (wf_tables_keys _ (wf_store _ Hwf2)).
    + apply Htables. rewrite Ht1, Hc1. exact Hreg.
  - exact Hk.
  - eapply extends_In; [exact Hv|exact Hin].
Qed.

Lemma enterLambda_one_by_one params id s :
  visit s (EnterLambda params id) = run (map (fun p => EnterLambda [p] id) params) s.
Proof.
  simpl. unfold enterLambda, run. revert s.
  induction params as [|p params IH]; intros s; simpl; [reflexivity|]. apply IH.
Qed.

Lemma calm_keeps_module s l moduleName :
  WF s -> Forall calm l -> stack_top (moduleStack s) = Some moduleName ->
  WF (run l s) /\ In (moduleName, currentTable (run l s)) (tables (run l s)) /\
  stack_top (moduleStack (run l s)) = Some moduleName.
Proof.
  intros Hwf Hcalm Htop.
  assert (Hwf' : WF (run l s)) by (apply WF_run, Hwf).
  assert (Htop' : stack_top (moduleStack (run l s)) = Some moduleName)
    by (rewrite (calm_mbalanced l Hcalm); exact Htop).
  split; [exact Hwf'|]. split; [|exact Htop'].
  apply (wf_top _ Hwf'). exact Htop'.
Qed.

(** [collectDefinitions] records what the expressions of every declaration
    of every module of the forest bind, in the table of that module's name:
    a parameter of a lambda, unless it is named [_], as a value definition of
    kind [param] whose reference and scope are the id of the lambda; an
    operator bound by [let], unless it is named [_], as a value definition of
    kind [def] with the id of the operator and, as its scope, the id of the
    [let]. *)
Theorem collectDefinitions_records_scoped_definitions (root inner : TntModule) (def : TntDef)
  (expr : TntEx) :
  ModuleWithin inner root ->
  In def (tnt_module_defs inner) ->
  In expr (def_expressions def) ->
  exists table,
    Js.Map_get String.eqb (collectDefinitions root) (tnt_module_name inner) = Some table /\
    (forall params id p,
        In (params, id) (lambdas expr) -> In p params -> p <> "_" ->
        exists cell,
          Js.Map_get String.eqb table p = Some cell /\
          In (mkValueDefinition "param" p (Some id) (Some id)) (valueDefinitions cell)) /\
    (forall name id letId,
        In (name, id, letId) (local_operators expr) -> name <> "_" ->
        exists cell,
          Js.Map_get String.eqb table name = Some cell /\
          In (mkValueDefinition "def" name (Some id) (Some letId)) (valueDefinitions cell)).
Proof.
  intros Hwithin Hdef Hexpr.
  destruct (collectDefinitions_table root inner def Hwithin Hdef) as (table & Htable).
  exists table. split; [exact Htable|].
  unfold collectDefinitions, walkModule in *.
  destruct (walk_reaches_inside inner root def Hwithin Hdef (tnt_module_id root))
    as (before & j & pre & post & Heq & Hb & Hpre & Hmpre).
  destruct (walkDefinition_expression def expr Hexpr) as (preD & postD & HeqD & HcalmD).
  rewrite Heq, HeqD in *.
  assert (Hstate : let s := run (before ++ EnterModuleDef (tnt_module_name inner) j :: pre) newVisitor in
                   WF s /\ stack_top (moduleStack s) = Some (tnt_module_name inner)).
  { intros s. split; [apply WF_run, WF_new|]. subst s.
    change (EnterModuleDef (tnt_module_name inner) j :: pre)%list
      with ([EnterModuleDef (tnt_module_name inner) j] ++ pre)%list.
    rewrite !run_app, Hmpre. unfold run at 1. simpl. apply enterModuleDef_top. }
  set (s := run (before ++ EnterModuleDef (tnt_module_name inner) j :: pre) newVisitor) in *.
  destruct Hstate as [Hwf Htop].
  split.
  - intros params id p Hlam Hp Hname.
    destruct (proj1 (walkExpression_reaches expr) params id Hlam) as (preE & postE & HeqE).
    pose proof (Forall_calm_prefix _ _ _ _ HeqE) as HcalmE.
    apply in_split in Hp. destruct Hp as (l1 & l2 & ->).
    set (singles := fun l => map (fun p => EnterLambda [p] id) l).
    assert (Hcalm : Forall calm (preD ++ preE ++ singles l1)).
    { apply Forall_app. split; [exact HcalmD|]. apply Forall_app. split; [exact HcalmE|].
      unfold singles. apply Forall_forall. intros c Hc. apply in_map_iff in Hc.
      destruct Hc as (x & <- & _). exact I. }
    destruct (calm_keeps_module s _ _ Hwf Hcalm Htop) as (Hwf1 & Hreg1 & _).
    destruct (collected_is_found _ "param" p (Some id) (Some id)
                (singles l2 ++ postE ++ postD ++ post) _ Hwf1 Hreg1 Hname)
      as (table' & cell & Htable' & Hcell & Hin).
    assert (Hsame : run (singles l2 ++ postE ++ postD ++ post)
                      (collectValueDefinition (run (preD ++ preE ++ singles l1) s)
                         "param" p (Some id) (Some id))
                    = run (before ++ EnterModuleDef (tnt_module_name inner) j
                           :: pre ++ (preD ++ walkExpression expr ++ postD) ++ post) newVisitor).
    { rewrite HeqE.
      replace (before ++ EnterModuleDef (tnt_module_name inner) j
               :: pre ++ (preD ++ (preE ++ EnterLambda (l1 ++ p :: l2) id :: postE) ++ postD)
               ++ post)%list
        with ((before ++ EnterModuleDef (tnt_module_name inner) j :: pre)
              ++ (preD ++ preE) ++ [EnterLambda (l1 ++ p :: l2) id]
              ++ (postE ++ postD ++ post))%list
        by (repeat (rewrite <- ?app_assoc; simpl); reflexivity).
      rewrite (run_app (before ++ _)). fold s. rewrite !run_app.
      change (run [EnterLambda (l1 ++ p :: l2) id] (run preE (run preD s)))
        with (visit (run preE (run preD s)) (EnterLambda (l1 ++ p :: l2) id)).
      rewrite enterLambda_one_by_one, map_app, run_app. reflexivity. }
    rewrite Hsame in Htable'. rewrite Htable in Htable'. inversion Htable'; subst table'.
    exists cell. split; assumption.
  - intros name id letId Hop Hname.
    destruct (proj2 (walkExpression_reaches expr) name id letId Hop) as (preE & postE & HeqE).
    pose proof (Forall_calm_prefix _ _ _ _ HeqE) as HcalmE.
    assert (Hcalm : Forall calm (preD ++ preE ++ [EnterLet letId])).
    { apply Forall_app. split; [exact HcalmD|]. apply Forall_app. split; [exact HcalmE|].
      constructor; [exact I|constructor]. }
    destruct (calm_keeps_module s _ _ Hwf Hcalm Htop) as (Hwf1 & Hreg1 & _).
    destruct (collected_is_found _ "def" name (Some id) (Some letId)
                (postE ++ postD ++ post) _ Hwf1 Hreg1 Hname)
      as (table' & cell & Htable' & Hcell & Hin).
    assert (Hsame : run (postE ++ postD ++ post)
                      (collectValueDefinition (run (preD ++ preE ++ [EnterLet letId]) s)
                         "def" name (Some id) (Some letId))
                    = run (before ++ EnterModuleDef (tnt_module_name inner) j
                           :: pre ++ (preD ++ walkExpression expr ++ postD) ++ post) newVisitor).
    { rewrite HeqE.
      replace (before ++ EnterModuleDef (tnt_module_name inner) j
               :: pre ++ (preD ++ (preE ++ EnterLet letId :: EnterOpDef name id :: postE) ++ postD)
               ++ post)%list
        with ((before ++ EnterModuleDef (tnt_module_name inner) j :: pre)
              ++ (preD ++ preE ++ [EnterLet letId]) ++ [EnterOpDef name id]
              ++ (postE ++ postD ++ post))%list
        by (repeat (rewrite <- ?app_assoc; simpl); reflexivity).
      rewrite (run_app (before ++ _)). fold s. rewrite (run_app (preD ++ _)).
      rewrite (run_app [EnterOpDef name id]). f_equal.
      change (run [EnterOpDef name id] (run (preD ++ preE ++ [EnterLet letId]) s))
        with (enterOpDef (run (preD ++ preE ++ [EnterLet letId]) s) name id).
      unfold enterOpDef.
      replace (preD ++ preE ++ [EnterLet letId])%list with ((preD ++ preE) ++ [EnterLet letId])%list
        by (rewrite <- app_assoc; reflexivity).
      rewrite (run_app (preD ++ preE)). unfold run at 1 3. simpl. unfold enterLet. simpl.
      rewrite stack_top_app. reflexivity. }
    rewrite Hsame in Htable'. rewrite Htable in Htable'. inversion Htable'; subst table'.
    exists cell. split; assumption.
Qed.
(** [module Root { def f = (x, _) => val h = 1 { h } }] *)
Definition scopedBody : TntEx :=
  TntLambda ["x"; "_"] "def" (TntLet (TntOp "h" "val" (TntInt 1 1) 2) (TntName "h" 3) 4) 5.
Definition scopedDef : TntDef := TntDefOp (TntOp "f" "def" scopedBody 6).
Definition scopedModule : TntModule := TntMod "Root" [scopedDef] 7.

Lemma collectDefinitions_records_scoped_definitions_witness :
  ModuleWithin scopedModule scopedModule /\
  In scopedDef (tnt_module_defs scopedModule) /\
  In scopedBody (def_expressions scopedDef) /\
  exists table,
    Js.Map_get String.eqb (collectDefinitions scopedModule) (tnt_module_name scopedModule)
    = Some table /\
    (forall params id p,
        In (params, id) (lambdas scopedBody) -> In p params -> p <> "_" ->
        exists cell,
          Js.Map_get String.eqb table p = Some cell /\
          In (mkValueDefinition "param" p (Some id) (Some id)) (valueDefinitions cell)) /\
    (forall name id letId,
        In (name, id, letId) (local_operators scopedBody) -> name <> "_" ->
        exists cell,
          Js.Map_get String.eqb table name = Some cell /\
          In (mkValueDefinition "def" name (Some id) (Some letId)) (valueDefinitions cell)).
Proof.
  assert (Hwithin : ModuleWithin scopedModule scopedModule) by apply within_self.
  assert (Hdef : In scopedDef (tnt_module_defs scopedModule)) by (left; reflexivity).
  assert (Hexpr : In scopedBody (def_expressions scopedDef)) by (left; reflexivity).
  split; [exact Hwithin|]. split; [exact Hdef|]. split; [exact Hexpr|].
  exact (collectDefinitions_records_scoped_definitions scopedModule scopedModule scopedDef
           scopedBody Hwithin Hdef Hexpr).
Defined.

(** ** Qualified names *)

(** A table of the visitor holds a value definition under a key. *)
Definition present (s : Visitor) (t : MapRef) (k : string) (d : ValueDefinition) : Prop :=
  exists c, Js.Map_get String.eqb (map_at s t) k = Some c /\ In d (valueDefinitions (cell_at s c)).

Lemma present_grows s s' t k d :
  WF s' -> grows s s' -> present s t k d -> present s' t k d.
Proof.
  intros Hwf (Hcells & Hmaps & _) (c & Hget & Hin). exists c. split.
  - apply In_Map_get; [apply (wf_keys _ (wf_store _ Hwf))|].
    apply Hmaps. apply Map_get_In. exact Hget.
  - eapply extends_In; [apply Hcells|exact Hin].
Qed.

Lemma present_collect s kind name reference scope :
  WF s -> name <> "_" ->
  present (collectValueDefinition s kind name reference scope) (currentTable s) name
    (mkValueDefinition kind name reference scope).
Proof.
  intros Hwf Hname. apply String.eqb_neq in Hname.
  unfold collectValueDefinition. rewrite Hname.
  destruct (push_records s name
              (fun cell => mkDefinitionTable
                             (valueDefinitions cell ++ [mkValueDefinition kind name reference scope])
                             (typeDefinitions cell)) (wf_store s Hwf)) as (Hget & Hcell).
  exists (target s name). split; [exact Hget|]. rewrite Hcell. simpl.
  apply in_or_app. right. left. reflexivity.
Qed.

(** The current table is the table of the module on top of the stack. *)
Lemma current_table_of_top s s' n :
  WF s -> WF s' -> grows s s' ->
  stack_top (moduleStack s) = Some n -> stack_top (moduleStack s') = Some n ->
  currentTable s' = currentTable s.
Proof.
  intros Hwf Hwf' (_ & _ & Htables) Htop Htop'.
  pose proof (wf_top _ Hwf n Htop) as Hin. apply Htables in Hin.
  pose proof (wf_top _ Hwf' n Htop') as Hin'.
  pose proof (wf_tables_keys _ (wf_store _ Hwf')) as Hnd.
  apply (In_Map_get _ _ _ Hnd) in Hin. apply (In_Map_get _ _ _ Hnd) in Hin'. congruence.
Qed.

(** A fold of collections of exported definitions. *)
Definition exportOne (name : string) (s : Visitor) (d : ValueDefinition) : Visitor :=
  collectValueDefinition s (kind d) (name ++ "::" ++ identifier d) (reference d) None.

Lemma WF_exportOne name s d : WF s -> WF (exportOne name s d).
Proof. apply WF_collectValueDefinition. Qed.

Lemma grows_exportOne name s d : WF s -> grows s (exportOne name s d).
Proof. intros Hwf. apply grows_collectValueDefinition, Hwf. Qed.

Lemma WF_fold {A : Type} (step : Visitor -> A -> Visitor) l :
  (forall s a, WF s -> WF (step s a)) -> forall s, WF s -> WF (fold_left step l s).
Proof.
  intros Hstep. induction l as [|a l IH]; intros s Hwf; simpl; [exact Hwf|].
  apply IH, Hstep, Hwf.
Qed.

Lemma currentTable_fold {A : Type} (step : Visitor -> A -> Visitor) l :
  (forall s a, same_frame s (step s a)) ->
  forall s, currentTable (fold_left step l s) = currentTable s.
Proof.
  intros Hstep s. destruct (same_frame_fold step l Hstep s) as (_ & H & _). exact H.
Qed.

Lemma fold_exportOne_present name ds :
  forall s v, WF s -> In v ds ->
    present (fold_left (exportOne name) ds s) (currentTable s)
      (name ++ "::" ++ identifier v)
      (mkValueDefinition (kind v) (name ++ "::" ++ identifier v) (reference v) None).
Proof.
  induction ds as [|d ds IH]; intros s v Hwf Hin; [destruct Hin|].
  simpl. destruct Hin as [->|Hin].
  - apply (present_grows (exportOne name s v)).
    + apply WF_fold; [apply WF_exportOne|apply WF_exportOne, Hwf].
    + apply grows_fold; [apply WF_exportOne|apply grows_exportOne|apply WF_exportOne, Hwf].
    + apply present_collect; [exact Hwf|].
      apply String.eqb_neq. apply namespaced_not_discard.
  - replace (currentTable s) with (currentTable (exportOne name s d))
      by apply same_frame_collectValueDefinition.
    apply IH; [apply WF_exportOne, Hwf|exact Hin].
Qed.

Lemma fold_exportCell_present name entries :
  forall s k c v, WF s -> In (k, c) entries ->
    In v (valueDefinitions (cell_at s c)) -> scope v = None ->
    present (fold_left (exportCell name) entries s) (currentTable s)
      (name ++ "::" ++ identifier v)
      (mkValueDefinition (kind v) (name ++ "::" ++ identifier v) (reference v) None).
Proof.
  induction entries as [|entry entries IH]; intros s k c v Hwf Hin Hv Hscope; [destruct Hin|].
  simpl. destruct Hin as [->|Hin].
  - apply (present_grows (exportCell name s (k, c))).
    + apply WF_fold; [apply WF_exportCell|apply WF_exportCell, Hwf].
    + apply grows_fold; [apply WF_exportCell|apply grows_exportCell|apply WF_exportCell, Hwf].
    + unfold exportCell. apply (fold_exportOne_present name); [exact Hwf|].
      apply filter_In. split; [exact Hv|]. unfold no_scope. rewrite Hscope. reflexivity.
  - replace (currentTable s) with (currentTable (exportCell name s entry))
      by apply same_frame_exportCell.
    apply (IH _ k c); [apply WF_exportCell, Hwf|exact Hin| |exact Hscope].
    destruct (grows_exportCell name s entry Hwf) as (Hcells & _).
    eapply extends_In; [apply Hcells|exact Hv].
Qed.

(** Leaving a nested module exports what its table holds without a scope
    to the table of the module around it. *)
Lemma exitModuleDef_exports s st parent inner name id k v :
  WF s -> moduleStack s = (st ++ [parent; inner])%list ->
  present s (currentTable s) k v -> scope v = None ->
  moduleStack (exitModuleDef s name id) = (st ++ [parent])%list /\
  present (exitModuleDef s name id) (currentTable (exitModuleDef s name id))
    (name ++ "::" ++ identifier v)
    (mkValueDefinition (kind v) (name ++ "::" ++ identifier v) (reference v) None).
Proof.
  intros Hwf Hstack (c & Hget & Hv) Hscope.
  split; [rewrite moduleStack_exitModuleDef, Hstack; apply removelast_two|].
  unfold exitModuleDef.
  set (s1 := updateCurrentModule (withModuleStack s (removelast (moduleStack s)))).
  assert (Hwf1 : WF s1).
  { apply WF_updateCurrentModule.
    - apply WFstore_withModuleStack, Hwf.
    - simpl. intros n Hin. apply (wf_stack s Hwf). apply In_removelast, In_removelast, Hin. }
  assert (Hstack1 : moduleStack s1 = (st ++ [parent])%list).
  { unfold s1. rewrite moduleStack_updateCurrentModule. simpl. rewrite Hstack.
    apply removelast_two. }
  assert (Hcells1 : forall c0, cell_at s1 c0 = cell_at s c0).
  { intros c0. unfold cell_at, s1. rewrite cells_updateCurrentModule. reflexivity. }
  rewrite Hstack1. destruct (st ++ [parent])%list as [|x l] eqn:E;
    [destruct st; discriminate|].
  unfold Js.Map_copy.
  set (s2 := fold_left (exportCell name) (map_at s (currentTable s)) s1).
  assert (Hwf2 : WF s2) by (apply WF_fold_exportCell, Hwf1).
  assert (Hcur : currentTable (collectValueDefinition s2 "module" name (Some id) None)
                 = currentTable s1).
  { destruct (same_frame_collectValueDefinition s2 "module" name (Some id) None) as (_ & -> & _).
    unfold s2. apply currentTable_fold. intros s' e. apply same_frame_exportCell. }
  rewrite Hcur.
  apply (present_grows s2).
  - apply WF_collectValueDefinition, Hwf2.
  - apply grows_collectValueDefinition, Hwf2.
  - unfold s2. apply (fold_exportCell_present name _ s1 k c v Hwf1).
    + apply Map_get_In. exact Hget.
    + rewrite Hcells1. exact Hv.
    + exact Hscope.
Qed.

(** [Qualified inner name outer q]: [q] is the name [name] of the module
    [inner] as seen from [outer], a module around it: the names of the
    modules on the way down, joined by [::]. *)
Inductive Qualified (inner : TntModule) (name : string) : TntModule -> string -> Prop :=
| Qualified_here : Qualified inner name inner name
| Qualified_nested outer sub subid q :
    In (TntModuleDef sub subid) (tnt_module_defs outer) ->
    Qualified inner name sub q ->
    Qualified inner name outer (tnt_module_name sub ++ "::" ++ q).

Definition body (m : TntModule) : list Callback := flat_map walkDefinition (tnt_module_defs m).

Lemma balanced_body m : balanced (body m).
Proof.
  apply balanced_flat_map, Forall_forall. intros d _. apply balanced_walkDefinition.
Qed.

Lemma mbalanced_body m : mbalanced (body m).
Proof.
  apply mbalanced_flat_map, Forall_forall. intros d _. apply mbalanced_walkDefinition.
Qed.

Lemma moduleStack_enterModuleDef s name :
  moduleStack (enterModuleDef s name) = (moduleStack s ++ [name])%list.
Proof. unfold enterModuleDef. rewrite moduleStack_updateCurrentModule. reflexivity. Qed.

Lemma stack_top_last {A : Type} (l : list A) x : stack_top (l ++ [x]) = Some x.
Proof. apply stack_top_app. Qed.

(** The state in which the walk leaves a module: the definition is in the
    module's table under its qualified name. *)
Lemma present_at_exit inner def kind name id :
  In def (tnt_module_defs inner) -> declared def = Some (kind, name, id) -> name <> "_" ->
  forall outer q, Qualified inner name outer q ->
    forall s j, WF s -> scopeStack s = [] ->
      present (run (EnterModuleDef (tnt_module_name outer) j :: body outer) s)
        (currentTable (run (EnterModuleDef (tnt_module_name outer) j :: body outer) s))
        q (mkValueDefinition kind q (Some id) None).
Proof.
  intros Hdef Hdecl Hname outer q Hq.
  induction Hq as [|outer sub subid q Hsub Hq IH]; intros s j Hwf Hscope.
  - (* the module of the declaration *)
    unfold body. apply in_split in Hdef. destruct Hdef as (l1 & l2 & Hdefs). rewrite Hdefs.
    rewrite flat_map_split.
    set (pre := (EnterModuleDef (tnt_module_name inner) j :: flat_map walkDefinition l1)%list).
    replace (EnterModuleDef (tnt_module_name inner) j
             :: flat_map walkDefinition l1 ++ walkDefinition def ++ flat_map walkDefinition l2)%list
      with (pre ++ walkDefinition def ++ flat_map walkDefinition l2)%list by reflexivity.
    assert (Hpre_b : balanced pre).
    { apply balanced_cons; [apply balanced_collecting; exact I|].
      apply balanced_flat_map, Forall_forall. intros d _. apply balanced_walkDefinition. }
    assert (Htop_pre : forall s0, stack_top (moduleStack (run pre s0)) = Some (tnt_module_name inner)).
    { intros s0. unfold pre.
      change (EnterModuleDef (tnt_module_name inner) j :: flat_map walkDefinition l1)%list
        with ([EnterModuleDef (tnt_module_name inner) j] ++ flat_map walkDefinition l1)%list.
      rewrite run_app.
      rewrite (mbalanced_flat_map walkDefinition l1)
        by (apply Forall_forall; intros d _; apply mbalanced_walkDefinition).
      unfold run. simpl. apply enterModuleDef_top. }
    rewrite run_app. set (s1 := run pre s).
    assert (Hwf1 : WF s1) by (apply WF_run, Hwf).
    assert (Hscope1 : scopeStack s1 = []) by (unfold s1; rewrite Hpre_b; exact Hscope).
    assert (Htop1 : stack_top (moduleStack s1) = Some (tnt_module_name inner)) by apply Htop_pre.
    assert (Hfirst : exists rest,
               Forall calm rest /\
               run (walkDefinition def ++ flat_map walkDefinition l2) s1
               = run (rest ++ flat_map walkDefinition l2)
                   (collectValueDefinition s1 kind name (Some id) None)).
    { destruct def as [[n q0 e i]|n t i|n t i|n a i|n t i|n p i|n p o i|m i]; simpl in Hdecl;
        inversion Hdecl; subst; clear Hdecl; simpl walkDefinition.
      - exists (walkExpression e). split; [apply walkExpression_calm|].
        change (run ((EnterOpDef name id :: walkExpression e) ++ flat_map walkDefinition l2) s1)
          with (run (walkExpression e ++ flat_map walkDefinition l2) (enterOpDef s1 name id)).
        unfold enterOpDef. rewrite Hscope1. reflexivity.
      - exists []. split; [constructor|reflexivity].
      - exists []. split; [constructor|reflexivity].
      - exists (walkExpression a). split; [apply walkExpression_calm|reflexivity]. }
    destruct Hfirst as (rest & Hcalm & ->).
    set (s2 := collectValueDefinition s1 kind name (Some id) None).
    assert (Hwf2 : WF s2) by (apply WF_collectValueDefinition, Hwf1).
    assert (Hmb : mbalanced (rest ++ flat_map walkDefinition l2)).
    { apply mbalanced_app; [apply calm_mbalanced, Hcalm|].
      apply mbalanced_flat_map, Forall_forall. intros d _. apply mbalanced_walkDefinition. }
    set (s3 := run (rest ++ flat_map walkDefinition l2) s2).
    assert (Hwf3 : WF s3) by (apply WF_run, Hwf2).
    assert (Hgrows : grows s1 s3).
    { eapply grows_trans; [apply grows_collectValueDefinition, Hwf1|apply grows_run, Hwf2]. }
    assert (Hcur : currentTable s3 = currentTable s1).
    { apply (current_table_of_top s1 s3 (tnt_module_name inner)); try assumption.
      unfold s3. rewrite Hmb. unfold s2.
      destruct (same_frame_collectValueDefinition s1 kind name (Some id) None) as (_ & _ & -> & _).
      exact Htop1. }
    rewrite Hcur. apply (present_grows s2); [exact Hwf3|apply grows_run, Hwf2|].
    apply present_collect; assumption.
  - (* a module around it *)
    unfold body. apply in_split in Hsub. destruct Hsub as (l1 & l2 & Hdefs). rewrite Hdefs.
    rewrite flat_map_split.
    change (walkDefinition (TntModuleDef sub subid)) with (walkModuleDef sub subid).
    destruct sub as [subname subdefs subi]. rewrite walkModuleDef_eq.
    set (pre := (EnterModuleDef (tnt_module_name outer) j :: flat_map walkDefinition l1)%list).
    replace (EnterModuleDef (tnt_module_name outer) j
             :: flat_map walkDefinition l1
             ++ (EnterModuleDef subname subid
                 :: flat_map walkDefinition subdefs ++ [ExitModuleDef subname subid])
             ++ flat_map walkDefinition l2)%list
      with (pre ++ (EnterModuleDef subname subid :: flat_map walkDefinition subdefs)
            ++ [ExitModuleDef subname subid] ++ flat_map walkDefinition l2)%list
      by (unfold pre; simpl; rewrite <- !app_assoc; reflexivity).
    rewrite !run_app. set (s1 := run pre s).
    assert (Hwf1 : WF s1) by (apply WF_run, Hwf).
    assert (Hscope1 : scopeStack s1 = []).
    { unfold s1, pre. rewrite (balanced_cons (EnterModuleDef (tnt_module_name outer) j)
                                 (flat_map walkDefinition l1)); [exact Hscope| |].
      - apply balanced_collecting. exact I.
      - apply balanced_flat_map, Forall_forall. intros d _. apply balanced_walkDefinition. }
    assert (Hstack1 : moduleStack s1 = (moduleStack s ++ [tnt_module_name outer])%list).
    { unfold s1, pre.
      change (EnterModuleDef (tnt_module_name outer) j :: flat_map walkDefinition l1)%list
        with ([EnterModuleDef (tnt_module_name outer) j] ++ flat_map walkDefinition l1)%list.
      rewrite run_app.
      rewrite (mbalanced_flat_map walkDefinition l1)
        by (apply Forall_forall; intros d _; apply mbalanced_walkDefinition).
      unfold run. simpl. apply moduleStack_enterModuleDef. }
    specialize (IH s1 subid Hwf1 Hscope1). simpl tnt_module_name in IH.
    unfold body in IH. simpl tnt_module_defs in IH.
    set (s2 := run (EnterModuleDef subname subid :: flat_map walkDefinition subdefs) s1) in *.
    assert (Hwf2 : WF s2) by (apply WF_run, Hwf1).
    assert (Hstack2 : moduleStack s2 = (moduleStack s ++ [tnt_module_name outer; subname])%list).
    { unfold s2.
      change (EnterModuleDef subname subid :: flat_map walkDefinition subdefs)%list
        with ([EnterModuleDef subname subid] ++ flat_map walkDefinition subdefs)%list.
      rewrite run_app.
      rewrite (mbalanced_flat_map walkDefinition subdefs)
        by (apply Forall_forall; intros d _; apply mbalanced_walkDefinition).
      unfold run. simpl. rewrite moduleStack_enterModuleDef, Hstack1, <- app_assoc. reflexivity. }
    destruct (exitModuleDef_exports s2 (moduleStack s) (tnt_module_name outer) subname
                subname subid q _ Hwf2 Hstack2 IH eq_refl) as (Hstack3 & Hpresent).
    simpl in Hpresent.
    change (run [ExitModuleDef subname subid] s2) with (exitModuleDef s2 subname subid).
    set (s3 := exitModuleDef s2 subname subid) in *.
    assert (Hwf3 : WF s3) by (apply WF_exitModuleDef, Hwf2).
    set (s4 := run (flat_map walkDefinition l2) s3).
    assert (Hwf4 : WF s4) by (apply WF_run, Hwf3).
    assert (Hcur : currentTable s4 = currentTable s3).
    { apply (current_table_of_top s3 s4 (tnt_module_name outer)); try assumption.
      - apply grows_run, Hwf3.
      - rewrite Hstack3. apply stack_top_app.
      - unfold s4. rewrite (mbalanced_flat_map walkDefinition l2)
          by (apply Forall_forall; intros d _; apply mbalanced_walkDefinition).
        rewrite Hstack3. apply stack_top_app. }
    rewrite Hcur. apply (present_grows s3); [exact Hwf4|apply grows_run, Hwf3|exact Hpresent].
Qed.

(** Where the walk of the forest walks a module of it. *)
Lemma walk_reaches_module inner root :
  ModuleWithin inner root ->
  forall id, exists before j after,
    walkModuleDef root id = (before ++ walkModuleDef inner j ++ after)%list /\
    balanced before.
Proof.
  induction 1 as [|name defs i sub subid Hsub Hwithin IH]; intros id.
  - exists [], id, []. rewrite app_nil_r. split; [reflexivity|apply balanced_nil].
  - destruct (IH subid) as (before & j & after & Heq & Hb).
    apply in_split in Hsub. destruct Hsub as (l1 & l2 & ->).
    rewrite walkModuleDef_eq, flat_map_split.
    change (walkDefinition (TntModuleDef sub subid)) with (walkModuleDef sub subid).
    rewrite Heq.
    exists (EnterModuleDef name id :: flat_map walkDefinition l1 ++ before)%list, j,
      (after ++ flat_map walkDefinition l2 ++ [ExitModuleDef name id])%list.
    split; [simpl; rewrite <- !app_assoc; reflexivity|].
    apply balanced_cons; [apply balanced_collecting; exact I|].
    apply balanced_app; [|exact Hb].
    apply balanced_flat_map, Forall_forall. intros d _. apply balanced_walkDefinition.
Qed.

(** [collectDefinitions] makes the declarations of a module visible in
    every module around it, at any depth, under their qualified name: a
    constant, a variable, an operator or an assumption that a module declares
    under a name other than [_] is, in the table of each module [outer] it is
    nested in, a value definition of the name qualified from [outer]
    ([A::B::x] for the [x] of [B] in [A] in [outer]), with its kind, the id
    of the declaration and no scope. *)
Theorem collectDefinitions_exports_qualified_names (root outer inner : TntModule)
  (def : TntDef) (kind name q : string) (id : Z) :
  ModuleWithin outer root ->
  Qualified inner name outer q ->
  In def (tnt_module_defs inner) ->
  declared def = Some (kind, name, id) ->
  name <> "_" ->
  exists table cell,
    Js.Map_get String.eqb (collectDefinitions root) (tnt_module_name outer) = Some table /\
    Js.Map_get String.eqb table q = Some cell /\
    In (mkValueDefinition kind q (Some id) None) (valueDefinitions cell).
Proof.
  intros Hwithin Hq Hdef Hdecl Hname. unfold collectDefinitions, walkModule.
  destruct (walk_reaches_module outer root Hwithin (tnt_module_id root))
    as (before & j & after & Heq & Hb).
  rewrite Heq. destruct outer as [oname odefs oi] eqn:Eouter. rewrite walkModuleDef_eq.
  replace (before ++ (EnterModuleDef oname j :: flat_map walkDefinition odefs
                      ++ [ExitModuleDef oname j]) ++ after)%list
    with (before ++ (EnterModuleDef oname j :: flat_map walkDefinition odefs)
          ++ [ExitModuleDef oname j] ++ after)%list
    by (simpl; rewrite <- !app_assoc; reflexivity).
  rewrite (run_app before), (run_app (EnterModuleDef oname j :: _)).
  set (s := run before newVisitor).
  assert (Hwf : WF s) by (apply WF_run, WF_new).
  assert (Hscope : scopeStack s = []) by (unfold s; rewrite Hb; reflexivity).
  rewrite <- Eouter in Hq.
  pose proof (present_at_exit inner def kind name id Hdef Hdecl Hname outer q Hq s j Hwf Hscope)
    as Hpresent.
  rewrite Eouter in Hpresent. simpl tnt_module_name in Hpresent.
  unfold body in Hpresent. simpl tnt_module_defs in Hpresent.
  set (s1 := run (EnterModuleDef oname j :: flat_map walkDefinition odefs) s) in *.
  assert (Hwf1 : WF s1) by (apply WF_run, Hwf).
  assert (Htop1 : stack_top (moduleStack s1) = Some oname).
  { unfold s1.
    change (EnterModuleDef oname j :: flat_map walkDefinition odefs)%list
      with ([EnterModuleDef oname j] ++ flat_map walkDefinition odefs)%list.
    rewrite run_app.
    rewrite (mbalanced_flat_map walkDefinition odefs)
      by (apply Forall_forall; intros d _; apply mbalanced_walkDefinition).
    unfold run. simpl. apply enterModuleDef_top. }
  set (s2 := run ([ExitModuleDef oname j] ++ after) s1).
  assert (Hwf2 : WF s2) by (apply WF_run, Hwf1).
  pose proof (grows_run ([ExitModuleDef oname j] ++ after) s1 Hwf1) as Hgrows. fold s2 in Hgrows.
  destruct (present_grows s1 s2 _ _ _ Hwf2 Hgrows Hpresent) as (c & Hget & Hin).
  exists (tableContent s2 (currentTable s1)), (cell_at s2 c). simpl. split; [|split].
  - rewrite Map_get_tablesContent.
    rewrite (In_Map_get _ oname (currentTable s1)); [reflexivity| |].
    + apply (wf_tables_keys _ (wf_store _ Hwf2)).
    + destruct Hgrows as (_ & _ & Htables). apply Htables. apply (wf_top _ Hwf1). exact Htop1.
  - rewrite Map_get_tableContent, Hget. reflexivity.
  - exact Hin.
Qed.
(** [module Root { module A { module B { var x: int } } }] *)
Definition deepB : TntModule := TntMod "B" [TntVar "x" (TInt None) 1] 2.
Definition deepA : TntModule := TntMod "A" [TntModuleDef deepB 3] 4.
Definition deepRoot : TntModule := TntMod "Root" [TntModuleDef deepA 5] 6.

Lemma deepB_qualified : Qualified deepB "x" deepRoot "A::B::x".
Proof.
  apply (Qualified_nested deepB "x" deepRoot deepA 5 "B::x"); [left; reflexivity|].
  apply (Qualified_nested deepB "x" deepA deepB 3 "x"); [left; reflexivity|].
  apply Qualified_here.
Qed.

Lemma collectDefinitions_exports_qualified_names_witness :
  ModuleWithin deepRoot deepRoot /\
  Qualified deepB "x" deepRoot "A::B::x" /\
  In (TntVar "x" (TInt None) 1) (tnt_module_defs deepB) /\
  declared (TntVar "x" (TInt None) 1) = Some ("var", "x", 1) /\
  "x" <> "_" /\
  exists table cell,
    Js.Map_get String.eqb (collectDefinitions deepRoot) (tnt_module_name deepRoot) = Some table /\
    Js.Map_get String.eqb table "A::B::x" = Some cell /\
    In (mkValueDefinition "var" "A::B::x" (Some 1) None) (valueDefinitions cell).
Proof.
  assert (Hwithin : ModuleWithin deepRoot deepRoot) by apply within_self.
  assert (Hdef : In (TntVar "x" (TInt None) 1) (tnt_module_defs deepB)) by (left; reflexivity).
  assert (Hname : "x" <> "_") by discriminate.
  split; [exact Hwithin|]. split; [exact deepB_qualified|]. split; [exact Hdef|].
  split; [reflexivity|]. split; [exact Hname|].
  exact (collectDefinitions_exports_qualified_names deepRoot deepRoot deepB
           (TntVar "x" (TInt None) 1) "var" "x" "A::B::x" 1
           Hwithin deepB_qualified Hdef eq_refl Hname).
Defined.

End CollectorFacts.

(** * Properties of the alias inliner *)

Module InlinerFacts.

Import TypeAliasInliner.

(** ** Aliases and chains *)

(** The type an alias reference stands for: a [const] type with a truthy id
    whose definition in the table has a [typeAnnotation]. *)
Definition alias_step (table : LookupTable) (type : QuintType) : option QuintType :=
  match type with
  | TConst _ (Some id) =>
      if id =? 0 then None
      else match table_get table id with
           | Some def => typeAnnotation def
           | None => None
           end
  | _ => None
  end.

(** [Chain table t final n]: [n] alias steps lead from [t] to [final], which
    is no alias. *)
Inductive Chain (table : LookupTable) : QuintType -> QuintType -> nat -> Prop :=
| Chain_end t : alias_step table t = None -> Chain table t t 0
| Chain_link t t' final n :
    alias_step table t = Some t' -> Chain table t' final n -> Chain table t final (S n).


Lemma resolveAlias_unfold fuel table type :
  resolveAlias fuel table type
  = match alias_step table type with
    | Some annotation =>
        match fuel with O => None | S fuel' => resolveAlias fuel' table annotation end
    | None => Some type
    end.
Proof.
  destruct fuel; destruct type as [| | | |n [id|]| | | | | | |]; simpl; try reflexivity;
    destruct (id =? 0); try reflexivity;
    destruct (table_get table id) as [d|]; try reflexivity;
    destruct (typeAnnotation d); reflexivity.
Qed.






(** ** Inlining what has been inlined *)


(** The arguments of an application, one after the other. *)
Fixpoint transformArgs (f : QuintEx -> option QuintEx) (l : list QuintEx)
  : option (list QuintEx) :=
  match l with
  | [] => Some []
  | a :: rest =>
      match f a, transformArgs f rest with
      | Some a', Some rest' => Some (a' :: rest')
      | _, _ => None
      end
  end.

Lemma transformExpression_app fuel table opcode args id :
  transformExpression fuel table (EApp opcode args id)
  = option_map (fun args' => EApp opcode args' id)
      (transformArgs (transformExpression fuel table) args).
Proof.
  simpl. f_equal. induction args as [|a rest IH]; [reflexivity|].
  simpl. rewrite IH. reflexivity.
Qed.


Section FixedPoint.

Variables table table' : LookupTable.

(** The second table takes for an alias nothing that the first does not. *)
Hypothesis settled_stays : forall t, alias_step table t = None -> alias_step table' t = None.










End FixedPoint.

(** The table after inlining: the same keys, and an annotation where there
    was one. *)
Lemma Map_of_NoDup (m : LookupTable) : NoDup (map fst m) -> Js.Map_of Z.eqb m = m.
Proof.
  unfold Js.Map_of.
  assert (H : forall (l acc : LookupTable), NoDup (map fst (acc ++ l)) ->
                            fold_left (fun m (kv : Z * LookupDef) =>
                                         Js.Map_set Z.eqb m (fst kv) (snd kv)) l acc
                            = (acc ++ l)%list).
  { induction l as [|[k v] l IH]; intros acc Hnd; simpl.
    - rewrite app_nil_r. reflexivity.
    - assert (Hset : Js.Map_set Z.eqb acc k v = (acc ++ [(k, v)])%list).
      { assert (Hk : ~ In k (map fst acc)).
        { rewrite map_app in Hnd. simpl in Hnd. apply NoDup_remove_2 in Hnd.
          intros Hin. apply Hnd. apply in_or_app. left. exact Hin. }
        clear -Hk. induction acc as [|[k' v'] acc IHacc]; simpl; [reflexivity|].
        destruct (Z.eqb k' k) eqn:E.
        - apply Z.eqb_eq in E. subst. exfalso. apply Hk. left. reflexivity.
        - rewrite IHacc; [reflexivity|]. intros Hin. apply Hk. right. exact Hin. }
      rewrite Hset, IH; rewrite <- app_assoc; [reflexivity|exact Hnd]. }
  intros Hnd. apply (H m []). exact Hnd.
Qed.

Lemma inlined_entries fuel table :
  forall entries entries',
    mapO (inlineEntry fuel table) entries = Some entries' ->
    map fst entries' = map fst entries /\
    forall id,
      match table_get entries id, table_get entries' id with
      | Some d, Some d' => typeAnnotation d = None -> typeAnnotation d' = None
      | None, None => True
      | _, _ => False
      end.
Proof.
  induction entries as [|[k d] entries IH]; intros entries' H; simpl in H.
  - inversion H; subst. split; [reflexivity|]. intros id. exact I.
  - destruct (inlineEntry fuel table (k, d)) as [[k' d']|] eqn:Ee; [|discriminate].
    destruct (mapO (inlineEntry fuel table) entries) as [rest'|] eqn:Er; [|discriminate].
    inversion H; subst. destruct (IH _ eq_refl) as [Hkeys Hget].
    assert (Hk : k' = k /\ (typeAnnotation d = None -> typeAnnotation d' = None)).
    { unfold inlineEntry in Ee. simpl in Ee. destruct (typeAnnotation d) as [ann|] eqn:Ea.
      - destruct (inlineAliasesInType fuel ann table); [|discriminate].
        inversion Ee; subst. split; [reflexivity|discriminate].
      - inversion Ee; subst. split; [reflexivity|intros _; exact Ea]. }
    destruct Hk as [-> Hann]. split; [simpl; rewrite Hkeys; reflexivity|].
    intros id. unfold table_get. simpl. destruct (Z.eqb k id); [exact Hann|apply Hget].
Qed.





(** ** Concrete runs *)

(** [type T1 = T2], [type T2 = T3], [type T3 = int]: the references with ids
    10, 11 and 12 resolve to the definitions of [T1], [T2] and [T3], and the
    reference with id 20 to the uninterpreted type [U]. *)
Definition aliasTable : LookupTable :=
  [(10, mkLookupDef "typedef" (Some (TConst "T2" (Some 11))));
   (11, mkLookupDef "typedef" (Some (TConst "T3" (Some 12))));
   (12, mkLookupDef "typedef" (Some (TInt (Some 13))));
   (20, mkLookupDef "typedef" None)].

Definition aliasModule : QuintModule :=
  mkModule "M"
    [DTypeDef "U" None 1;
     DVar "x" (TSet (TConst "T1" (Some 10)) (Some 2)) 3;
     DConst "u" (TConst "U" (Some 20)) 4]
    5.

Lemma aliasChain : Chain aliasTable (TConst "T1" (Some 10)) (TInt (Some 13)) 3.
Proof.
  eapply Chain_link; [reflexivity|].
  eapply Chain_link; [reflexivity|].
  eapply Chain_link; [reflexivity|].
  apply Chain_end. reflexivity.
Qed.

(** C8, on the chain [T1 = T2], [T2 = T3], [T3 = int]: the type of [x]
    is inlined and the uninterpreted [U] is kept. *)
Lemma inlining_the_chain :
  inlineAliasesInType 4 (TConst "T1" (Some 10)) aliasTable = Some (TInt (Some 13)) /\
  inlineTypeAliases 5 [aliasModule] aliasTable
  = Some ([mkModule "M"
             [DTypeDef "U" None 1;
              DVar "x" (TSet (TInt (Some 13)) (Some 2)) 3;
              DConst "u" (TConst "U" (Some 20)) 4]
             5],
          [(10, mkLookupDef "typedef" (Some (TInt (Some 13))));
           (11, mkLookupDef "typedef" (Some (TInt (Some 13))));
           (12, mkLookupDef "typedef" (Some (TInt (Some 13))));
           (20, mkLookupDef "typedef" None)]).
Proof. split; vm_compute; reflexivity. Qed.

(** The test [type.id] takes the id [0n] for no id: a reference with the id
    [0n] is not looked up. *)
Lemma reference_with_id_zero_is_kept fuel name def :
  resolveAlias fuel [(0, def)] (TConst name (Some 0)) = Some (TConst name (Some 0)).
Proof. destruct fuel; reflexivity. Qed.

(** ** Cyclic aliases *)

(** [n] alias steps from a type, when the table allows as many. *)
Fixpoint alias_iter (n : nat) (table : LookupTable) (type : QuintType) : option QuintType :=
  match n with
  | O => Some type
  | S n' =>
      match alias_step table type with
      | Some annotation => alias_iter n' table annotation
      | None => None
      end
  end.

Lemma alias_iter_add a b table t :
  alias_iter (a + b) table t
  = match alias_iter a table t with
    | Some t' => alias_iter b table t'
    | None => None
    end.
Proof.
  revert t. induction a as [|a IH]; intros t; simpl; [reflexivity|].
  destruct (alias_step table t); [apply IH|reflexivity].
Qed.

Lemma cycle_repeats n table t :
  alias_iter n table t = Some t -> forall q, alias_iter (q * n) table t = Some t.
Proof.
  intros H q. induction q as [|q IH]; simpl; [reflexivity|].
  rewrite alias_iter_add, H. exact IH.
Qed.

Lemma cycle_goes_on n table t :
  (0 < n)%nat -> alias_iter n table t = Some t -> forall k, alias_iter k table t <> None.
Proof.
  intros Hn H k Hk.
  pose proof (cycle_repeats n table t H (S k)) as Hrep.
  replace (S k * n)%nat with (k + (S k * n - k))%nat in Hrep by nia.
  rewrite alias_iter_add, Hk in Hrep. discriminate.
Qed.

Lemma resolveAlias_out_of_fuel table fuel :
  forall t, alias_iter (S fuel) table t <> None -> resolveAlias fuel table t = None.
Proof.
  induction fuel as [|fuel IH]; intros t H; rewrite resolveAlias_unfold;
    simpl in H; destruct (alias_step table t) as [t'|]; try contradiction; [reflexivity|].
  apply IH. exact H.
Qed.

(** An alias that leads back to itself is followed for ever: neither
    [resolveAlias] nor the inlining of a reference to it returns, however
    long they run. Nothing in [resolveAlias] detects the cycle. *)
Theorem resolveAlias_never_returns_on_a_cycle (table : LookupTable) (type : QuintType)
  (n : nat) :
  (0 < n)%nat ->
  alias_iter n table type = Some type ->
  forall fuel,
    resolveAlias fuel table type = None /\
    inlineAliasesInType fuel type table = None.
Proof.
  intros Hn Hcycle fuel.
  assert (Hres : forall fuel', resolveAlias fuel' table type = None).
  { intros fuel'. apply resolveAlias_out_of_fuel. apply (cycle_goes_on n); assumption. }
  split; [apply Hres|].
  unfold inlineAliasesInType. destruct fuel as [|fuel]; [reflexivity|].
  simpl. unfold enterType. rewrite Hres. reflexivity.
Qed.

(** [type A = B] and [type B = A]. *)
Definition cyclicTable : LookupTable :=
  [(1, mkLookupDef "typedef" (Some (TConst "B" (Some 2))));
   (2, mkLookupDef "typedef" (Some (TConst "A" (Some 1))))].

Lemma resolveAlias_never_returns_on_a_cycle_witness :
  (0 < 2)%nat /\
  alias_iter 2 cyclicTable (TConst "A" (Some 1)) = Some (TConst "A" (Some 1)) /\
  forall fuel,
    resolveAlias fuel cyclicTable (TConst "A" (Some 1)) = None /\
    inlineAliasesInType fuel (TConst "A" (Some 1)) cyclicTable = None.
Proof.
  split; [lia|]. split; [reflexivity|].
  apply (resolveAlias_never_returns_on_a_cycle cyclicTable (TConst "A" (Some 1)) 2);
    [lia|reflexivity].
Defined.

(** ** What inlining keeps *)

Lemma mapO_Forall2 {A B : Type} (f : A -> option B) l :
  forall l', mapO f l = Some l' -> Forall2 (fun a b => f a = Some b) l l'.
Proof.
  induction l as [|a l IH]; intros l' H; simpl in H.
  - inversion H. constructor.
  - destruct (f a) as [b|] eqn:E; [|discriminate].
    destruct (mapO f l) as [bs|]; [|discriminate]. inversion H; subst.
    constructor; [exact E|apply IH; reflexivity].
Qed.

Lemma Forall2_map_eq {A B C : Type} (R : A -> B -> Prop) (f : A -> C) (g : B -> C) l l' :
  (forall a b, R a b -> g b = f a) -> Forall2 R l l' -> map g l' = map f l.
Proof.
  intros HR. induction 1 as [|a b l l' Hab _ IH]; simpl; [reflexivity|].
  rewrite (HR a b Hab), IH. reflexivity.
Qed.

(** The head of a declaration: its kind, name and id. *)
Definition def_head (d : QuintDef) : string * string * Z :=
  (FlatteningFacts.def_kind d, def_name d, def_id d).

Lemma transformDefinition_head fuel table d d' :
  transformDefinition fuel table d = Some d' -> def_head d' = def_head d.
Proof.
  destruct d as [[n q e ann i]|n ann i|n ann i|n a i|n ty i|n p i|n P ovs i]; simpl.
  - destruct (transformOptType fuel table ann); [|discriminate].
    destruct (transformExpression fuel table e); [|discriminate].
    intros H. inversion H. reflexivity.
  - destruct (transformType fuel table ann); [|discriminate]. intros H. inversion H. reflexivity.
  - destruct (transformType fuel table ann); [|discriminate]. intros H. inversion H. reflexivity.
  - destruct (transformExpression fuel table a); [|discriminate].
    intros H. inversion H. reflexivity.
  - destruct (transformOptType fuel table ty); [|discriminate]. intros H. inversion H. reflexivity.
  - intros H. inversion H. reflexivity.
  - destruct (mapO _ ovs); [|discriminate]. intros H. inversion H. reflexivity.
Qed.

(** The head of a module: its name, its id and the heads of its
    declarations. *)
Definition module_head (m : QuintModule) : string * Z * list (string * string * Z) :=
  (module_name m, module_id m, map def_head (module_defs m)).

Lemma inlineAliasesInModule_head fuel table m m' :
  inlineAliasesInModule fuel m table = Some m' -> module_head m' = module_head m.
Proof.
  unfold inlineAliasesInModule, transformModule.
  destruct (mapO (transformDefinition fuel table) (module_defs m)) as [defs'|] eqn:E;
    [|discriminate].
  intros H. inversion H; subst. unfold module_head. simpl. f_equal.
  apply mapO_Forall2 in E.
  apply (Forall2_map_eq _ _ _ _ _ (transformDefinition_head fuel table) E).
Qed.

(** The head of a table entry: its key, its kind and whether it has a type
    annotation. *)
Definition entry_head (entry : Z * LookupDef) : Z * string * bool :=
  (fst entry, kind (snd entry),
   match typeAnnotation (snd entry) with Some _ => true | None => false end).

Lemma inlineEntry_head fuel table entry entry' :
  inlineEntry fuel table entry = Some entry' -> entry_head entry' = entry_head entry.
Proof.
  unfold inlineEntry, entry_head. destruct (typeAnnotation (snd entry)) as [ann|] eqn:E.
  - destruct (inlineAliasesInType fuel ann table); [|discriminate].
    intros H. inversion H; subst. simpl. reflexivity.
  - intros H. inversion H; subst. rewrite E. reflexivity.
Qed.

(** Inlining rewrites types and nothing else. When it returns, the modules
    are those it was given, in their order, each with its name, its id and
    its declarations in their order with their kinds, names and ids; the
    table has the same keys in the same order, each entry with its kind, and
    an annotation exactly where there was one. *)
Theorem inlineTypeAliases_keeps_heads (fuel : nat) (modules modules' : list QuintModule)
  (table table' : LookupTable) :
  NoDup (map fst table) ->
  inlineTypeAliases fuel modules table = Some (modules', table') ->
  map module_head modules' = map module_head modules /\
  map entry_head table' = map entry_head table.
Proof.
  intros Hnd H. unfold inlineTypeAliases in H.
  destruct (mapO (fun m => inlineAliasesInModule fuel m table) modules) as [ms|] eqn:Em;
    [|discriminate].
  destruct (mapO (inlineEntry fuel table) table) as [entries|] eqn:Et; [|discriminate].
  inversion H; subst. clear H. split.
  - apply mapO_Forall2 in Em.
    apply (Forall2_map_eq _ _ _ _ _ (fun m m' => inlineAliasesInModule_head fuel table m m') Em).
  - destruct (inlined_entries fuel table table entries Et) as [Hkeys _].
    rewrite Map_of_NoDup by (rewrite Hkeys; exact Hnd).
    apply mapO_Forall2 in Et.
    apply (Forall2_map_eq _ _ _ _ _ (inlineEntry_head fuel table) Et).
Qed.
(** The module and the table of the chain [T1 = T2], [T2 = T3], [T3 = int]
    with the aliases inlined. *)
Definition inlinedModule : QuintModule :=
  mkModule "M"
    [DTypeDef "U" None 1;
     DVar "x" (TSet (TInt (Some 13)) (Some 2)) 3;
     DConst "u" (TConst "U" (Some 20)) 4]
    5.

Definition inlinedTable : LookupTable :=
  [(10, mkLookupDef "typedef" (Some (TInt (Some 13))));
   (11, mkLookupDef "typedef" (Some (TInt (Some 13))));
   (12, mkLookupDef "typedef" (Some (TInt (Some 13))));
   (20, mkLookupDef "typedef" None)].

Lemma aliasTable_keys : NoDup (map fst aliasTable).
Proof.
  simpl. repeat constructor; simpl; intros H;
    repeat (destruct H as [H|H]; [discriminate H|]); exact H.
Qed.

Lemma inlineTypeAliases_keeps_heads_witness :
  NoDup (map fst aliasTable) /\
  inlineTypeAliases 5 [aliasModule] aliasTable = Some ([inlinedModule], inlinedTable) /\
  map module_head [inlinedModule] = map module_head [aliasModule] /\
  map entry_head inlinedTable = map entry_head aliasTable.
Proof.
  split; [exact aliasTable_keys|]. split; [vm_compute; reflexivity|].
  apply (inlineTypeAliases_keeps_heads 5 [aliasModule] [inlinedModule] aliasTable inlinedTable
           aliasTable_keys).
  vm_compute. reflexivity.
Defined.

(** ** Tables without cycles *)

(** The weight of a type, given a weight for each [const] reference: a
    compound type weighs more than its components together. *)
Fixpoint weight (w : string -> option Z -> nat) (t : QuintType) : nat :=
  match t with
  | TBool _ | TInt _ | TStr _ | TVar _ _ => O
  | TConst n i => w n i
  | TSet elem _ | TList elem _ => S (weight w elem)
  | TFun arg res _ => S (weight w arg + weight w res)
  | TOper args res _ => S (list_sum (map (weight w) args) + weight w res)
  | TTup fields _ | TRec fields _ => S (row_weight w fields)
  | TUnion _ records _ => S (list_sum (map (fun record => row_weight w (snd record)) records))
  end
with row_weight (w : string -> option Z -> nat) (row : Row) : nat :=
  match row with
  | RowFields fields other =>
      S (list_sum (map (fun field => weight w (snd field)) fields) + row_weight w other)
  | RowVar _ | RowEmpty => O
  end.

(** The references weigh more than what they stand for: no alias leads
    back to itself, directly or through the components of a type. *)
Definition outweighs (w : string -> option Z -> nat) (table : LookupTable) : Prop :=
  forall t t', alias_step table t = Some t' -> (weight w t' < weight w t)%nat.

Lemma list_sum_bound {A : Type} (f : A -> nat) l x :
  In x l -> (f x <= list_sum (map f l))%nat.
Proof.
  induction l as [|a l IH]; intros Hin; [destruct Hin|].
  simpl. destruct Hin as [->|Hin]; [lia|]. specialize (IH Hin). lia.
Qed.

Lemma mapO_returns {A B : Type} (f : A -> option B) l :
  (forall a, In a l -> exists b, f a = Some b) -> exists bs, mapO f l = Some bs.
Proof.
  induction l as [|a l IH]; intros H; simpl; [eauto|].
  destruct (H a (or_introl eq_refl)) as (b & ->).
  destruct IH as (bs & ->); [intros x Hx; apply H; right; exact Hx|]. eauto.
Qed.

Section WellFounded.

Variable w : string -> option Z -> nat.
Variable table : LookupTable.
Hypothesis Houtweighs : outweighs w table.

Lemma resolveAlias_returns fuel :
  forall t, (weight w t <= fuel)%nat ->
            exists r, resolveAlias fuel table t = Some r /\ (weight w r <= weight w t)%nat.
Proof.
  induction fuel as [|fuel IH]; intros t Hfuel; rewrite resolveAlias_unfold;
    destruct (alias_step table t) as [t'|] eqn:E; try (exists t; split; [reflexivity|lia]).
  - apply Houtweighs in E. lia.
  - pose proof (Houtweighs _ _ E) as Hlt.
    destruct (IH t' ltac:(lia)) as (r & Hr & Hw). exists r. split; [exact Hr|lia].
Qed.

Lemma transform_returns fuel :
  (forall t, (weight w t < fuel)%nat -> exists r, transformType fuel table t = Some r) /\
  (forall row, (row_weight w row < fuel)%nat -> exists r, transformRow fuel table row = Some r).
Proof.
  induction fuel as [|fuel [IHt IHr]]; [split; intros x H; lia|].
  assert (Hfields : forall fields,
             (list_sum (map (fun field => weight w (snd field)) fields) < fuel)%nat ->
             exists fields',
               mapO (fun field : string * QuintType =>
                       option_map (fun fieldType' => (fst field, fieldType'))
                         (transformType fuel table (snd field))) fields = Some fields').
  { intros fields Hsum. apply mapO_returns. intros field Hin.
    pose proof (list_sum_bound (fun field => weight w (snd field)) fields field Hin) as Hb.
    destruct (IHt (snd field)) as (r & ->); [simpl in Hb; lia|]. simpl. eauto. }
  assert (Hrow : forall row, (row_weight w row < S fuel)%nat ->
                             exists r, transformRow (S fuel) table row = Some r).
  { intros [fields other|n|] Hw; simpl; eauto. simpl in Hw.
    destruct (Hfields fields) as (fields' & ->); [lia|].
    destruct (IHr other) as (other' & ->); [lia|]. eauto. }
  split; [|exact Hrow].
  intros t Hw. simpl. unfold enterType.
  destruct (resolveAlias_returns fuel t ltac:(lia)) as (newType & -> & Hnew).
  destruct newType as [i|i|i|n i|n i|elem i|elem i|arg res i|args res i|fields i|fields i|tag records i];
    simpl in Hnew; eauto.
  - destruct (IHt elem) as (r & ->); [lia|]. simpl. eauto.
  - destruct (IHt elem) as (r & ->); [lia|]. simpl. eauto.
  - destruct (IHt arg) as (a & ->); [lia|]. destruct (IHt res) as (r & ->); [lia|]. eauto.
  - destruct (mapO_returns (transformType fuel table) args) as (args' & ->).
    { intros a Hin. apply IHt.
      pose proof (list_sum_bound (weight w) args a Hin). lia. }
    destruct (IHt res) as (r & ->); [lia|]. eauto.
  - destruct (IHr fields) as (r & ->); [lia|]. simpl. eauto.
  - destruct (IHr fields) as (r & ->); [lia|]. simpl. eauto.
  - destruct (mapO_returns
                (fun record : string * Row =>
                   option_map (fun fields' => (fst record, fields'))
                     (transformRow fuel table (snd record))) records) as (records' & ->).
    { intros record Hin.
      pose proof (list_sum_bound (fun record => row_weight w (snd record)) records record Hin)
        as Hb.
      destruct (IHr (snd record)) as (r & ->); [simpl in Hb; lia|]. simpl. eauto. }
    simpl. eauto.
Qed.

(** The types of an expression and of a declaration: the annotations of
    the operators, and the types a declaration declares. *)
Definition annotation_types (ann : option QuintType) : list QuintType :=
  match ann with Some t => [t] | None => [] end.

Fixpoint expr_types (e : QuintEx) : list QuintType :=
  match e with
  | EName _ _ | EBool _ _ | EInt _ _ | EStr _ _ => []
  | EApp _ args _ => flat_map expr_types args
  | ELambda _ _ body _ => expr_types body
  | ELet opdef body _ => (opdef_types opdef ++ expr_types body)%list
  end
with opdef_types (d : QuintOpDef) : list QuintType :=
  match d with OpDef _ _ expr ann _ => (annotation_types ann ++ expr_types expr)%list end.

Definition def_types (d : QuintDef) : list QuintType :=
  match d with
  | DOp opdef => opdef_types opdef
  | DConst _ ann _ | DVar _ ann _ => [ann]
  | DAssume _ assumption _ => expr_types assumption
  | DTypeDef _ type _ => annotation_types type
  | DImport _ _ _ => []
  | DInstance _ _ overrides _ => flat_map (fun override => expr_types (snd override)) overrides
  end.

Definition module_types (m : QuintModule) : list QuintType :=
  flat_map def_types (module_defs m).

Definition table_types (t : LookupTable) : list QuintType :=
  flat_map (fun entry => annotation_types (typeAnnotation (snd entry))) t.

Lemma transformOptType_returns fuel ann :
  (forall t, In t (annotation_types ann) -> (weight w t < fuel)%nat) ->
  exists r, transformOptType fuel table ann = Some r.
Proof.
  destruct ann as [t|]; simpl; [|eauto]. intros H.
  destruct (proj1 (transform_returns fuel) t) as (r & ->); [apply H; left; reflexivity|].
  simpl. eauto.
Qed.

Lemma transformExpression_returns fuel :
  forall e, (forall t, In t (expr_types e) -> (weight w t < fuel)%nat) ->
            exists r, transformExpression fuel table e = Some r.
Proof.
  apply (FlatteningFacts.expr_induction
           (fun e => (forall t, In t (expr_types e) -> (weight w t < fuel)%nat) ->
                     exists r, transformExpression fuel table e = Some r)
           (fun d => (forall t, In t (opdef_types d) -> (weight w t < fuel)%nat) ->
                     exists r, transformOpDef fuel table d = Some r)).
  - intros; simpl; eauto.
  - intros; simpl; eauto.
  - intros; simpl; eauto.
  - intros; simpl; eauto.
  - intros opcode args i IH H. rewrite transformExpression_app.
    assert (Hargs : exists args', transformArgs (transformExpression fuel table) args = Some args').
    { induction IH as [|a l Ha _ IHl]; simpl; [eauto|].
      destruct Ha as (a' & ->).
      { intros t Ht. apply H. simpl. apply in_or_app. left. exact Ht. }
      destruct IHl as (rest' & ->); [|eauto].
      intros t Ht. apply H. simpl. apply in_or_app. right. exact Ht. }
    destruct Hargs as (args' & ->). simpl. eauto.
  - intros params q body i IH H. simpl. destruct (IH H) as (r & ->). simpl. eauto.
  - intros opdef body i IHop IHbody H. simpl.
    destruct IHop as (o & ->); [intros t Ht; apply H; simpl; apply in_or_app; left; exact Ht|].
    destruct IHbody as (b & ->); [intros t Ht; apply H; simpl; apply in_or_app; right; exact Ht|].
    eauto.
  - intros n q expr ann i IH H. simpl.
    destruct (transformOptType_returns fuel ann) as (a & ->).
    { intros t Ht. apply H. simpl. apply in_or_app. left. exact Ht. }
    destruct IH as (e & ->); [intros t Ht; apply H; simpl; apply in_or_app; right; exact Ht|].
    eauto.
Qed.

Lemma transformOpDef_returns fuel d :
  (forall t, In t (opdef_types d) -> (weight w t < fuel)%nat) ->
  exists r, transformOpDef fuel table d = Some r.
Proof.
  destruct d as [n q expr ann i]. intros H. simpl.
  destruct (transformOptType_returns fuel ann) as (a & ->).
  { intros t Ht. apply H. simpl. apply in_or_app. left. exact Ht. }
  destruct (transformExpression_returns fuel expr) as (e & ->); [|eauto].
  intros t Ht. apply H. simpl. apply in_or_app. right. exact Ht.
Qed.

Lemma transformDefinition_returns fuel def :
  (forall t, In t (def_types def) -> (weight w t < fuel)%nat) ->
  exists r, transformDefinition fuel table def = Some r.
Proof.
  destruct def as [opdef|n ann i|n ann i|n a i|n ty i|n p i|n P ovs i]; simpl; intros H.
  - destruct (transformOpDef_returns fuel opdef H) as (r & ->). simpl. eauto.
  - destruct (proj1 (transform_returns fuel) ann) as (r & ->); [apply H; left; reflexivity|].
    simpl. eauto.
  - destruct (proj1 (transform_returns fuel) ann) as (r & ->); [apply H; left; reflexivity|].
    simpl. eauto.
  - destruct (transformExpression_returns fuel a H) as (r & ->). simpl. eauto.
  - destruct (transformOptType_returns fuel ty H) as (r & ->). simpl. eauto.
  - eauto.
  - destruct (mapO_returns
                (fun override : QuintLambdaParameter * QuintEx =>
                   option_map (fun expr' => (fst override, expr'))
                     (transformExpression fuel table (snd override))) ovs) as (ovs' & ->).
    { intros override Hin.
      destruct (transformExpression_returns fuel (snd override)) as (r & ->).
      - intros t Ht. apply H. apply in_flat_map. exists override. split; assumption.
      - simpl. eauto. }
    simpl. eauto.
Qed.

Lemma inlineTypeAliases_returns fuel modules :
  (forall t, In t (flat_map module_types modules ++ table_types table) ->
             (weight w t < fuel)%nat) ->
  exists modules' table', inlineTypeAliases fuel modules table = Some (modules', table').
Proof.
  intros H. unfold inlineTypeAliases.
  destruct (mapO_returns (fun m => inlineAliasesInModule fuel m table) modules) as (ms & ->).
  { intros m Hm. unfold inlineAliasesInModule, transformModule.
    destruct (mapO_returns (transformDefinition fuel table) (module_defs m)) as (defs' & ->).
    - intros def Hdef. apply transformDefinition_returns. intros t Ht. apply H.
      apply in_or_app. left. apply in_flat_map. exists m. split; [exact Hm|].
      apply in_flat_map. exists def. split; assumption.
    - simpl. eauto. }
  destruct (mapO_returns (inlineEntry fuel table) table) as (entries & ->); [|eauto].
  intros entry Hentry. unfold inlineEntry, inlineAliasesInType.
  destruct (typeAnnotation (snd entry)) as [ann|] eqn:E; [|eauto].
  destruct (proj1 (transform_returns fuel) ann) as (r & ->); [|simpl; eauto].
  apply H. apply in_or_app. right. apply in_flat_map. exists entry. split; [exact Hentry|].
  rewrite E. left. reflexivity.
Qed.

End WellFounded.

(** Inlining returns on a table without cycles. When the references can be
    given weights under which every alias weighs more than the type it
    stands for, [resolveAlias] returns for every type, and
    [inlineTypeAliases] returns modules and a table, once they are given
    room beyond the weight of the types involved. *)
Theorem inlineTypeAliases_returns_without_cycles (w : string -> option Z -> nat)
  (table : LookupTable) (modules : list QuintModule) (fuel : nat) :
  outweighs w table ->
  (forall t, In t (flat_map module_types modules ++ table_types table) ->
             (weight w t < fuel)%nat) ->
  (forall t, (weight w t <= fuel)%nat -> exists r, resolveAlias fuel table t = Some r) /\
  exists modules' table', inlineTypeAliases fuel modules table = Some (modules', table').
Proof.
  intros Hw Hfuel. split.
  - intros t Ht. destruct (resolveAlias_returns w table Hw fuel t Ht) as (r & Hr & _). eauto.
  - apply (inlineTypeAliases_returns w table Hw). exact Hfuel.
Qed.
(** Weights for the chain [T1 = T2], [T2 = T3], [T3 = int]. *)
Definition chainWeight (name : string) (id : option Z) : nat :=
  match id with
  | Some 10 => 3
  | Some 11 => 2
  | Some 12 => 1
  | _ => 0
  end.

Lemma aliasTable_outweighed : outweighs chainWeight aliasTable.
Proof.
  intros t t' H. destruct t as [| | | |n [id|]| | | | | | |]; try discriminate H.
  unfold alias_step in H. destruct (id =? 0); [discriminate H|].
  unfold table_get, aliasTable in H. cbn [Js.Map_get] in H.
  destruct (10 =? id) eqn:E10.
  { apply Z.eqb_eq in E10. subst id. inversion H; subst. simpl. lia. }
  destruct (11 =? id) eqn:E11.
  { apply Z.eqb_eq in E11. subst id. inversion H; subst. simpl. lia. }
  destruct (12 =? id) eqn:E12.
  { apply Z.eqb_eq in E12. subst id. inversion H; subst. simpl. lia. }
  destruct (20 =? id); discriminate H.
Qed.

Lemma aliasModule_weights :
  forall t, In t (flat_map module_types [aliasModule] ++ table_types aliasTable) ->
            (weight chainWeight t < 5)%nat.
Proof.
  simpl. intros t H.
  repeat (destruct H as [<-|H]; [simpl; lia|]). destruct H.
Qed.

Lemma inlineTypeAliases_returns_without_cycles_witness :
  outweighs chainWeight aliasTable /\
  (forall t, In t (flat_map module_types [aliasModule] ++ table_types aliasTable) ->
             (weight chainWeight t < 5)%nat) /\
  (forall t, (weight chainWeight t <= 5)%nat -> exists r, resolveAlias 5 aliasTable t = Some r) /\
  exists modules' table', inlineTypeAliases 5 [aliasModule] aliasTable = Some (modules', table').
Proof.
  split; [exact aliasTable_outweighed|]. split; [exact aliasModule_weights|].
  exact (inlineTypeAliases_returns_without_cycles chainWeight aliasTable [aliasModule] 5
           aliasTable_outweighed aliasModule_weights).
Defined.

End InlinerFacts.

(** * Properties of the import resolver *)

Module ResolverFacts.

Import DefinitionsCollector ImportResolver.

(** ** Unresolved declarations *)

(** An import is unresolved when the module it names has no table, or, for a
    named import, when the name is not in that table or is a nested module
    without a table of its own. An instantiation is unresolved when its
    prototype has no table or an override names no identifier of it. *)
Definition unresolved (tables : LookupTableByModule) (def : TntDef) : bool :=
  match def with
  | TntImport name path _ =>
      match tables_get tables path with
      | None => true
      | Some moduleTable =>
          negb (String.eqb name "*") &&
          match table_get moduleTable name with
          | None => true
          | Some cell =>
              isModuleEntry cell &&
              match tables_get tables name with None => true | Some _ => false end
          end
      end
  | TntInstance _ protoName overrides _ =>
      match tables_get tables protoName with
      | None => true
      | Some protoTable =>
          existsb (fun o => negb (Js.Map_has String.eqb protoTable (fst o))) overrides
      end
  | _ => false
  end.

(** The errors one declaration contributes. *)
Definition declErrors (tables : LookupTableByModule) (def : TntDef) : list ImportError :=
  fst (resolveDef tables def []).

Lemma resolveDef_errors tables def importer :
  fst (resolveDef tables def importer) = declErrors tables def.
Proof.
  unfold declErrors.
  destruct def as [opdef|n t i|n t i|n a i|n t i|name path i|name proto ovs i|m i];
    try reflexivity; simpl.
  - unfold resolveImport. destruct (tables_get tables path) as [moduleTable|]; [|reflexivity].
    destruct (String.eqb name "*"); [reflexivity|].
    destruct (table_get moduleTable name) as [cell|]; [|reflexivity].
    destruct (isModuleEntry cell); [|reflexivity].
    destruct (tables_get tables name); reflexivity.
  - unfold resolveInstance. destruct (tables_get tables proto); reflexivity.
Qed.

Lemma resolveDefs_errors tables defs :
  forall importer, fst (resolveDefs tables defs importer) = flat_map (declErrors tables) defs.
Proof.
  unfold resolveDefs.
  assert (H : forall acc,
             fst (fold_left
                    (fun acc def =>
                       let (errors, table) := resolveDef tables def (snd acc) in
                       ((fst acc ++ errors)%list, table))
                    defs acc)
             = (fst acc ++ flat_map (declErrors tables) defs)%list).
  { induction defs as [|d defs IH]; intros acc; simpl.
    - rewrite app_nil_r. reflexivity.
    - rewrite IH. pose proof (resolveDef_errors tables d (snd acc)) as Hd.
      destruct (resolveDef tables d (snd acc)) as [errors table]. simpl in *.
      rewrite Hd, <- app_assoc. reflexivity. }
  intros importer. apply (H ([], importer)).
Qed.

Lemma overrideErrors_nil protoName protoTable id overrides :
  overrideErrors protoName protoTable id overrides = [] <->
  existsb (fun o => negb (Js.Map_has String.eqb protoTable (fst o))) overrides = false.
Proof.
  unfold overrideErrors. induction overrides as [|o overrides IH]; simpl.
  - split; reflexivity.
  - destruct (Js.Map_has String.eqb protoTable (fst o)); simpl; [exact IH|].
    split; discriminate.
Qed.

Lemma declErrors_nil tables def : declErrors tables def = [] <-> unresolved tables def = false.
Proof.
  unfold declErrors.
  destruct def as [opdef|n t i|n t i|n a i|n t i|name path i|name proto ovs i|m i];
    try (simpl; split; reflexivity); simpl.
  - unfold resolveImport. destruct (tables_get tables path) as [moduleTable|];
      [|split; discriminate].
    destruct (String.eqb name "*"); [split; reflexivity|]. simpl.
    destruct (table_get moduleTable name) as [cell|]; [|split; discriminate].
    destruct (isModuleEntry cell); [|split; reflexivity]. simpl.
    destruct (tables_get tables name); split; try reflexivity; discriminate.
  - unfold resolveInstance. destruct (tables_get tables proto) as [protoTable|];
      [|split; discriminate].
    simpl. apply overrideErrors_nil.
Qed.

Lemma flat_map_nil {A B : Type} (f : A -> list B) l :
  flat_map f l = [] <-> forall a, In a l -> f a = [].
Proof.
  induction l as [|a l IH]; simpl.
  - split; [intros _ a []|reflexivity].
  - split.
    + intros H. apply app_eq_nil in H. destruct H as [Ha Hl].
      intros b [<-|Hb]; [exact Ha|]. apply IH; assumption.
    + intros H. rewrite (H a (or_introl eq_refl)).
      apply IH. intros b Hb. apply H. right. exact Hb.
Qed.

(** C7. [resolveImports] returns an error result exactly when some
    declaration of the module is an unresolved import or instantiation; the
    error list is then the errors of all declarations, in their order; an
    import or instantiation of a module without a table contributes the one
    entry with that [moduleName]; a named import of a name absent from the
    module's table contributes the one entry with that [defName]; and an
    error result carries no table: the tables are returned only when the
    error list is empty. *)
Theorem resolveImports_reports_every_unresolved (tntModule : TntModule)
  (tables : LookupTableByModule) :
  ((exists errors, resolveImports tntModule tables = ResolutionError errors) <->
   existsb (unresolved tables) (tnt_module_defs tntModule) = true) /\
  (forall errors,
      resolveImports tntModule tables = ResolutionError errors ->
      errors <> [] /\ errors = flat_map (declErrors tables) (tnt_module_defs tntModule)) /\
  (forall definitions,
      resolveImports tntModule tables = ResolutionOk definitions ->
      flat_map (declErrors tables) (tnt_module_defs tntModule) = []) /\
  (forall name path id,
      tables_get tables path = None ->
      declErrors tables (TntImport name path id) = [mkImportError (Some path) None id]) /\
  (forall name protoName overrides id,
      tables_get tables protoName = None ->
      declErrors tables (TntInstance name protoName overrides id)
      = [mkImportError (Some protoName) None id]) /\
  (forall name path id moduleTable,
      tables_get tables path = Some moduleTable ->
      String.eqb name "*" = false ->
      table_get moduleTable name = None ->
      declErrors tables (TntImport name path id) = [mkImportError (Some path) (Some name) id]).
Proof.
  assert (Hcases :
           match resolveImports tntModule tables with
           | ResolutionOk _ => flat_map (declErrors tables) (tnt_module_defs tntModule) = []
           | ResolutionError errors =>
               errors <> [] /\
               errors = flat_map (declErrors tables) (tnt_module_defs tntModule)
           end).
  { unfold resolveImports.
    match goal with
    | |- context [resolveDefs tables ?defs ?importer] =>
        pose proof (resolveDefs_errors tables defs importer) as Herr;
        destruct (resolveDefs tables defs importer) as [errors table]
    end.
    simpl in Herr. subst errors.
    destruct (flat_map (declErrors tables) (tnt_module_defs tntModule)) as [|e errors];
      [reflexivity|]. split; [discriminate|reflexivity]. }
  split; [|split; [|split; [|split; [|split]]]].
  - split.
    + intros (errors & Heq). rewrite Heq in Hcases. destruct Hcases as [Hne Herr].
      destruct (existsb (unresolved tables) (tnt_module_defs tntModule)) eqn:E; [reflexivity|].
      exfalso. apply Hne. rewrite Herr. apply flat_map_nil. intros d Hd.
      apply declErrors_nil. destruct (unresolved tables d) eqn:Ed; [|reflexivity].
      assert (existsb (unresolved tables) (tnt_module_defs tntModule) = true)
        by (apply existsb_exists; exists d; split; assumption).
      congruence.
    + intros Hex. apply existsb_exists in Hex. destruct Hex as (d & Hd & Hun).
      destruct (resolveImports tntModule tables) as [definitions|errors];
        [|exists errors; reflexivity].
      exfalso. rewrite flat_map_nil in Hcases. apply Hcases in Hd.
      apply declErrors_nil in Hd. congruence.
  - intros errors Heq. rewrite Heq in Hcases. exact Hcases.
  - intros definitions Heq. rewrite Heq in Hcases. exact Hcases.
  - intros name path id Hnone. unfold declErrors. simpl. unfold resolveImport.
    rewrite Hnone. reflexivity.
  - intros name protoName overrides id Hnone. unfold declErrors. simpl. unfold resolveInstance.
    rewrite Hnone. reflexivity.
  - intros name path id moduleTable Hsome Hstar Hnone. unfold declErrors. simpl.
    unfold resolveImport. rewrite Hsome, Hstar, Hnone. reflexivity.
Qed.

(** ** The cases of the test suite *)

Definition valueEntry (kind identifier : string) (reference : Z) (scope : option Z)
  : DefinitionTable :=
  mkDefinitionTable [mkValueDefinition kind identifier (Some reference) scope] [].

Definition testModuleTable : ImportResolver.LookupTable :=
  [("a", valueEntry "def" "a" 1 None);
   ("b", valueEntry "def" "b" 2 None);
   ("c", valueEntry "def" "c" 3 (Some 10));
   ("nested_module", valueEntry "module" "nested_module" 4 None);
   ("unexisting_module", valueEntry "module" "unexisting_module" 5 None)].

Definition nestedModuleTable : ImportResolver.LookupTable :=
  [("d", valueEntry "def" "d" 1 None); ("e", valueEntry "def" "e" 2 (Some 10))].

Definition testTables : LookupTableByModule :=
  [("wrapper", []); ("test_module", testModuleTable); ("nested_module", nestedModuleTable)].

(** [module wrapper { module test_module { def a = 1 def b = 2 } <def> }] *)
Definition wrapper (def : TntDef) : TntModule :=
  TntMod "wrapper"
    [TntModuleDef
       (TntMod "test_module"
          [TntDefOp (TntOp "a" "def" (TntInt 1 1) 2); TntDefOp (TntOp "b" "def" (TntInt 2 3) 4)]
          5) 6;
     def]
    100.

Definition importedKeys (result : ImportResolutionResult) : list string :=
  match result with
  | ResolutionOk definitions =>
      match tables_get definitions "wrapper" with
      | Some table => Js.Map_keys table
      | None => []
      end
  | ResolutionError _ => []
  end.

Lemma test_imports_named_definitions :
  importedKeys (resolveImports (wrapper (TntImport "a" "test_module" 7)) testTables) = ["a"].
Proof. reflexivity. Qed.

Lemma test_imports_all_definitions :
  importedKeys (resolveImports (wrapper (TntImport "*" "test_module" 7)) testTables)
  = ["a"; "b"; "nested_module"; "unexisting_module"].
Proof. reflexivity. Qed.

Lemma test_instantiates_modules :
  importedKeys
    (resolveImports
       (wrapper (TntInstance "test_module_instance" "test_module"
                   [("a", TntInt 3 8); ("b", TntInt 4 9)] 7))
       testTables)
  = ["test_module_instance::a"; "test_module_instance::b";
     "test_module_instance::nested_module"; "test_module_instance::unexisting_module"].
Proof. reflexivity. Qed.

Lemma test_imports_nested_module :
  importedKeys (resolveImports (wrapper (TntImport "nested_module" "test_module" 7)) testTables)
  = ["nested_module::d"].
Proof. reflexivity. Qed.

Lemma test_fails_importing :
  resolveImports (wrapper (TntImport "*" "unexisting_module" 7)) testTables
  = ResolutionError [mkImportError (Some "unexisting_module") None 7].
Proof. reflexivity. Qed.

Lemma test_fails_instantiating :
  resolveImports
    (wrapper (TntInstance "test_module_instance" "unexisting_module"
                [("a", TntName "a" 8); ("b", TntName "b" 9)] 7))
    testTables
  = ResolutionError [mkImportError (Some "unexisting_module") None 7].
Proof. reflexivity. Qed.

Lemma test_fails_importing_nested :
  resolveImports (wrapper (TntImport "unexisting_module" "test_module" 7)) testTables
  = ResolutionError [mkImportError (Some "test_module") (Some "unexisting_module") 7].
Proof. reflexivity. Qed.

(** Errors accumulate over the declarations of a module. *)
Lemma errors_of_two_imports :
  resolveImports
    (TntMod "wrapper" [TntImport "*" "X" 1; TntImport "a" "test_module" 2;
                       TntImport "y" "test_module" 3] 4)
    testTables
  = ResolutionError [mkImportError (Some "X") None 1;
                     mkImportError (Some "test_module") (Some "y") 3].
Proof. reflexivity. Qed.

End ResolverFacts.

(** * Properties of the effect substitutions *)

Module SubstitutionFacts.

Import Substitutions.

(** The quantified names of variables. *)
Fixpoint quantified_names (variables : Variables) : list string :=
  match variables with
  | VConcrete _ => []
  | VQuantified name => [name]
  | VUnion vs => flat_map quantified_names vs
  end.

(** A name is bound as a variable when the first entry of that name is a
    variable entry. *)
Definition binds_variable (subs : Substitutions) (name : string) : bool :=
  match find_sub subs name with
  | Some (SubVariable _ _) => true
  | _ => false
  end.

(** The kind and the name of an entry. *)
Definition sub_key (s : Substitution) : bool * string :=
  match s with
  | SubVariable n _ => (true, n)
  | SubEffect n _ => (false, n)
  end.

Section VariablesInduction.
Variable P : Variables -> Prop.
Hypothesis Hconcrete : forall vars, P (VConcrete vars).
Hypothesis Hquantified : forall name, P (VQuantified name).
Hypothesis Hunion : forall vs, Forall P vs -> P (VUnion vs).

Fixpoint variables_induction (v : Variables) : P v :=
  match v with
  | VConcrete vars => Hconcrete vars
  | VQuantified name => Hquantified name
  | VUnion vs =>
      Hunion vs
        ((fix all (l : list Variables) : Forall P l :=
            match l with
            | [] => Forall_nil P
            | a :: rest => Forall_cons a (variables_induction a) (all rest)
            end) vs)
  end.
End VariablesInduction.

Section EffectInduction.
Variable P : Effect -> Prop.
Hypothesis Hconcrete : forall read update, P (EffConcrete read update).
Hypothesis Harrow : forall params result, Forall P params -> P result -> P (EffArrow params result).
Hypothesis Hquantified : forall name, P (EffQuantified name).

Fixpoint effect_induction (e : Effect) : P e :=
  match e with
  | EffConcrete read update => Hconcrete read update
  | EffArrow params result =>
      Harrow params result
        ((fix all (l : list Effect) : Forall P l :=
            match l with
            | [] => Forall_nil P
            | a :: rest => Forall_cons a (effect_induction a) (all rest)
            end) params)
        (effect_induction result)
  | EffQuantified name => Hquantified name
  end.
End EffectInduction.

Lemma map_fixed {A : Type} (f : A -> A) l : Forall (fun a => f a = a) l -> map f l = l.
Proof. induction 1 as [|a l Ha _ IH]; simpl; [reflexivity|]. rewrite Ha, IH. reflexivity. Qed.

Lemma unbound_is_kept subs :
  forall v,
    (forall n, In n (quantified_names v) -> binds_variable subs n = false) ->
    applySubstitutionToVariables subs v = v.
Proof.
  apply (variables_induction
           (fun v => (forall n, In n (quantified_names v) -> binds_variable subs n = false) ->
                     applySubstitutionToVariables subs v = v)).
  - reflexivity.
  - intros name H. simpl. specialize (H name (or_introl eq_refl)).
    unfold binds_variable in H. destruct (find_sub subs name) as [[m v|m e]|];
      try reflexivity. discriminate H.
  - intros vs IH H. simpl. f_equal. apply map_fixed.
    rewrite Forall_forall in IH |- *. intros v Hv. apply IH; [exact Hv|].
    intros n Hn. apply H. simpl. apply in_flat_map. exists v. split; assumption.
Qed.

(** Substitution leaves alone the variables none of whose quantified names
    is bound as a variable: a name without an entry, and a name whose first
    entry binds an effect, whatever entries follow. *)
Theorem applySubstitutionToVariables_keeps_unbound (subs : Substitutions) (v : Variables) :
  (forall n, In n (quantified_names v) -> binds_variable subs n = false) ->
  applySubstitutionToVariables subs v = v.
Proof. apply unbound_is_kept. Qed.

(** The values of a substitution are closed when none of their quantified
    names is bound as a variable by the substitution. *)
Definition closed_values (subs : Substitutions) : Prop :=
  forall n m value,
    find_sub subs n = Some (SubVariable m value) ->
    forall x, In x (quantified_names value) -> binds_variable subs x = false.

(** A substitution with closed values is idempotent on variables: the
    values are put in place in one pass, a second pass changes nothing. *)
Theorem applySubstitutionToVariables_idempotent (subs : Substitutions) (v : Variables) :
  closed_values subs ->
  applySubstitutionToVariables subs (applySubstitutionToVariables subs v)
  = applySubstitutionToVariables subs v.
Proof.
  intros Hclosed. revert v.
  apply (variables_induction
           (fun v => applySubstitutionToVariables subs (applySubstitutionToVariables subs v)
                     = applySubstitutionToVariables subs v)).
  - reflexivity.
  - intros name. simpl. destruct (find_sub subs name) as [[m value|m e]|] eqn:Hfind.
    + apply unbound_is_kept. exact (Hclosed name m value Hfind).
    + simpl. rewrite Hfind. reflexivity.
    + simpl. rewrite Hfind. reflexivity.
  - intros vs IH. simpl. f_equal. rewrite map_map. apply map_ext_in.
    rewrite Forall_forall in IH. exact IH.
Qed.

(** ** [mergeInMany] *)

Lemma mergeInMany_left {L R : Type} (values : list (L + R)) errors :
  exists errors',
    fold_left
      (fun res v =>
         match res, v with
         | inl errors, inl e => inl (errors ++ [e])%list
         | inl errors, inr _ => inl errors
         | inr _, inl e => inl [e]
         | inr rights, inr x => inr (rights ++ [x])%list
         end)
      values (inl errors) = inl errors'.
Proof.
  revert errors. induction values as [|[e|x] values IH]; intros errors; simpl.
  - eauto.
  - apply IH.
  - apply IH.
Qed.

Lemma mergeInMany_right_from {L R : Type} (values : list (L + R)) acc rights :
  fold_left
    (fun res v =>
       match res, v with
       | inl errors, inl e => inl (errors ++ [e])%list
       | inl errors, inr _ => inl errors
       | inr _, inl e => inl [e]
       | inr rights, inr x => inr (rights ++ [x])%list
       end)
    values (inr acc) = inr rights <->
  exists rest, values = map inr rest /\ rights = (acc ++ rest)%list.
Proof.
  revert acc. induction values as [|[e|x] values IH]; intros acc; simpl.
  - split.
    + intros H. inversion H; subst. exists []. rewrite app_nil_r. split; reflexivity.
    + intros (rest & Hrest & ->). destruct rest; [|discriminate].
      rewrite app_nil_r. reflexivity.
  - split.
    + intros H. destruct (mergeInMany_left values [e]) as (errors' & Heq).
      rewrite Heq in H. discriminate.
    + intros (rest & Hrest & _). destruct rest; discriminate.
  - rewrite IH. split.
    + intros (rest & -> & ->). exists (x :: rest). rewrite <- app_assoc. split; reflexivity.
    + intros (rest & Hrest & ->). destruct rest as [|y rest]; [discriminate|].
      inversion Hrest; subst. exists rest. rewrite <- app_assoc. split; reflexivity.
Qed.

Lemma mergeInMany_right {L R : Type} (values : list (L + R)) rights :
  mergeInMany values = inr rights <-> values = map inr rights.
Proof.
  unfold mergeInMany. rewrite mergeInMany_right_from. simpl. split.
  - intros (rest & -> & ->). reflexivity.
  - intros ->. exists rights. split; reflexivity.
Qed.

Lemma find_sub_app (s1 s2 : Substitutions) n :
  find_sub (s1 ++ s2)%list n = match find_sub s1 n with Some s => Some s | None => find_sub s2 n end.
Proof.
  unfold find_sub. induction s1 as [|s s1 IH]; simpl; [reflexivity|].
  destruct (String.eqb (sub_name s) n); [reflexivity|exact IH].
Qed.

Section WithSimplification.

Variable ErrorTree : Type.
Variable buildErrorTree : string -> ErrorTree + list ErrorTree -> ErrorTree.
Variable effectToString : Effect -> string.
Variable substitutionsToString : Substitutions -> string.
Variable simplifyConcreteEffect : Effect -> ErrorTree + Effect.

Local Abbreviation applySubstitution :=
  (applySubstitution ErrorTree buildErrorTree effectToString simplifyConcreteEffect).
Local Abbreviation compose :=
  (compose ErrorTree buildErrorTree effectToString substitutionsToString simplifyConcreteEffect).

(** What the callback of [applySubstitutionsToSubstitutions] makes of an
    entry when it succeeds. *)
Definition updated (s1 : Substitutions) (s s' : Substitution) : Prop :=
  match s with
  | SubVariable name value => s' = SubVariable name (applySubstitutionToVariables s1 value)
  | SubEffect name value => exists v, applySubstitution s1 value = inr v /\ s' = SubEffect name v
  end.

Lemma updated_functional s1 s2 a b :
  Forall2 (updated s1) s2 a -> Forall2 (updated s1) s2 b -> a = b.
Proof.
  intros Ha. revert b. induction Ha as [|x x' l l' Hx _ IH]; intros b Hb.
  - inversion Hb. reflexivity.
  - inversion Hb as [|y y' k k' Hy Hk]; subst. rewrite (IH k' Hk). f_equal.
    destruct x as [name value|name value]; simpl in Hx, Hy.
    + congruence.
    + destruct Hx as (v & Hv & ->). destruct Hy as (v' & Hv' & ->). congruence.
Qed.

Lemma compose_inv s1 s2 s :
  compose s1 s2 = inr s <-> exists s2', s = (s1 ++ s2')%list /\ Forall2 (updated s1) s2 s2'.
Proof.
  unfold Substitutions.compose, applySubstitutionsToSubstitutions.
  match goal with |- context [mergeInMany ?l] => set (values := l) end.
  destruct (mergeInMany values) as [errors|s2'] eqn:Hmerge.
  - split; [discriminate|]. intros (s2' & -> & H). exfalso.
    assert (Hv : mergeInMany values = inr s2').
    { apply mergeInMany_right. subst values. clear Hmerge.
      induction H as [|x x' l l' Hx _ IH]; simpl; [reflexivity|]. rewrite IH. f_equal.
      destruct x as [name value|name value]; simpl in Hx.
      - rewrite Hx. reflexivity.
      - destruct Hx as (v & -> & ->). reflexivity. }
    congruence.
  - apply mergeInMany_right in Hmerge. subst values.
    assert (H : Forall2 (updated s1) s2 s2').
    { clear s. revert s2' Hmerge. induction s2 as [|x s2 IH]; intros [|x' s2']; simpl;
        intros Heq; try discriminate; constructor.
      - inversion Heq as [[Hx Hrest]]. destruct x as [name value|name value]; simpl.
        + inversion Hx. reflexivity.
        + destruct (applySubstitution s1 value) as [err|v]; [discriminate|].
          inversion Hx. eauto.
      - apply IH. inversion Heq. reflexivity. }
    split.
    + intros Heq. inversion Heq; subst. eauto.
    + intros (s2'' & -> & H'). rewrite (updated_functional s1 s2 s2' s2'' H H'). reflexivity.
Qed.

Lemma updated_key s1 s s' : updated s1 s s' -> sub_key s' = sub_key s.
Proof.
  destruct s as [name value|name value]; simpl.
  - intros ->. reflexivity.
  - intros (v & _ & ->). reflexivity.
Qed.

Lemma updated_name s1 s s' : updated s1 s s' -> sub_name s' = sub_name s.
Proof.
  destruct s as [name value|name value]; simpl.
  - intros ->. reflexivity.
  - intros (v & _ & ->). reflexivity.
Qed.

Lemma find_sub_updated s1 s2 s2' n :
  Forall2 (updated s1) s2 s2' ->
  match find_sub s2 n with
  | None => find_sub s2' n = None
  | Some (SubVariable m value) =>
      find_sub s2' n = Some (SubVariable m (applySubstitutionToVariables s1 value))
  | Some (SubEffect m value) => exists v, find_sub s2' n = Some (SubEffect m v)
  end.
Proof.
  unfold find_sub. induction 1 as [|x x' l l' Hx _ IH]; simpl; [reflexivity|].
  rewrite (updated_name _ _ _ Hx). destruct (String.eqb (sub_name x) n); [|exact IH].
  destruct x as [name value|name value]; simpl in Hx.
  - rewrite Hx. reflexivity.
  - destruct Hx as (v & _ & ->). eauto.
Qed.

(** The domains of two substitutions are apart when no name has an entry in
    both. *)
Definition apart (s1 s2 : Substitutions) : Prop :=
  forall n, find_sub s2 n <> None -> find_sub s1 n = None.

(** The composition of [s1] and [s2] acts on variables as [s2] followed by
    [s1], when no name has an entry in both. *)
Theorem compose_applies_second_then_first (s1 s2 s : Substitutions) (v : Variables) :
  compose s1 s2 = inr s ->
  apart s1 s2 ->
  applySubstitutionToVariables s v
  = applySubstitutionToVariables s1 (applySubstitutionToVariables s2 v).
Proof.
  intros Hcompose Hapart. apply compose_inv in Hcompose.
  destruct Hcompose as (s2' & -> & Hupd). revert v.
  apply (variables_induction
           (fun v => applySubstitutionToVariables (s1 ++ s2')%list v
                     = applySubstitutionToVariables s1 (applySubstitutionToVariables s2 v))).
  - reflexivity.
  - intros name. simpl. rewrite find_sub_app.
    pose proof (find_sub_updated s1 s2 s2' name Hupd) as Hfind.
    pose proof (Hapart name) as Hname.
    destruct (find_sub s2 name) as [[m value|m value]|].
    + rewrite Hname by discriminate. rewrite Hfind. reflexivity.
    + rewrite Hname by discriminate. destruct Hfind as (w & ->). simpl.
      rewrite Hname by discriminate. reflexivity.
    + rewrite Hfind. simpl. destruct (find_sub s1 name) as [[m value|m value]|]; reflexivity.
  - intros vs IH. simpl. f_equal. rewrite map_map. apply map_ext_in.
    rewrite Forall_forall in IH. exact IH.
Qed.

(** A composition that succeeds keeps the entries of [s1] in front, as they
    are, followed by one entry for each entry of [s2], of the same kind and
    name and in the same order; it succeeds exactly when the substitution
    [s1] can be applied to every effect that [s2] binds. *)
Theorem compose_keeps_entries (s1 s2 : Substitutions) :
  (forall s,
      compose s1 s2 = inr s ->
      firstn (List.length s1) s = s1 /\
      map sub_key (skipn (List.length s1) s) = map sub_key s2) /\
  ((exists s, compose s1 s2 = inr s) <->
   (forall name value,
       In (SubEffect name value) s2 -> exists v, applySubstitution s1 value = inr v)).
Proof.
  split.
  - intros s Hcompose. apply compose_inv in Hcompose. destruct Hcompose as (s2' & -> & Hupd).
    split.
    + rewrite firstn_app, Nat.sub_diag, firstn_all. simpl. apply app_nil_r.
    + rewrite skipn_app, Nat.sub_diag, skipn_all. simpl.
      induction Hupd as [|x x' l l' Hx _ IH]; simpl; [reflexivity|].
      rewrite (updated_key _ _ _ Hx), IH. reflexivity.
  - split.
    + intros (s & Hcompose) name value Hin. apply compose_inv in Hcompose.
      destruct Hcompose as (s2' & _ & Hupd). clear s.
      induction Hupd as [|x x' l l' Hx _ IH]; [destruct Hin|].
      destruct Hin as [->|Hin]; [|apply IH; exact Hin].
      simpl in Hx. destruct Hx as (v & Hv & _). eauto.
    + intros Hall.
      assert (H : exists s2', Forall2 (updated s1) s2 s2').
      { induction s2 as [|x l IH].
        - exists []. constructor.
        - destruct IH as (l' & Hl); [intros name value Hin; apply (Hall name value); right; exact Hin|].
          destruct x as [name value|name value].
          + eexists (_ :: l'). constructor; [reflexivity|exact Hl].
          + destruct (Hall name value (or_introl eq_refl)) as (v & Hv).
            exists (SubEffect name v :: l'). constructor; [|exact Hl]. simpl. eauto. }
      destruct H as (s2' & Hupd). exists (s1 ++ s2')%list. apply compose_inv. eauto.
Qed.

Lemma mergeInMany_total {L R : Type} (values : list (L + R)) :
  Forall (fun v => exists r, v = inr r) values -> exists rights, mergeInMany values = inr rights.
Proof.
  intros H.
  assert (Hmap : exists rights, values = map inr rights).
  { induction H as [|v l (r & ->) _ (rights & ->)].
    - exists []. reflexivity.
    - exists (r :: rights). reflexivity. }
  destruct Hmap as (rights & ->). exists rights. apply mergeInMany_right. reflexivity.
Qed.

Lemma applySubstitution_total subs :
  (forall e, exists r, simplifyConcreteEffect e = inr r) ->
  forall e, exists r, applySubstitution subs e = inr r.
Proof.
  intros Hsimplify.
  assert (Hfinal : forall e' : Effect,
             exists r, match e' with
                       | EffConcrete _ _ => simplifyConcreteEffect e'
                       | _ => inr e'
                       end = inr r).
  { intros [read update|params result|name]; [apply Hsimplify|eauto|eauto]. }
  apply (effect_induction (fun e => exists r, applySubstitution subs e = inr r)).
  - intros read update. simpl. apply Hsimplify.
  - intros params result IHparams (r & Hr). simpl.
    destruct (mergeInMany_total (map (applySubstitution subs) params)) as (ps & ->).
    { rewrite Forall_forall in IHparams |- *. intros v Hv. apply in_map_iff in Hv.
      destruct Hv as (p & <- & Hp). apply IHparams. exact Hp. }
    change (Substitutions.applySubstitution ErrorTree buildErrorTree effectToString
              simplifyConcreteEffect subs result) with (applySubstitution subs result).
    rewrite Hr. eauto.
  - intros name. simpl. destruct (find_sub subs name) as [[m value|m value]|]; simpl; eauto.
Qed.

End WithSimplification.

(** The only source of failure is the simplification of concrete effects:
    when it cannot fail, substitution returns an effect for every effect and
    every two substitutions compose. *)
Theorem substitution_fails_only_in_simplification
  (ErrorTree : Type) (buildErrorTree : string -> ErrorTree + list ErrorTree -> ErrorTree)
  (effectToString : Effect -> string) (substitutionsToString : Substitutions -> string)
  (simplifyConcreteEffect : Effect -> ErrorTree + Effect) :
  (forall e, exists r, simplifyConcreteEffect e = inr r) ->
  (forall subs e,
      exists r, applySubstitution ErrorTree buildErrorTree effectToString
                  simplifyConcreteEffect subs e = inr r) /\
  (forall s1 s2,
      exists s, compose ErrorTree buildErrorTree effectToString substitutionsToString
                  simplifyConcreteEffect s1 s2 = inr s).
Proof.
  intros Hsimplify.
  assert (Htotal : forall subs e,
             exists r, applySubstitution ErrorTree buildErrorTree effectToString
                         simplifyConcreteEffect subs e = inr r).
  { intros subs e. apply applySubstitution_total. exact Hsimplify. }
  split; [exact Htotal|].
  intros s1 s2.
  assert (H : exists s2', Forall2 (updated ErrorTree buildErrorTree effectToString
                                      simplifyConcreteEffect s1) s2 s2').
  { induction s2 as [|x l (l' & Hl)].
    - exists []. constructor.
    - destruct x as [name value|name value].
      + eexists (_ :: l'). constructor; [reflexivity|exact Hl].
      + destruct (Htotal s1 value) as (v & Hv).
        exists (SubEffect name v :: l'). constructor; [|exact Hl]. simpl. eauto. }
  destruct H as (s2' & Hupd). exists (s1 ++ s2')%list. apply compose_inv. eauto.
Qed.

(** ** Concrete substitutions *)

(** [v] is bound first as an effect and then as a variables, [w] is not
    bound. *)
Definition shadowing : Substitutions :=
  [SubEffect "v" (EffQuantified "e"); SubVariable "v" (VConcrete ["x"])].

Lemma applySubstitutionToVariables_keeps_unbound_witness :
  (forall n, In n (quantified_names (VUnion [VQuantified "v"; VQuantified "w"; VConcrete ["y"]])) ->
             binds_variable shadowing n = false) /\
  applySubstitutionToVariables shadowing (VUnion [VQuantified "v"; VQuantified "w"; VConcrete ["y"]])
  = VUnion [VQuantified "v"; VQuantified "w"; VConcrete ["y"]].
Proof.
  assert (H : forall n,
             In n (quantified_names (VUnion [VQuantified "v"; VQuantified "w"; VConcrete ["y"]])) ->
             binds_variable shadowing n = false).
  { simpl. intros n [<-|[<-|[]]]; reflexivity. }
  split; [exact H|].
  exact (applySubstitutionToVariables_keeps_unbound shadowing _ H).
Defined.

(** [v] stands for a union that mentions [w], which is not bound. *)
Definition closedSubstitution : Substitutions :=
  [SubVariable "v" (VUnion [VConcrete ["x"]; VQuantified "w"])].

Lemma closedSubstitution_closed : closed_values closedSubstitution.
Proof.
  intros n m value. unfold find_sub, closedSubstitution. cbn [find sub_name].
  destruct (String.eqb "v" n); [|intros Heq; discriminate Heq].
  intros Heq. inversion Heq; subst. simpl. intros x [<-|Hfalse]; [reflexivity|destruct Hfalse].
Qed.

Lemma applySubstitutionToVariables_idempotent_witness :
  closed_values closedSubstitution /\
  applySubstitutionToVariables closedSubstitution
    (applySubstitutionToVariables closedSubstitution (VUnion [VQuantified "v"; VQuantified "w"]))
  = applySubstitutionToVariables closedSubstitution (VUnion [VQuantified "v"; VQuantified "w"]).
Proof.
  split; [exact closedSubstitution_closed|].
  exact (applySubstitutionToVariables_idempotent closedSubstitution _ closedSubstitution_closed).
Defined.

(** A simplification that returns the effect it is given, with error trees
    that carry nothing. *)
Definition noSimplification (e : Effect) : unit + Effect := inr e.
Definition unitTree (message : string) (errors : unit + list unit) : unit := tt.
Definition noPrinter {A : Type} (a : A) : string := "".

Definition firstSubstitution : Substitutions := [SubVariable "a" (VConcrete ["x"])].
Definition secondSubstitution : Substitutions :=
  [SubVariable "b" (VUnion [VQuantified "a"; VConcrete ["y"]]);
   SubEffect "e" (EffConcrete (VQuantified "a") (VConcrete []))].
Definition composedSubstitution : Substitutions :=
  [SubVariable "a" (VConcrete ["x"]);
   SubVariable "b" (VUnion [VConcrete ["x"]; VConcrete ["y"]]);
   SubEffect "e" (EffConcrete (VConcrete ["x"]) (VConcrete []))].

Lemma substitutions_apart : apart firstSubstitution secondSubstitution.
Proof.
  intros n H. unfold find_sub, firstSubstitution. cbn [find sub_name].
  destruct (String.eqb "a" n) eqn:E; [|reflexivity].
  apply String.eqb_eq in E. subst n. exfalso. apply H. reflexivity.
Qed.

Lemma compose_applies_second_then_first_witness :
  compose unit unitTree noPrinter noPrinter noSimplification firstSubstitution secondSubstitution
  = inr composedSubstitution /\
  apart firstSubstitution secondSubstitution /\
  applySubstitutionToVariables composedSubstitution (VUnion [VQuantified "b"; VQuantified "a"])
  = applySubstitutionToVariables firstSubstitution
      (applySubstitutionToVariables secondSubstitution (VUnion [VQuantified "b"; VQuantified "a"])).
Proof.
  split; [reflexivity|]. split; [exact substitutions_apart|].
  exact (compose_applies_second_then_first unit unitTree noPrinter noPrinter noSimplification
           firstSubstitution secondSubstitution composedSubstitution
           (VUnion [VQuantified "b"; VQuantified "a"]) eq_refl substitutions_apart).
Defined.

Lemma substitution_fails_only_in_simplification_witness :
  (forall e, exists r, noSimplification e = inr r) /\
  (forall subs e,
      exists r, applySubstitution unit unitTree noPrinter noSimplification subs e = inr r) /\
  (forall s1 s2,
      exists s, compose unit unitTree noPrinter noPrinter noSimplification s1 s2 = inr s).
Proof.
  assert (H : forall e, exists r, noSimplification e = inr r) by (intros e; exists e; reflexivity).
  split; [exact H|].
  exact (substitution_fails_only_in_simplification unit unitTree noPrinter noPrinter
           noSimplification H).
Defined.

End SubstitutionFacts.

(** * Properties of the collector into one table *)

Module NameCollectorFacts.

Import DefinitionsCollector NameCollector.

(** The ids of the lambdas and of the [let]s of an expression. *)
Fixpoint binders (expr : TntEx) : list Z :=
  match expr with
  | TntLambda _ _ body id => id :: binders body
  | TntApp _ args _ => flat_map binders args
  | TntLet (TntOp _ _ opexpr _) body id => (id :: binders opexpr ++ binders body)%list
  | _ => []
  end.

Definition body_names (expr : option TntEx) : list NameDefinition :=
  match expr with Some e => collectFromExpr e | None => [] end.

(** The name a declaration introduces in its module. *)
Definition declaredName (def : Def) : list NameDefinition :=
  match def with
  | DefConst name => [mkNameDefinition "const" name None]
  | DefVar name => [mkNameDefinition "var" name None]
  | DefOp name _ => [mkNameDefinition "def" name None]
  | DefInstance name _ => [mkNameDefinition "namespace" name None]
  | DefModule module => [mkNameDefinition "namespace" (module_name module) None]
  | DefAssume name _ => [mkNameDefinition "assumption" name None]
  | DefTypeDef _ _ | DefImport => []
  end.

(** The names bound inside a declaration. *)
Definition innerNames (def : Def) : list NameDefinition :=
  match def with
  | DefOp _ expr | DefAssume _ expr => body_names expr
  | DefInstance _ overrides => flat_map (fun e => collectFromExpr (snd e)) overrides
  | _ => []
  end.

Definition collectedNames (m : Module) : list NameDefinition :=
  flat_map (fun def => declaredName def ++ innerNames def)%list (module_defs m).

Definition collectedTypes (m : Module) : list TypeDefinition :=
  flat_map (fun def => match def with
                       | DefTypeDef name type => [mkTypeDefinition name type]
                       | _ => []
                       end) (module_defs m).

Definition unscoped (d : NameDefinition) : bool :=
  match scope d with None => true | Some _ => false end.

Lemma collectDef_effect names types def :
  collectDef (names, types) def
  = ((names ++ declaredName def ++ innerNames def)%list,
     (types ++ match def with
               | DefTypeDef name type => [mkTypeDefinition name type]
               | _ => []
               end)%list).
Proof.
  destruct def as [name|name|name [e|]|name overrides|m|name ty|name [e|]|]; simpl;
    rewrite ?app_nil_r, <- ?app_assoc; reflexivity.
Qed.

Lemma fold_collectDef defs : forall names types,
  fold_left collectDef defs (names, types)
  = ((names ++ flat_map (fun def => declaredName def ++ innerNames def) defs)%list,
     (types ++ flat_map (fun def => match def with
                                    | DefTypeDef name type => [mkTypeDefinition name type]
                                    | _ => []
                                    end) defs)%list).
Proof.
  induction defs as [|def defs IH]; intros names types; cbn [fold_left flat_map].
  - rewrite !app_nil_r. reflexivity.
  - rewrite collectDef_effect, IH, <- !app_assoc. reflexivity.
Qed.

Lemma collectDefinitions_effect m store :
  collectDefinitions m store
  = (mkDefinitionTable defaultDefinitions (collectedTypes m), (store ++ collectedNames m)%list).
Proof.
  unfold collectDefinitions. rewrite fold_collectDef. reflexivity.
Qed.

(** A call on [m1], and a call on [m2] that follows it. *)
Definition firstCall (m1 : Module) (store : Store) : DefinitionTable * Store :=
  collectDefinitions m1 store.
Definition secondCall (m1 m2 : Module) (store : Store) : DefinitionTable * Store :=
  collectDefinitions m2 (snd (firstCall m1 store)).

(** The tables of two calls share their array of name definitions: after
    the second call both tables read the content the array had before the
    first call followed by the names of the first module and those of the
    second. Each table has the type definitions of its own module only. *)
Theorem collectDefinitions_shares_name_array (m1 m2 : Module) (store : Store) :
  read (snd (secondCall m1 m2 store)) (nameDefinitions (fst (firstCall m1 store)))
  = (store ++ collectedNames m1 ++ collectedNames m2)%list /\
  read (snd (secondCall m1 m2 store)) (nameDefinitions (fst (secondCall m1 m2 store)))
  = (store ++ collectedNames m1 ++ collectedNames m2)%list /\
  typeDefinitions (fst (firstCall m1 store)) = collectedTypes m1 /\
  typeDefinitions (fst (secondCall m1 m2 store)) = collectedTypes m2.
Proof.
  unfold secondCall, firstCall. rewrite !collectDefinitions_effect. simpl.
  rewrite <- app_assoc. repeat split; reflexivity.
Qed.

Section ExprInduction.
Variable P : TntEx -> Prop.
Hypothesis Hname : forall n i, P (TntName n i).
Hypothesis Hbool : forall v i, P (TntBool v i).
Hypothesis Hint : forall v i, P (TntInt v i).
Hypothesis Hstr : forall v i, P (TntStr v i).
Hypothesis Happ : forall opcode args i, Forall P args -> P (TntApp opcode args i).
Hypothesis Hlambda : forall params q body i, P body -> P (TntLambda params q body i).
Hypothesis Hlet : forall n q opexpr j body i,
    P opexpr -> P body -> P (TntLet (TntOp n q opexpr j) body i).

Fixpoint expr_ind' (e : TntEx) : P e :=
  match e with
  | TntName n i => Hname n i
  | TntBool v i => Hbool v i
  | TntInt v i => Hint v i
  | TntStr v i => Hstr v i
  | TntApp opcode args i =>
      Happ opcode args i
        ((fix all (l : list TntEx) : Forall P l :=
            match l with
            | [] => Forall_nil P
            | a :: rest => Forall_cons a (expr_ind' a) (all rest)
            end) args)
  | TntLambda params q body i => Hlambda params q body i (expr_ind' body)
  | TntLet (TntOp n q opexpr j) body i =>
      Hlet n q opexpr j body i (expr_ind' opexpr) (expr_ind' body)
  end.
End ExprInduction.

Lemma collectFromExpr_scoped :
  forall expr d,
    In d (collectFromExpr expr) -> exists id, scope d = Some id /\ In id (binders expr).
Proof.
  apply (expr_ind' (fun expr => forall d, In d (collectFromExpr expr) ->
                                          exists id, scope d = Some id /\ In id (binders expr)));
    try (intros; simpl in *; contradiction).
  - intros opcode args i IH d Hin. simpl in Hin. apply in_flat_map in Hin.
    destruct Hin as (a & Ha & Hd). rewrite Forall_forall in IH.
    destruct (IH a Ha d Hd) as (id & Hs & Hid). exists id. split; [exact Hs|].
    simpl. apply in_flat_map. exists a. split; assumption.
  - intros params q body i IH d Hin. simpl in Hin. apply in_app_or in Hin.
    destruct Hin as [Hin|Hin].
    + apply in_map_iff in Hin. destruct Hin as (p & <- & _). exists i. simpl. auto.
    + destruct (IH d Hin) as (id & Hs & Hid). exists id. simpl. auto.
  - intros n q opexpr j body i IHop IHbody d Hin. simpl in Hin.
    destruct Hin as [<-|Hin]; [exists i; simpl; auto|].
    apply in_app_or in Hin. destruct Hin as [Hin|Hin].
    + destruct (IHop d Hin) as (id & Hs & Hid). exists id. split; [exact Hs|].
      simpl. right. apply in_or_app. left. exact Hid.
    + destruct (IHbody d Hin) as (id & Hs & Hid). exists id. split; [exact Hs|].
      simpl. right. apply in_or_app. right. exact Hid.
Qed.

Lemma filter_scoped l :
  (forall d, In d l -> exists id, scope d = Some id) -> filter unscoped l = [].
Proof.
  induction l as [|d l IH]; intros H; simpl; [reflexivity|].
  destruct (H d (or_introl eq_refl)) as (id & Hs). unfold unscoped at 1. rewrite Hs.
  apply IH. intros d' Hd'. apply H. right. exact Hd'.
Qed.

Lemma innerNames_scoped def d : In d (innerNames def) -> exists id, scope d = Some id.
Proof.
  destruct def as [name|name|name [e|]|name overrides|m|name ty|name [e|]|]; simpl;
    try contradiction.
  - intros H. destruct (collectFromExpr_scoped e d H) as (id & Hs & _). eauto.
  - intros H. apply in_flat_map in H. destruct H as (o & _ & Hd).
    destruct (collectFromExpr_scoped (snd o) d Hd) as (id & Hs & _). eauto.
  - intros H. destruct (collectFromExpr_scoped e d H) as (id & Hs & _). eauto.
Qed.

(** A name collected from an expression carries as its scope the id of a
    lambda or of a [let] of that expression. The names a call adds without
    a scope are therefore those the declarations of the module introduce,
    one for each declaration other than a type alias and an import, in the
    order of the declarations; what a nested module declares is not among
    them. *)
Theorem collectDefinitions_scopes_inner_names (m : Module) (store : Store) :
  (forall expr d,
      In d (collectFromExpr expr) -> exists id, scope d = Some id /\ In id (binders expr)) /\
  exists added,
    snd (collectDefinitions m store) = (store ++ added)%list /\
    filter unscoped added = flat_map declaredName (module_defs m).
Proof.
  split; [exact collectFromExpr_scoped|].
  exists (collectedNames m). rewrite collectDefinitions_effect. split; [reflexivity|].
  unfold collectedNames. induction (module_defs m) as [|def defs IH]; simpl; [reflexivity|].
  rewrite !filter_app, IH. f_equal.
  rewrite (filter_scoped (innerNames def)) by (intros d Hd; eapply innerNames_scoped; exact Hd).
  rewrite app_nil_r. destruct def; reflexivity.
Qed.

End NameCollectorFacts.

(** * Properties of the frames of the evaluation context *)

Module ContextFacts.

Import EvaluatorContext.


Section WithValues.

Variable Value : Type.





End WithValues.

(** A [removeNamespaces] that finds the history empty leaves the namespaces
    undefined. The next [addNamespaces] throws, after it has put the
    undefined namespaces on the history. *)
Theorem removeNamespaces_without_history_breaks (Value : Type) (ctx : Context Value)
  (given : option (list string)) :
  namespacesHistory Value ctx = [] ->
  calls Value [RemoveNamespaces; AddNamespaces given] ctx
  = TypeError (mkContext Value (consts Value ctx) None (constHistory Value ctx) [None]).
Proof.
  intros H. simpl. unfold removeNamespaces, popped, addNamespaces. rewrite H. reflexivity.
Qed.





Lemma removeNamespaces_without_history_breaks_witness :
  namespacesHistory Z (newContext Z) = [] /\
  calls Z [RemoveNamespaces; AddNamespaces (Some ["A"])] (newContext Z)
  = TypeError (mkContext Z (Some []) None [] [None]).
Proof.
  split; [reflexivity|].
  exact (removeNamespaces_without_history_breaks Z (newContext Z) (Some ["A"]) eq_refl).
Defined.

End ContextFacts.
